(** * Sprint planner: document store, item mutations, drag resolution, statistics

    A shallow embedding of the core logic of [src/App.tsx] (the planner
    document, the item handlers, [handleDragEnd], the statistics of the
    committed group, and the JSON import and export) and of the import
    handler of the import/export modal; then of the sprint table, the domain
    colours, the sub-item editing of an item, the clipboard export of a
    group, and the writing of the document and of the colours to the store.

    Conventions of the embedding.
    - A number held by a document (a velocity, a multiplier, a point value)
      is the rational that its JSON numeral denotes ([JNum], [Q]). The
      statistics compute with IEEE 754 doubles: such a number is read as the
      double nearest to it, and [+], [-], [*], [/] round their exact result
      to the nearest double, in the order in which the source applies them;
      [Math.round] is the nearest integer, a half going up. The multiplier
      that [addSprint] derives is computed on the rationals, which is what
      the doubles give for a multiplier of magnitude below [2^53]. A
      document holds no NaN, which JSON does not have.
    - A JavaScript string is a [string], the UTF-8 bytes of its text;
      [typeof v === "number"] is a match on the constructor [JNum].
    - A JavaScript object used as a record or as a map is the sequence of
      its own properties. Where the source reads a property under a name
      that comes from the data (a domain), the read also sees the members
      that every object inherits from [Object.prototype].
    - React's [setData (prev => next)] is a function from the previous
      document to the next one; [generateId] is an oracle that the handlers
      receive as an argument. *)

From Stdlib Require Import Ascii QArith Qround Qabs Qpower Lqa DecimalN.
From Stdlib Require Import SpecFloat.
From stdpp Require Import base list strings sorting pretty.

Set Warnings "-register-all".
Open Scope Q_scope.
Open Scope string_scope.
Open Scope list_scope.

(** ** Runtime values *)

(** The values [JSON.parse] can produce. An object is the sequence of its own
    properties in property order. *)
Inductive jsval : Type :=
  | JNull
  | JBool (b : bool)
  | JNum (n : Q)
  | JStr (s : string)
  | JArr (elems : list jsval)
  | JObj (props : list (string * jsval)).

(** ** Data model ([src/App.tsx], TYPES) *)

Record SubItem : Type := mkSubItem {
  sub_id : string;
  sub_text : string
}.

(** [requiredPoints] and [optionalPoints] are declared [number | ""], but an
    imported document can carry any value there; [None] is an absent
    property. *)
Record Item : Type := mkItem {
  item_id : string;
  item_text : string;
  subItems : list SubItem;
  epic : option string;
  domain : option string;
  requiredPoints : option jsval;
  optionalPoints : option jsval
}.

Record Sprint : Type := mkSprint {
  sprint_id : string;
  sprint_name : string;
  multiplier : Q
}.

Inductive GroupId : Type :=
  | staging
  | committed
  | milestones
  | risks
  | dependencies
  | willNotDo
  | uncommitted.

#[global] Instance GroupId_eq_dec : EqDecision GroupId.
Proof. solve_decision. Defined.

(** [Record<GroupId, Item[]>]: one sequence per group key. *)
Record Groups : Type := mkGroups {
  g_staging : list Item;
  g_committed : list Item;
  g_milestones : list Item;
  g_risks : list Item;
  g_dependencies : list Item;
  g_willNotDo : list Item;
  g_uncommitted : list Item
}.

Record PlannerData : Type := mkPlannerData {
  sprints : list Sprint;
  velocity : Q;
  items : Groups
}.

Record DragData : Type := mkDragData {
  dd_item : Item;
  dd_groupId : GroupId
}.

(** [its[g]] *)
Definition group_items (its : Groups) (g : GroupId) : list Item :=
  match g with
  | staging => g_staging its
  | committed => g_committed its
  | milestones => g_milestones its
  | risks => g_risks its
  | dependencies => g_dependencies its
  | willNotDo => g_willNotDo its
  | uncommitted => g_uncommitted its
  end.

(** [{ ...its, [g]: l }] *)
Definition set_group (g : GroupId) (l : list Item) (its : Groups) : Groups :=
  match g with
  | staging =>
      mkGroups l (g_committed its) (g_milestones its) (g_risks its)
        (g_dependencies its) (g_willNotDo its) (g_uncommitted its)
  | committed =>
      mkGroups (g_staging its) l (g_milestones its) (g_risks its)
        (g_dependencies its) (g_willNotDo its) (g_uncommitted its)
  | milestones =>
      mkGroups (g_staging its) (g_committed its) l (g_risks its)
        (g_dependencies its) (g_willNotDo its) (g_uncommitted its)
  | risks =>
      mkGroups (g_staging its) (g_committed its) (g_milestones its) l
        (g_dependencies its) (g_willNotDo its) (g_uncommitted its)
  | dependencies =>
      mkGroups (g_staging its) (g_committed its) (g_milestones its)
        (g_risks its) l (g_willNotDo its) (g_uncommitted its)
  | willNotDo =>
      mkGroups (g_staging its) (g_committed its) (g_milestones its)
        (g_risks its) (g_dependencies its) l (g_uncommitted its)
  | uncommitted =>
      mkGroups (g_staging its) (g_committed its) (g_milestones its)
        (g_risks its) (g_dependencies its) (g_willNotDo its) l
  end.

(** [{ ...prev, items: its }] *)
Definition with_items (its : Groups) (prev : PlannerData) : PlannerData :=
  mkPlannerData (sprints prev) (velocity prev) its.

Definition all_groups : list GroupId :=
  [staging; committed; milestones; risks; dependencies; willNotDo; uncommitted].

(** Every item of the document, group after group. *)
Definition all_items (its : Groups) : list Item :=
  g_staging its ++ g_committed its ++ g_milestones its ++ g_risks its ++
  g_dependencies its ++ g_willNotDo its ++ g_uncommitted its.

Definition all_ids (its : Groups) : list string :=
  item_id <$> all_items its.

(** ** Constants ([src/App.tsx], CONSTANTS) *)

(** [Object.keys(GROUP_CONFIG)] *)
Definition GROUP_CONFIG_keys : list string :=
  ["staging"; "committed"; "milestones"; "risks"; "dependencies";
   "willNotDo"; "uncommitted"].

Definition group_key (g : GroupId) : string :=
  match g with
  | staging => "staging"
  | committed => "committed"
  | milestones => "milestones"
  | risks => "risks"
  | dependencies => "dependencies"
  | willNotDo => "willNotDo"
  | uncommitted => "uncommitted"
  end.

(** [overId as GroupId], defined exactly on the keys of [GROUP_CONFIG]:
    [Object.keys(GROUP_CONFIG).includes(overId)] is [is_Some (as_GroupId
    overId)]. *)
Definition as_GroupId (s : string) : option GroupId :=
  list_find (λ g, group_key g = s) all_groups ≫= λ p, Some p.2.

Definition empty_groups : Groups := mkGroups [] [] [] [] [] [] [].

Definition DEFAULT_DATA : PlannerData :=
  mkPlannerData
    [ mkSprint "s1" "S1" 100;
      mkSprint "s2" "S2" 95;
      mkSprint "s3" "S3" 90;
      mkSprint "s4" "S4" 80;
      mkSprint "s5" "S5" 70 ]
    34
    empty_groups.

(** ** Item mutation engine ([src/App.tsx], handlers of [SprintPlanner]) *)

(** [items.findIndex(i => i.id === x)], with [-1] when nothing matches. *)
Definition findIndex (x : string) (l : list Item) : Z :=
  match list_find (λ i, item_id i = x) l with
  | Some (k, _) => Z.of_nat k
  | None => (-1)%Z
  end.

Definition handleAddItem (newId : string) (groupId : GroupId)
    (prev : PlannerData) : PlannerData :=
  let newItem :=
    mkItem newId "" [] (Some "") (Some "") (Some (JStr "")) (Some (JStr "")) in
  with_items
    (set_group groupId (group_items (items prev) groupId ++ [newItem])
       (items prev))
    prev.

(** [generateId] is called once for the clone and then once per sub-item:
    [genId 0] is the first call, [genId (S k)] the call for sub-item [k]. *)
Definition handleDuplicateItem (genId : nat → string) (groupId : GroupId)
    (item : Item) (prev : PlannerData) : PlannerData :=
  let duplicatedItem :=
    mkItem (genId 0%nat)
      (if decide (item_text item = "") then ""
       else item_text item ++ " (copy)")
      (imap (λ k sub, mkSubItem (genId (S k)) (sub_text sub)) (subItems item))
      (epic item) (domain item) (requiredPoints item) (optionalPoints item) in
  with_items
    (set_group groupId (group_items (items prev) groupId ++ [duplicatedItem])
       (items prev))
    prev.

(** [[newItems[i], newItems[j]] = [newItems[j], newItems[i]]] on a copy. *)
Definition swap_at (i j : nat) (l : list Item) : list Item :=
  match l !! j, l !! i with
  | Some a, Some b => <[j:=b]> (<[i:=a]> l)
  | _, _ => l
  end.

Inductive Direction : Type := up | down.

Definition handleReorderItem (groupId : GroupId) (itemId : string)
    (direction : Direction) (prev : PlannerData) : PlannerData :=
  let its := group_items (items prev) groupId in
  let currentIndex := findIndex itemId its in
  if decide (currentIndex = -1)%Z then prev
  else
    let newIndex :=
      match direction with
      | up => (currentIndex - 1)%Z
      | down => (currentIndex + 1)%Z
      end in
    if decide (newIndex < 0 ∨ newIndex >= Z.of_nat (length its))%Z then prev
    else
      with_items
        (set_group groupId
           (swap_at (Z.to_nat currentIndex) (Z.to_nat newIndex) its)
           (items prev))
        prev.

(** [Partial<Item>]: each property is either missing ([None]) or given. *)
Record ItemUpdates : Type := mkItemUpdates {
  u_id : option string;
  u_text : option string;
  u_subItems : option (list SubItem);
  u_epic : option (option string);
  u_domain : option (option string);
  u_requiredPoints : option (option jsval);
  u_optionalPoints : option (option jsval)
}.

(** [{ ...item, ...updates }] *)
Definition merge_item (item : Item) (updates : ItemUpdates) : Item :=
  mkItem
    (default (item_id item) (u_id updates))
    (default (item_text item) (u_text updates))
    (default (subItems item) (u_subItems updates))
    (default (epic item) (u_epic updates))
    (default (domain item) (u_domain updates))
    (default (requiredPoints item) (u_requiredPoints updates))
    (default (optionalPoints item) (u_optionalPoints updates)).

Definition handleUpdateItem (groupId : GroupId) (itemId : string)
    (updates : ItemUpdates) (prev : PlannerData) : PlannerData :=
  with_items
    (set_group groupId
       ((λ item, if decide (item_id item = itemId)
                 then merge_item item updates else item)
          <$> group_items (items prev) groupId)
       (items prev))
    prev.

Definition handleDeleteItem (groupId : GroupId) (itemId : string)
    (prev : PlannerData) : PlannerData :=
  with_items
    (set_group groupId
       (filter (λ item, item_id item ≠ itemId) (group_items (items prev) groupId))
       (items prev))
    prev.

(** ** Drag transition resolver ([handleDragEnd]) *)

Record Active : Type := mkActive {
  active_id : string;
  active_data : DragData
}.

(** A drop target: a group zone registers no data ([useDroppable({ id })]),
    an item registers its [DragData]. *)
Record Over : Type := mkOver {
  over_id : string;
  over_data : option DragData
}.

Record DragEndEvent : Type := mkDragEndEvent {
  active : Active;
  over : option Over
}.

(** [arrayMove] of @dnd-kit/sortable: take the element out at [from] and put
    it back at [to]. *)
Definition arrayMove (array : list Item) (from to : nat) : list Item :=
  match array !! from with
  | Some x => let rest := delete from array in take to rest ++ x :: drop to rest
  | None => array
  end.

(** [copy.splice(k, 0, item)] *)
Definition splice_in (k : nat) (item : Item) (l : list Item) : list Item :=
  take k l ++ item :: drop k l.

Definition handleDragEnd (event : DragEndEvent) (prev : PlannerData)
    : PlannerData :=
  match over event with
  | None => prev
  | Some ov =>
      let activeId := active_id (active event) in
      let overId := over_id ov in
      if decide (activeId = overId) then prev
      else
        let dragData := active_data (active event) in
        let sourceGroup := dd_groupId dragData in
        match as_GroupId overId with
        | Some destGroup =>
            if decide (sourceGroup = destGroup) then prev
            else
              let item := dd_item dragData in
              with_items
                (set_group destGroup
                   (group_items (items prev) destGroup ++ [item])
                   (set_group sourceGroup
                      (filter (λ i, item_id i ≠ item_id item)
                         (group_items (items prev) sourceGroup))
                      (items prev)))
                prev
        | None =>
            let destGroup :=
              match over_data ov with
              | Some overData => dd_groupId overData
              | None => sourceGroup
              end in
            if decide (sourceGroup = destGroup) then
              let its := group_items (items prev) sourceGroup in
              let oldIndex := findIndex activeId its in
              let newIndex := findIndex overId its in
              if decide (oldIndex = -1 ∨ newIndex = -1)%Z then prev
              else
                with_items
                  (set_group sourceGroup
                     (arrayMove its (Z.to_nat oldIndex) (Z.to_nat newIndex))
                     (items prev))
                  prev
            else
              let item := dd_item dragData in
              let destItems := group_items (items prev) destGroup in
              let newIndex := findIndex overId destItems in
              let newDestItems :=
                splice_in
                  (if decide (newIndex = -1)%Z then length destItems
                   else Z.to_nat newIndex)
                  item destItems in
              with_items
                (set_group destGroup newDestItems
                   (set_group sourceGroup
                      (filter (λ i, item_id i ≠ item_id item)
                         (group_items (items prev) sourceGroup))
                      (items prev)))
                prev
        end
  end.

(** ** Numbers

    A JavaScript number is an IEEE 754 double: a finite value, an infinity,
    or NaN. A finite double is given by the rational it denotes, in lowest
    terms; the two zeros are one value, [Finite 0] (the code never divides
    by a zero and never prints a statistic that is a zero with a sign). *)

Inductive double : Type :=
  | Finite (q : Q)
  | PosInf
  | NegInf
  | NaN.

Definition pow2 (e : Z) : Q := 2 ^ e.

(** [floor (log2 a)] for a positive [a]: the difference of the bit lengths
    of the numerator and of the denominator, or one less. *)
Definition ilog2 (a : Q) : Z :=
  let k := (Z.log2 (Qnum a) - Z.log2 (Z.pos (Qden a)))%Z in
  if Qle_bool (pow2 k) a then k else (k - 1)%Z.

(** The integer nearest to [x], a tie going to the even one. *)
Definition round_half_even (x : Q) : Z :=
  let f := Qfloor x in
  match Qcompare (x - inject_Z f) (1 # 2) with
  | Lt => f
  | Gt => (f + 1)%Z
  | Eq => if Z.even f then f else (f + 1)%Z
  end.

(** From this magnitude on a real number rounds to an infinity: half a step
    above the largest double, [(2^53 - 1) * 2^971]. *)
Definition overflow_threshold : Q := pow2 1024 - pow2 970.

(** The double nearest to the real number [x], a tie going to the even
    significand (the rounding of every arithmetic operation, and of a
    numeral): the doubles near [x] are the multiples [m * 2^e] of the step
    [2^e], where [2^52 <= |x| / 2^e < 2^53], or [e = -1074] for a smaller
    [x]. *)
Definition fl (x : Q) : double :=
  let q := Qred x in
  let a := Qabs q in
  if Qle_bool overflow_threshold a
  then (if Qle_bool 0 q then PosInf else NegInf)
  else
    let e := Z.max (ilog2 a - 52) (-1074) in
    let m := round_half_even (a / pow2 e) in
    Finite (Qred ((if Qle_bool 0 q then 1 else -1) * (inject_Z m * pow2 e))).

Definition fneg (x : double) : double :=
  match x with
  | Finite q => Finite (Qred (- q))
  | PosInf => NegInf
  | NegInf => PosInf
  | NaN => NaN
  end.

(** [x + y] *)
Definition fadd (x y : double) : double :=
  match x, y with
  | Finite a, Finite b => fl (a + b)
  | NaN, _ | _, NaN => NaN
  | PosInf, NegInf | NegInf, PosInf => NaN
  | PosInf, _ | _, PosInf => PosInf
  | NegInf, _ | _, NegInf => NegInf
  end.

(** [x - y] *)
Definition fsub (x y : double) : double := fadd x (fneg y).

Inductive Sign : Type := Negative | Zero | Positive.

Definition sign (x : double) : option Sign :=
  match x with
  | Finite q =>
      Some (match Qcompare q 0 with
            | Lt => Negative
            | Eq => Zero
            | Gt => Positive
            end)
  | PosInf => Some Positive
  | NegInf => Some Negative
  | NaN => None
  end.

(** [x * y] *)
Definition fmul (x y : double) : double :=
  match x, y with
  | Finite a, Finite b => fl (a * b)
  | _, _ =>
      match sign x, sign y with
      | Some Positive, Some Positive | Some Negative, Some Negative => PosInf
      | Some Positive, Some Negative | Some Negative, Some Positive => NegInf
      | _, _ => NaN
      end
  end.

(** [x / y]; a zero divisor counts as the positive zero. *)
Definition fdiv (x y : double) : double :=
  match x, y with
  | Finite a, Finite b =>
      if Qeq_bool b 0
      then match Qcompare a 0 with
           | Lt => NegInf
           | Eq => NaN
           | Gt => PosInf
           end
      else fl (a / b)
  | Finite _, (PosInf | NegInf) => Finite 0
  | (PosInf | NegInf), Finite b =>
      match sign x, Qle_bool 0 b with
      | Some Positive, true | Some Negative, false => PosInf
      | _, _ => NegInf
      end
  | _, _ => NaN
  end.

(** [x > 0] *)
Definition gt0 (x : double) : bool :=
  match x with
  | Finite q => negb (Qle_bool q 0)
  | PosInf => true
  | _ => false
  end.

(** A number used as a condition: 0 and NaN are falsy. *)
Definition number_truthy (x : double) : bool :=
  match x with
  | Finite q => negb (Qeq_bool q 0)
  | NaN => false
  | _ => true
  end.

(** [Math.round]: the nearest integer, a tie going up; an infinity and NaN
    are returned as they are. *)
Definition Math_round (x : double) : double :=
  match x with
  | Finite q => Finite (inject_Z (Qfloor (q + (1 # 2))))
  | _ => x
  end.

(** ** Members inherited from [Object.prototype]

    An ordinary object (an object literal, a result of [JSON.parse])
    inherits these names: reading [o[k]] for one of them that [o] does not
    own yields the inherited member, a function, or the prototype itself
    for ["__proto__"]. *)
Definition Object_prototype_names : list string :=
  [ "constructor"; "hasOwnProperty"; "isPrototypeOf"; "propertyIsEnumerable";
    "toLocaleString"; "toString"; "valueOf"; "__proto__";
    "__defineGetter__"; "__defineSetter__";
    "__lookupGetter__"; "__lookupSetter__" ].

(** ** Statistics aggregator ([calcStats], [committedPercent],
    [committedRemaining], [domainBreakdown]) *)

Record Stats : Type := mkStats {
  required : double;
  optional : double
}.

(** [typeof v === "number" ? v : 0]: a number of a document is held as the
    rational that its numeral denotes, and is the double nearest to it. *)
Definition number_or_zero (v : option jsval) : double :=
  match v with
  | Some (JNum n) => fl n
  | _ => Finite 0
  end.

Definition calcStats (groupId : GroupId) (data : PlannerData) : Stats :=
  let its := group_items (items data) groupId in
  mkStats
    (fold_left (λ sum item, fadd sum (number_or_zero (requiredPoints item)))
       its (Finite 0))
    (fold_left (λ sum item, fadd sum (number_or_zero (optionalPoints item)))
       its (Finite 0)).

Definition totalPlanningPoints (data : PlannerData) : double :=
  fold_left
    (λ sum s,
       fadd sum
         (fmul (fl (velocity data)) (fdiv (fl (multiplier s)) (Finite 100))))
    (sprints data) (Finite 0).

Definition committedPercent (data : PlannerData) : double :=
  if gt0 (totalPlanningPoints data)
  then Math_round
         (fmul (fdiv (required (calcStats committed data))
                  (totalPlanningPoints data))
            (Finite 100))
  else Finite 0.

Definition committedRemaining (data : PlannerData) : double :=
  Math_round
    (fsub (totalPlanningPoints data) (required (calcStats committed data))).

(** What a property of the record [domains] of [domainBreakdown] holds: a
    number, or a text. A text arises when the name is one that the record
    inherits: [(domains[k] || 0) + points] then appends the points to the
    text of the inherited function. *)
Inductive DomainCell : Type :=
  | Points (p : double)
  | Text.

(** The record [domains]: its own properties in creation order. *)
Definition DomainTable : Type := list (string * DomainCell).

(** [item.domain || "Unassigned"] *)
Definition domain_or_unassigned (item : Item) : string :=
  match domain item with
  | Some s => if decide (s = "") then "Unassigned" else s
  | None => "Unassigned"
  end.

(** [(v || 0) + points] for the value [v] of an own property. *)
Definition cell_add (v : DomainCell) (points : double) : DomainCell :=
  match v with
  | Points p => Points (fadd (if number_truthy p then p else Finite 0) points)
  | Text => Text
  end.

(** [domains[k] = (domains[k] || 0) + points]: an existing property keeps its
    place, a new one is created last. For a name that [domains] inherits and
    does not own, the value read is the inherited member: the sum is a
    text, which the assignment stores as an own property, except under
    ["__proto__"], where assigning a text does nothing. *)
Fixpoint domains_add (k : string) (points : double) (domains : DomainTable)
    : DomainTable :=
  match domains with
  | [] =>
      if decide (k = "__proto__") then []
      else if decide (k ∈ Object_prototype_names) then [(k, Text)]
      else [(k, Points (fadd (Finite 0) points))]
  | (k', v) :: rest =>
      if decide (k' = k) then (k', cell_add v points) :: rest
      else (k', v) :: domains_add k points rest
  end.

(** The [forEach] loop: the state is [(domains, totalPoints)]. *)
Definition domain_step (st : DomainTable * double) (item : Item)
    : DomainTable * double :=
  let points := number_or_zero (requiredPoints item) in
  if gt0 points
  then (domains_add (domain_or_unassigned item) points st.1, fadd st.2 points)
  else st.

Definition is_digit (c : ascii) : bool :=
  let n := nat_of_ascii c in (48 <=? n)%nat && (n <=? 57)%nat.

Definition digit_value (c : ascii) : N := N.of_nat (nat_of_ascii c - 48).

(** The value of a property name that is an array index: a canonical decimal
    numeral below [2^32 - 1]. *)
Definition array_index (k : string) : option N :=
  let cs := String.list_ascii_of_string k in
  match cs with
  | [] => None
  | c :: rest =>
      if forallb is_digit cs && (negb (Ascii.eqb c "0") || bool_decide (rest = []))
      then
        let n := fold_left (λ acc d, (10 * acc + digit_value d)%N) cs 0%N in
        if ((length cs <=? 10)%nat && (n <? 4294967295)%N)%bool
        then Some n else None
      else None
  end.

(** Stable insertion sort: [x] goes before the first [y] with [before x y]. *)
Fixpoint insert_by {A : Type} (before : A → A → bool) (x : A) (l : list A)
    : list A :=
  match l with
  | [] => [x]
  | y :: l' => if before x y then x :: l else y :: insert_by before x l'
  end.

Definition sort_by {A : Type} (before : A → A → bool) (l : list A) : list A :=
  foldr (insert_by before) [] l.

(** [Object.entries]: array-index names first, in ascending numeric order,
    then the other names in creation order. *)
Definition Object_entries {V : Type} (o : list (string * V))
    : list (string * V) :=
  let indexed :=
    omap (λ kv, match array_index kv.1 with
                | Some n => Some (n, kv)
                | None => None
                end) o in
  (snd <$> sort_by (λ a b, (a.1 <=? b.1)%N) indexed) ++
  filter (λ kv, array_index kv.1 = None) o.

Record DomainStat : Type := mkDomainStat {
  ds_name : string;
  ds_points : double;
  ds_percent : double
}.

(** [Array.prototype.sort] is stable; the comparator is
    [(a, b) => b.points - a.points], so [a] stays before [b] unless
    [b.points - a.points > 0]. *)
Definition by_points_desc (a b : DomainStat) : bool :=
  negb (gt0 (fsub (ds_points b) (ds_points a))).

(** The entries of [domains] when each of them holds a number. *)
Definition numeric_entries (domains : DomainTable)
    : option (list (string * double)) :=
  mapM (λ kv, match kv.2 with
              | Points p => Some (kv.1, p)
              | Text => None
              end) (Object_entries domains).

(** The result is [None] when a property of [domains] holds a text: an
    entry then carries that text, which depends on the engine, as its
    points, and beside other entries the comparator answers NaN for some
    pairs, so that the order that [sort] leaves is not determined. *)
Definition domainBreakdown (data : PlannerData) : option (list DomainStat) :=
  let committedItems := group_items (items data) committed in
  let '(domains, totalPoints) :=
    fold_left domain_step committedItems ([], Finite 0) in
  match numeric_entries domains with
  | Some entries =>
      Some
        (sort_by by_points_desc
           ((λ e, mkDomainStat e.1 e.2
                    (if gt0 totalPoints
                     then Math_round (fmul (fdiv e.2 totalPoints) (Finite 100))
                     else Finite 0))
              <$> entries))
  | None => None
  end.

(** ** Objects and their properties *)

(** [o[k]] for an own property. *)
Fixpoint obj_get (k : string) (props : list (string * jsval)) : option jsval :=
  match props with
  | [] => None
  | (k', v) :: rest => if decide (k' = k) then Some v else obj_get k rest
  end.

(** Give an existing property a new value; its place is kept. *)
Fixpoint obj_replace (k : string) (v : jsval) (props : list (string * jsval))
    : list (string * jsval) :=
  match props with
  | [] => []
  | (k', v') :: rest =>
      if decide (k' = k) then (k', v) :: rest
      else (k', v') :: obj_replace k v rest
  end.

(** A new array-index property goes after the smaller indices. *)
Fixpoint obj_insert_index (n : N) (k : string) (v : jsval)
    (props : list (string * jsval)) : list (string * jsval) :=
  match props with
  | [] => [(k, v)]
  | (k', v') :: rest =>
      match array_index k' with
      | Some n' =>
          if (n <? n')%N then (k, v) :: props
          else (k', v') :: obj_insert_index n k v rest
      | None => (k, v) :: props
      end
  end.

(** [o[k] = v] on an ordinary object: an existing property is overwritten,
    a new one is created, last unless its name is an array index. *)
Definition obj_set (k : string) (v : jsval) (props : list (string * jsval))
    : list (string * jsval) :=
  if decide (k ∈ props.*1) then obj_replace k v props
  else
    match array_index k with
    | Some n => obj_insert_index n k v props
    | None => props ++ [(k, v)]
    end.

(** The own enumerable properties that [{ ...source }] copies; [None] is
    [undefined]. A string and an array expose their positions. *)
Definition own_entries (source : option jsval) : list (string * jsval) :=
  match source with
  | Some (JObj props) => props
  | Some (JArr elems) => imap (λ i e, (pretty i, e)) elems
  | Some (JStr s) =>
      imap (λ i c, (pretty i, JStr (String c "")))
        (String.list_ascii_of_string s)
  | _ => []
  end.

(** [{ ...target, ...source }] *)
Definition spread (target : list (string * jsval)) (source : option jsval)
    : list (string * jsval) :=
  fold_left (λ t kv, obj_set kv.1 kv.2 t) (own_entries source) target.

(** ** Documents as runtime values *)

Definition opt_prop (k : string) (v : option jsval) : list (string * jsval) :=
  match v with
  | Some x => [(k, x)]
  | None => []
  end.

Definition SubItem_toJS (s : SubItem) : jsval :=
  JObj [("id", JStr (sub_id s)); ("text", JStr (sub_text s))].

Definition Item_toJS (it : Item) : jsval :=
  JObj ([("id", JStr (item_id it)); ("text", JStr (item_text it));
         ("subItems", JArr (SubItem_toJS <$> subItems it))] ++
        opt_prop "epic" (JStr <$> epic it) ++
        opt_prop "domain" (JStr <$> domain it) ++
        opt_prop "requiredPoints" (requiredPoints it) ++
        opt_prop "optionalPoints" (optionalPoints it)).

Definition Sprint_toJS (s : Sprint) : jsval :=
  JObj [("id", JStr (sprint_id s)); ("name", JStr (sprint_name s));
        ("multiplier", JNum (multiplier s))].

Definition Groups_props (its : Groups) : list (string * jsval) :=
  (λ g, (group_key g, JArr (Item_toJS <$> group_items its g))) <$> all_groups.

Definition PlannerData_props (d : PlannerData) : list (string * jsval) :=
  [("sprints", JArr (Sprint_toJS <$> sprints d));
   ("velocity", JNum (velocity d));
   ("items", JObj (Groups_props (items d)))].

Definition PlannerData_toJS (d : PlannerData) : jsval :=
  JObj (PlannerData_props d).

(** ** The JSON codec of the platform

    [JSON.parse] and [JSON.stringify (v, null, 2)], on the characters of the
    text. A number that is not an integer is written with its decimal
    expansion; magnitudes that JavaScript writes in exponent notation are
    written positionally (the same number). *)

Definition chars (s : string) : list ascii := String.list_ascii_of_string s.

Definition dquote : ascii := "034"%char.
Definition newline : ascii := "010"%char.

Fixpoint chars_of_uint (u : Decimal.uint) : list ascii :=
  match u with
  | Decimal.Nil => []
  | Decimal.D0 u => "0"%char :: chars_of_uint u
  | Decimal.D1 u => "1"%char :: chars_of_uint u
  | Decimal.D2 u => "2"%char :: chars_of_uint u
  | Decimal.D3 u => "3"%char :: chars_of_uint u
  | Decimal.D4 u => "4"%char :: chars_of_uint u
  | Decimal.D5 u => "5"%char :: chars_of_uint u
  | Decimal.D6 u => "6"%char :: chars_of_uint u
  | Decimal.D7 u => "7"%char :: chars_of_uint u
  | Decimal.D8 u => "8"%char :: chars_of_uint u
  | Decimal.D9 u => "9"%char :: chars_of_uint u
  end.

Definition digit_of_char (c : ascii) : option (Decimal.uint → Decimal.uint) :=
  if Ascii.eqb c "0" then Some Decimal.D0
  else if Ascii.eqb c "1" then Some Decimal.D1
  else if Ascii.eqb c "2" then Some Decimal.D2
  else if Ascii.eqb c "3" then Some Decimal.D3
  else if Ascii.eqb c "4" then Some Decimal.D4
  else if Ascii.eqb c "5" then Some Decimal.D5
  else if Ascii.eqb c "6" then Some Decimal.D6
  else if Ascii.eqb c "7" then Some Decimal.D7
  else if Ascii.eqb c "8" then Some Decimal.D8
  else if Ascii.eqb c "9" then Some Decimal.D9
  else None.

(** The longest prefix of decimal digits, and what follows it. *)
Fixpoint scan_uint (s : list ascii) : Decimal.uint * list ascii :=
  match s with
  | [] => (Decimal.Nil, [])
  | c :: r =>
      match digit_of_char c with
      | Some d => let '(u, r') := scan_uint r in (d u, r')
      | None => (Decimal.Nil, s)
      end
  end.

(** *** Writing *)

Definition hex_char (n : N) : ascii :=
  match n with
  | 0 => "0" | 1 => "1" | 2 => "2" | 3 => "3" | 4 => "4" | 5 => "5"
  | 6 => "6" | 7 => "7" | 8 => "8" | 9 => "9" | 10 => "a" | 11 => "b"
  | 12 => "c" | 13 => "d" | 14 => "e" | _ => "f"
  end%N%char.

(** [QuoteJSONString], one character. *)
Definition escape_char (c : ascii) : list ascii :=
  let n := N_of_ascii c in
  if Ascii.eqb c dquote then ["\"%char; dquote]
  else if Ascii.eqb c "\" then ["\"%char; "\"%char]
  else if (n =? 8)%N then ["\"%char; "b"%char]
  else if (n =? 9)%N then ["\"%char; "t"%char]
  else if (n =? 10)%N then ["\"%char; "n"%char]
  else if (n =? 12)%N then ["\"%char; "f"%char]
  else if (n =? 13)%N then ["\"%char; "r"%char]
  else if (n <? 32)%N then
    ["\"%char; "u"%char; "0"%char; "0"%char;
     hex_char (n / 16); hex_char (n mod 16)]
  else [c].

Definition quote (s : string) : list ascii :=
  dquote :: flat_map escape_char (chars s) ++ [dquote].

(** The digits after the decimal point of [r / d], for [r < d]. *)
Fixpoint fraction_digits (fuel : nat) (r : N) (d : positive) : list ascii :=
  match fuel with
  | O => []
  | S fuel' =>
      if (r =? 0)%N then []
      else
        chars_of_uint (N.to_uint (10 * r / Npos d)) ++
        fraction_digits fuel' (10 * r mod Npos d) d
  end.

Definition print_number (q : Q) : list ascii :=
  let a := Z.abs_N (Qnum q) in
  let d := Qden q in
  (if (Qnum q <? 0)%Z then ["-"%char] else []) ++
  chars_of_uint (N.to_uint (a / Npos d)) ++
  (if (a mod Npos d =? 0)%N then []
   else "."%char :: fraction_digits (Pos.size_nat d) (a mod Npos d) d).

Fixpoint join_comma (lines : list (list ascii)) : list ascii :=
  match lines with
  | [] => []
  | [x] => x
  | x :: rest => x ++ ","%char :: join_comma rest
  end.

Definition indent (n : nat) : list ascii := replicate n " "%char.

(** [SerializeJSONProperty] with a gap of two spaces; [ind] is the
    indentation of the enclosing line. *)
Fixpoint print (ind : nat) (v : jsval) : list ascii :=
  match v with
  | JNull => chars "null"
  | JBool true => chars "true"
  | JBool false => chars "false"
  | JNum n => print_number n
  | JStr s => quote s
  | JArr [] => chars "[]"
  | JArr elems =>
      "["%char ::
      join_comma
        (map (λ e, newline :: indent (ind + 2) ++ print (ind + 2) e) elems) ++
      newline :: indent ind ++ ["]"%char]
  | JObj [] => chars "{}"
  | JObj props =>
      "{"%char ::
      join_comma
        (map (λ kv, match kv with
                    | (k, e) =>
                        newline :: indent (ind + 2) ++ quote k ++
                        ":"%char :: " "%char :: print (ind + 2) e
                    end) props) ++
      newline :: indent ind ++ ["}"%char]
  end.

(** [JSON.stringify (v, null, 2)] *)
Definition JSON_stringify (v : jsval) : string :=
  String.string_of_list_ascii (print 0 v).

(** *** Reading *)

Definition is_ws (c : ascii) : bool :=
  Ascii.eqb c " " || Ascii.eqb c "009" || Ascii.eqb c "010" ||
  Ascii.eqb c "013".

Fixpoint skip_ws (s : list ascii) : list ascii :=
  match s with
  | c :: r => if is_ws c then skip_ws r else s
  | [] => []
  end.

Definition hex_value (c : ascii) : option N :=
  let n := N_of_ascii c in
  if ((48 <=? n) && (n <=? 57))%N then Some (n - 48)%N
  else if ((97 <=? n) && (n <=? 102))%N then Some (n - 87)%N
  else if ((65 <=? n) && (n <=? 70))%N then Some (n - 55)%N
  else None.

Definition hex4 (a b c d : ascii) : option N :=
  x1 ← hex_value a; x2 ← hex_value b; x3 ← hex_value c; x4 ← hex_value d;
  Some (((x1 * 16 + x2) * 16 + x3) * 16 + x4)%N.

(** The UTF-8 bytes of a code unit. *)
Definition utf8 (n : N) : list ascii :=
  if (n <? 128)%N then [ascii_of_N n]
  else if (n <? 2048)%N then
    [ascii_of_N (192 + n / 64); ascii_of_N (128 + n mod 64)]
  else
    [ascii_of_N (224 + n / 4096); ascii_of_N (128 + (n / 64) mod 64);
     ascii_of_N (128 + n mod 64)].

Definition unescape (e : ascii) : option ascii :=
  if Ascii.eqb e dquote then Some dquote
  else if Ascii.eqb e "\" then Some "\"%char
  else if Ascii.eqb e "/" then Some "/"%char
  else if Ascii.eqb e "b" then Some "008"%char
  else if Ascii.eqb e "f" then Some "012"%char
  else if Ascii.eqb e "n" then Some "010"%char
  else if Ascii.eqb e "r" then Some "013"%char
  else if Ascii.eqb e "t" then Some "009"%char
  else None.

(** The characters of a string literal after its opening quote, up to the
    closing quote. *)
Fixpoint parse_string_body (s : list ascii) : option (list ascii * list ascii) :=
  match s with
  | [] => None
  | c :: r =>
      if Ascii.eqb c dquote then Some ([], r)
      else if Ascii.eqb c "\" then
        match r with
        | [] => None
        | e :: r1 =>
            if Ascii.eqb e "u" then
              match r1 with
              | h1 :: h2 :: h3 :: h4 :: r2 =>
                  match hex4 h1 h2 h3 h4, parse_string_body r2 with
                  | Some n, Some (body, rest) => Some (utf8 n ++ body, rest)
                  | _, _ => None
                  end
              | _ => None
              end
            else
              match unescape e, parse_string_body r1 with
              | Some x, Some (body, rest) => Some (x :: body, rest)
              | _, _ => None
              end
        end
      else if (N_of_ascii c <? 32)%N then None
      else
        match parse_string_body r with
        | Some (body, rest) => Some (c :: body, rest)
        | None => None
        end
  end.

Definition parse_string (s : list ascii) : option (string * list ascii) :=
  match parse_string_body s with
  | Some (body, rest) => Some (String.string_of_list_ascii body, rest)
  | None => None
  end.

(** [. digits], when present. *)
Definition parse_frac (s : list ascii)
    : option (option Decimal.uint * list ascii) :=
  match s with
  | c :: r =>
      if Ascii.eqb c "." then
        match scan_uint r with
        | (Decimal.Nil, _) => None
        | (u, r') => Some (Some u, r')
        end
      else Some (None, s)
  | [] => Some (None, s)
  end.

(** [e] or [E], a sign and digits, when present. *)
Definition parse_exp (s : list ascii) : option (option Z * list ascii) :=
  match s with
  | c :: r =>
      if Ascii.eqb c "e" || Ascii.eqb c "E" then
        let '(neg, r1) :=
          match r with
          | c1 :: r' =>
              if Ascii.eqb c1 "-" then (true, r')
              else if Ascii.eqb c1 "+" then (false, r')
              else (false, r)
          | [] => (false, r)
          end in
        match scan_uint r1 with
        | (Decimal.Nil, _) => None
        | (u, r2) =>
            let x := Z.of_N (N.of_uint u) in
            Some (Some (if neg then - x else x)%Z, r2)
        end
      else Some (None, s)
  | [] => Some (None, s)
  end.

Definition uint_length (u : Decimal.uint) : nat := length (chars_of_uint u).

(** The number that a literal denotes. *)
Definition number_value (neg : bool) (ui : Decimal.uint)
    (uf : option Decimal.uint) (e : option Z) : Q :=
  let sign (m : Z) := if neg then (- m)%Z else m in
  match uf, e with
  | None, None => inject_Z (sign (Z.of_N (N.of_uint ui)))
  | _, _ =>
      let flen := Z.of_nat (from_option uint_length 0%nat uf) in
      let m := (Z.of_N (N.of_uint ui) * 10 ^ flen +
                Z.of_N (N.of_uint (default Decimal.Nil uf)))%Z in
      let x := (default 0 e - flen)%Z in
      Qred (if (0 <=? x)%Z
            then inject_Z (sign m * 10 ^ x)
            else sign m # Z.to_pos (10 ^ (- x)))
  end.

(** A numeral of several digits that starts with 0 is not a JSON integer. *)
Definition leading_zero (u : Decimal.uint) : bool :=
  match u with
  | Decimal.D0 Decimal.Nil => false
  | Decimal.D0 _ => true
  | _ => false
  end.

(** An optional minus sign. *)
Definition strip_minus (s : list ascii) : bool * list ascii :=
  match s with
  | c :: r => if Ascii.eqb c "-" then (true, r) else (false, s)
  | [] => (false, s)
  end.

Definition parse_number (s : list ascii) : option (Q * list ascii) :=
  let '(neg, s1) := strip_minus s in
  match scan_uint s1 with
  | (Decimal.Nil, _) => None
  | (ui, s2) =>
      if leading_zero ui then None
      else
        match parse_frac s2 with
        | None => None
        | Some (uf, s3) =>
            match parse_exp s3 with
            | None => None
            | Some (e, s4) => Some (number_value neg ui uf e, s4)
            end
        end
  end.

(** A value, then what follows it. [fuel] bounds the depth of the calls; a
    text never needs more than its length. *)
Fixpoint parse_value (fuel : nat) (s : list ascii)
    : option (jsval * list ascii) :=
  match fuel with
  | O => None
  | S fuel' =>
      match skip_ws s with
      | [] => None
      | c :: r =>
          if Ascii.eqb c "{" then
            match skip_ws r with
            | c2 :: r2 =>
                if Ascii.eqb c2 "}" then Some (JObj [], r2)
                else parse_members fuel' r []
            | [] => None
            end
          else if Ascii.eqb c "[" then
            match skip_ws r with
            | c2 :: r2 =>
                if Ascii.eqb c2 "]" then Some (JArr [], r2)
                else parse_elements fuel' r []
            | [] => None
            end
          else if Ascii.eqb c dquote then
            match parse_string r with
            | Some (str, r') => Some (JStr str, r')
            | None => None
            end
          else if Ascii.eqb c "t" then
            match r with
            | c1 :: c2 :: c3 :: r' =>
                if Ascii.eqb c1 "r" && Ascii.eqb c2 "u" && Ascii.eqb c3 "e"
                then Some (JBool true, r') else None
            | _ => None
            end
          else if Ascii.eqb c "f" then
            match r with
            | c1 :: c2 :: c3 :: c4 :: r' =>
                if Ascii.eqb c1 "a" && Ascii.eqb c2 "l" && Ascii.eqb c3 "s" &&
                   Ascii.eqb c4 "e"
                then Some (JBool false, r') else None
            | _ => None
            end
          else if Ascii.eqb c "n" then
            match r with
            | c1 :: c2 :: c3 :: r' =>
                if Ascii.eqb c1 "u" && Ascii.eqb c2 "l" && Ascii.eqb c3 "l"
                then Some (JNull, r') else None
            | _ => None
            end
          else
            match parse_number (c :: r) with
            | Some (n, r') => Some (JNum n, r')
            | None => None
            end
      end
  end
with parse_elements (fuel : nat) (s : list ascii) (acc : list jsval)
    : option (jsval * list ascii) :=
  match fuel with
  | O => None
  | S fuel' =>
      match parse_value fuel' s with
      | None => None
      | Some (v, r) =>
          match skip_ws r with
          | c :: r' =>
              if Ascii.eqb c ","
              then parse_elements fuel' r' (acc ++ [v])
              else if Ascii.eqb c "]"
              then Some (JArr (acc ++ [v]), r')
              else None
          | [] => None
          end
      end
  end
with parse_members (fuel : nat) (s : list ascii)
    (acc : list (string * jsval)) : option (jsval * list ascii) :=
  match fuel with
  | O => None
  | S fuel' =>
      match skip_ws s with
      | c :: r =>
          if Ascii.eqb c dquote then
            match parse_string r with
            | Some (k, r1) =>
                match skip_ws r1 with
                | c1 :: r2 =>
                    if Ascii.eqb c1 ":" then
                      match parse_value fuel' r2 with
                      | Some (v, r3) =>
                          match skip_ws r3 with
                          | c3 :: r4 =>
                              if Ascii.eqb c3 ","
                              then parse_members fuel' r4 (obj_set k v acc)
                              else if Ascii.eqb c3 "}"
                              then Some (JObj (obj_set k v acc), r4)
                              else None
                          | [] => None
                          end
                      | None => None
                      end
                    else None
                | [] => None
                end
            | None => None
            end
          else None
      | [] => None
      end
  end.

(** [JSON.parse]; [None] is a thrown [SyntaxError]. *)
Definition JSON_parse (text : string) : option jsval :=
  let s := chars text in
  match parse_value (S (length s)) s with
  | Some (v, r) =>
      match skip_ws r with
      | [] => Some v
      | _ :: _ => None
      end
  | None => None
  end.

(** ** Planner document store ([loadFromStorage], [handleImportData])

    At run time the document is whatever value the merge produced, so the
    state of the store is a [jsval]; [PlannerData_toJS] gives the value of a
    typed document. *)

(** [parsed.items]: [None] when the access throws a [TypeError] (on
    [null]), [Some None] when the result is [undefined]. *)
Definition get_items (parsed : jsval) : option (option jsval) :=
  match parsed with
  | JNull => None
  | JObj props => Some (obj_get "items" props)
  | _ => Some None
  end.

(** [{ ...DEFAULT_DATA, ...parsed,
       items: { ...DEFAULT_DATA.items, ...parsed.items } }];
    [None] when building it throws. *)
Definition merge_with_defaults (parsed : jsval) : option jsval :=
  let top := spread (spread [] (Some (PlannerData_toJS DEFAULT_DATA)))
               (Some parsed) in
  match get_items parsed with
  | None => None
  | Some parsed_items =>
      Some (JObj
              (obj_set "items"
                 (JObj (spread
                          (spread []
                             (Some (JObj (Groups_props (items DEFAULT_DATA)))))
                          parsed_items))
                 top))
  end.

(** [saved] is what [localStorage.getItem] returned, [None] for [null] or
    for a read that threw. *)
Definition loadFromStorage (saved : option string) : jsval :=
  match saved with
  | Some text =>
      if decide (text = "") then PlannerData_toJS DEFAULT_DATA
      else
        match JSON_parse text with
        | Some parsed =>
            match merge_with_defaults parsed with
            | Some data => data
            | None => PlannerData_toJS DEFAULT_DATA
            end
        | None => PlannerData_toJS DEFAULT_DATA
        end
  | None => PlannerData_toJS DEFAULT_DATA
  end.

(** The document after [handleImportData (jsonString)]: the [catch] leaves
    it as it was. *)
Definition handleImportData (jsonString : string) (prev : jsval) : jsval :=
  match JSON_parse jsonString with
  | Some imported =>
      match merge_with_defaults imported with
      | Some newData => newData
      | None => prev
      end
  | None => prev
  end.


(** ** Import/export modal ([handleImport]) *)

Record ModalState : Type := mkModalState {
  importText : string;
  error : option string;
  isOpen : bool
}.

(** [!text.trim()]: the text holds only white space and line terminators
    (read off its UTF-8 bytes). *)
Fixpoint is_blank_chars (s : list ascii) : bool :=
  match s with
  | [] => true
  | c :: r =>
      let n := N_of_ascii c in
      if ((9 <=? n) && (n <=? 13) || (n =? 32))%N then is_blank_chars r
      else
        match r with
        | c2 :: r2 =>
            let n2 := N_of_ascii c2 in
            if ((n =? 194) && (n2 =? 160))%N then is_blank_chars r2
            else
              match r2 with
              | c3 :: r3 =>
                  let n3 := N_of_ascii c3 in
                  if ((n =? 225) && (n2 =? 154) && (n3 =? 128) ||
                      (n =? 226) && (n2 =? 128) &&
                        ((128 <=? n3) && (n3 <=? 138) || (n3 =? 168) ||
                         (n3 =? 169) || (n3 =? 175)) ||
                      (n =? 226) && (n2 =? 129) && (n3 =? 159) ||
                      (n =? 227) && (n2 =? 128) && (n3 =? 128) ||
                      (n =? 239) && (n2 =? 187) && (n3 =? 191))%N
                  then is_blank_chars r3
                  else false
              | [] => false
              end
        | [] => false
        end
  end.

Definition is_blank (text : string) : bool := is_blank_chars (chars text).

(** The modal and the document after a click on the import button. *)
Definition handleImport (m : ModalState) (data : jsval)
    : ModalState * jsval :=
  if is_blank (importText m) then
    (mkModalState (importText m) (Some "Please paste JSON data to import")
       (isOpen m), data)
  else
    match JSON_parse (importText m) with
    | Some _ =>
        (mkModalState "" None false, handleImportData (importText m) data)
    | None =>
        (mkModalState (importText m)
           (Some "Invalid JSON format. Please check your data.") (isOpen m),
         data)
    end.

(** ** Sprint table ([SprintTable]) *)

(** [Math.max (a, b)] *)
Definition Math_max (a b : Q) : Q := if Qle_bool a b then b else a.

(** [newId] is the result of the call of [generateId]. *)
Definition addSprint (newId : string) (sprints : list Sprint) : list Sprint :=
  let newSprint :=
    mkSprint newId ("S" ++ pretty (length sprints + 1)%nat)
      (match last sprints with
       | Some s => Math_max 40 (multiplier s - 10)
       | None => 100
       end) in
  sprints ++ [newSprint].

(** The two uses of [updateSprint (id, field, value)] in the table: the
    field ["name"] with the text of its input, the field ["multiplier"] with
    a number. *)
Inductive SprintField : Type :=
  | name_field (value : string)
  | multiplier_field (value : Q).

Definition updateSprint (id : string) (field : SprintField)
    (sprints : list Sprint) : list Sprint :=
  (λ s, if decide (sprint_id s = id)
        then match field with
             | name_field value => mkSprint (sprint_id s) value (multiplier s)
             | multiplier_field value =>
                 mkSprint (sprint_id s) (sprint_name s) value
             end
        else s) <$> sprints.

Definition removeSprint (id : string) (sprints : list Sprint) : list Sprint :=
  filter (λ s, sprint_id s ≠ id) sprints.

(** [setData (prev => ({ ...prev, sprints }))] and
    [setData (prev => ({ ...prev, velocity }))] *)
Definition onSprintsChange (new_sprints : list Sprint) (prev : PlannerData)
    : PlannerData :=
  mkPlannerData new_sprints (velocity prev) (items prev).

Definition onVelocityChange (new_velocity : Q) (prev : PlannerData)
    : PlannerData :=
  mkPlannerData (sprints prev) new_velocity (items prev).

(** ** Writing to the store ([saveToStorage], [saveDomainColors]) *)

(** [SerializeJSONProperty] with no gap. *)
Fixpoint print_compact (v : jsval) : list ascii :=
  match v with
  | JNull => chars "null"
  | JBool true => chars "true"
  | JBool false => chars "false"
  | JNum n => print_number n
  | JStr s => quote s
  | JArr elems => "["%char :: join_comma (map print_compact elems) ++ ["]"%char]
  | JObj props =>
      "{"%char ::
      join_comma
        (map (λ kv, match kv with
                    | (k, e) => quote k ++ ":"%char :: print_compact e
                    end) props) ++
      ["}"%char]
  end.

(** [JSON.stringify (v)] *)
Definition JSON_stringify_compact (v : jsval) : string :=
  String.string_of_list_ascii (print_compact v).

(** The text that [saveToStorage (data)] hands to [localStorage.setItem]
    under the key of the document. *)
Definition saveToStorage (data : jsval) : string :=
  JSON_stringify_compact data.

(** ** Domain colours ([getNextColor], [getDomainColor], [syncDomainColors])

    [domainColorsCache] is an ordinary object; the functions receive it and
    return it, together with the text they hand to [localStorage.setItem]
    when they save it. *)

Definition ROYGBIV_COLORS : list string :=
  [ "#ef4444"; "#f97316"; "#eab308"; "#22c55e"; "#3b82f6";
    "#6366f1"; "#8b5cf6"; "#ec4899"; "#14b8a6"; "#f59e0b" ].

(** What [loadDomainColors] returns when nothing usable is stored. *)
Definition default_domain_colors : list (string * jsval) :=
  [("Unassigned", JStr "#94a3b8")].

(** A value used as a condition. *)
Definition truthy (v : jsval) : bool :=
  match v with
  | JNull => false
  | JBool b => b
  | JNum n => number_truthy (fl n)
  | JStr s => negb (String.eqb s "")
  | JArr _ => true
  | JObj _ => true
  end.

(** [saved] is what [localStorage.getItem] returned, [None] for [null] or
    for a read that threw. *)
Definition loadDomainColors (saved : option string) : jsval :=
  match saved with
  | Some text =>
      if decide (text = "") then JObj default_domain_colors
      else
        match JSON_parse text with
        | Some parsed => parsed
        | None => JObj default_domain_colors
        end
  | None => JObj default_domain_colors
  end.

(** The text that [saveDomainColors (colors)] hands to
    [localStorage.setItem]. *)
Definition saveDomainColors (colors : list (string * jsval)) : string :=
  JSON_stringify_compact (JObj colors).

(** [usedColors.has (color)] for [usedColors = new Set (Object.values (o))] *)
Definition color_used (color : string) (o : list (string * jsval)) : bool :=
  existsb (λ v, match v with
                | JStr s => String.eqb s color
                | _ => false
                end) o.*2.

(** The index of the last line is below the length of the palette, so the
    access never yields [undefined]. *)
Definition getNextColor (existingColors : list (string * jsval)) : string :=
  match list_find (λ color, color_used color existingColors = false)
          ROYGBIV_COLORS with
  | Some (_, color) => color
  | None =>
      let index := (length existingColors `mod` length ROYGBIV_COLORS)%nat in
      default "" (ROYGBIV_COLORS !! index)
  end.

(** What reading a property yields besides [undefined]: a value of the
    kinds that JSON has, or a member inherited from [Object.prototype],
    given by its name. *)
Inductive value : Type :=
  | Plain (v : jsval)
  | Builtin (name : string).

(** [o[k]]: an own property first, then an inherited member; [None] is
    [undefined]. *)
Definition obj_read (k : string) (o : list (string * jsval)) : option value :=
  match obj_get k o with
  | Some v => Some (Plain v)
  | None =>
      if decide (k ∈ Object_prototype_names) then Some (Builtin k) else None
  end.

(** An inherited member is a function or an object, which is truthy. *)
Definition value_truthy (v : value) : bool :=
  match v with
  | Plain v => truthy v
  | Builtin _ => true
  end.

(** [o[k]] used as a condition. *)
Definition has_truthy (k : string) (o : list (string * jsval)) : bool :=
  match obj_read k o with
  | Some v => value_truthy v
  | None => false
  end.

(** The outcome of a call of [getDomainColor]: the colour returned, the
    cache afterwards, and the text saved, if the call saves. *)
Record ColorLookup : Type := mkColorLookup {
  color : value;
  cache_after : list (string * jsval);
  saved_text : option string
}.

(** The assignment [domainColorsCache[domain] = newColor] is reached only
    when the value read is falsy, so never for a name that the cache
    inherits and does not own. *)
Definition getDomainColor (domain : string) (cache : list (string * jsval))
    : ColorLookup :=
  let assign :=
    let newColor := getNextColor cache in
    let cache' := obj_set domain (JStr newColor) cache in
    mkColorLookup (Plain (JStr newColor)) cache'
      (Some (saveDomainColors cache')) in
  match obj_read domain cache with
  | Some v => if value_truthy v then mkColorLookup v cache None else assign
  | None => assign
  end.

(** [allDomains.add (domain)]: a set keeps the order of first insertion. *)
Definition Set_add (x : string) (s : list string) : list string :=
  if decide (x ∈ s) then s else s ++ [x].

(** The set [allDomains] of [syncDomainColors]. *)
Definition allDomains (data : PlannerData) : list string :=
  fold_left
    (λ s item,
       match domain item with
       | Some d => if decide (d = "") then s else Set_add d s
       | None => s
       end)
    (all_items (items data)) [].

(** The body of [allDomains.forEach]: the state is [(cache, updated)]. *)
Definition sync_step (st : list (string * jsval) * bool) (d : string)
    : list (string * jsval) * bool :=
  if has_truthy d st.1 then st
  else (obj_set d (JStr (getNextColor st.1)) st.1, true).

(** The cache after [syncDomainColors (data)], and the text saved, if the
    call saves. *)
Definition syncDomainColors (data : PlannerData)
    (cache : list (string * jsval))
    : list (string * jsval) * option string :=
  let '(cache', updated) := fold_left sync_step (allDomains data) (cache, false) in
  (cache', if updated then Some (saveDomainColors cache') else None).

(** ** Sub-item editing ([DraggableItem])

    A handler of the component is given by the calls [onUpdate (item.id, u)]
    it makes, in order; [item] is the item the component was rendered with,
    [inlineText] and [inlineSubText] the texts of its inputs, and [newSubId]
    the result of the call of [generateId]. *)

Record KeyboardEvent : Type := mkKeyboardEvent {
  key : string;
  shiftKey : bool
}.

(** [{ text }] and [{ subItems }] *)
Definition text_update (text : string) : ItemUpdates :=
  mkItemUpdates None (Some text) None None None None None.

Definition subItems_update (subs : list SubItem) : ItemUpdates :=
  mkItemUpdates None None (Some subs) None None None None.

(** [subs.map (s => s.id === subId ? { ...s, text } : s)] *)
Definition set_sub_text (subId text : string) (subs : list SubItem)
    : list SubItem :=
  (λ s, if decide (sub_id s = subId) then mkSubItem (sub_id s) text else s)
    <$> subs.

(** [subs.findIndex (s => s.id === subId)] *)
Definition sub_findIndex (subId : string) (subs : list SubItem) : Z :=
  match list_find (λ s, sub_id s = subId) subs with
  | Some (k, _) => Z.of_nat k
  | None => (-1)%Z
  end.

(** [if (inlineText !== item.text) onUpdate (item.id, { text: inlineText })] *)
Definition handleInlineTextSave (item : Item) (inlineText : string)
    : list ItemUpdates :=
  if decide (inlineText ≠ item_text item) then [text_update inlineText]
  else [].

Definition addInlineSubItem (newSubId : string) (item : Item)
    : list ItemUpdates :=
  [subItems_update (subItems item ++ [mkSubItem newSubId ""])].

Definition handleInlineTextKeyDown (e : KeyboardEvent) (newSubId : string)
    (item : Item) (inlineText : string) : list ItemUpdates :=
  if decide (key e = "Enter") then
    if shiftKey e
    then handleInlineTextSave item inlineText ++ addInlineSubItem newSubId item
    else handleInlineTextSave item inlineText
  else if decide (key e = "Escape") then []
  else if decide (key e = "Tab") then handleInlineTextSave item inlineText
  else [].

Definition handleSubItemSave (subId : string) (item : Item)
    (inlineSubText : string) : list ItemUpdates :=
  [subItems_update (set_sub_text subId inlineSubText (subItems item))].

(** [updatedSubItems.splice (currentIndex + 1, 0, sub)]: a start beyond the
    end is the end. *)
Definition splice_sub (k : nat) (sub : SubItem) (subs : list SubItem)
    : list SubItem :=
  take k subs ++ sub :: drop k subs.

Definition handleSubItemKeyDown (e : KeyboardEvent) (subId newSubId : string)
    (item : Item) (inlineSubText : string) : list ItemUpdates :=
  if decide (key e = "Enter") then
    if shiftKey e then
      let currentIndex := sub_findIndex subId (subItems item) in
      let updatedSubItems :=
        set_sub_text subId inlineSubText (subItems item) in
      [subItems_update
         (splice_sub (Z.to_nat (currentIndex + 1)) (mkSubItem newSubId "")
            updatedSubItems)]
    else handleSubItemSave subId item inlineSubText
  else if decide (key e = "Escape") then []
  else if decide (key e = "Tab") then
    [subItems_update (set_sub_text subId inlineSubText (subItems item))]
  else if decide (key e = "Backspace" ∧ inlineSubText = "") then
    [subItems_update (filter (λ s, sub_id s ≠ subId) (subItems item))]
  else [].

(** The document after the calls [onUpdate (item.id, u)] of a handler of the
    item [item] of the group [groupId]: [onUpdate] is
    [handleUpdateItem (groupId)], and the state updates apply in order. *)
Definition apply_updates (groupId : GroupId) (item : Item)
    (calls : list ItemUpdates) (prev : PlannerData) : PlannerData :=
  fold_left (λ d u, handleUpdateItem groupId (item_id item) u d) calls prev.

(** The sub-item buttons of the edit form, on its state [editData]. *)
Definition addSubItem (newSubId : string) (editData : Item) : Item :=
  mkItem (item_id editData) (item_text editData)
    (subItems editData ++ [mkSubItem newSubId ""])
    (epic editData) (domain editData) (requiredPoints editData)
    (optionalPoints editData).

Definition updateSubItem (subId text : string) (editData : Item) : Item :=
  mkItem (item_id editData) (item_text editData)
    (set_sub_text subId text (subItems editData))
    (epic editData) (domain editData) (requiredPoints editData)
    (optionalPoints editData).

Definition removeSubItem (subId : string) (editData : Item) : Item :=
  mkItem (item_id editData) (item_text editData)
    (filter (λ s, sub_id s ≠ subId) (subItems editData))
    (epic editData) (domain editData) (requiredPoints editData)
    (optionalPoints editData).

(** ** Clipboard export of a group ([formatItemsForExport] of
    [DroppableGroup]) *)

Definition tab : ascii := "009"%char.

Definition letters : string := "abcdefghijklmnopqrstuvwxyz".

(** [parts.join (sep)] *)
Fixpoint join (sep : string) (parts : list string) : string :=
  match parts with
  | [] => ""
  | [x] => x
  | x :: rest => (x ++ sep ++ join sep rest)%string
  end.

(** A string used as a condition; [None] is [undefined]. *)
Definition nonempty (s : option string) : bool :=
  match s with
  | Some x => negb (String.eqb x "")
  | None => false
  end.

(** [letters[subIdx] || String (subIdx + 1)] *)
Definition sub_label (subIdx : nat) : string :=
  match String.get subIdx letters with
  | Some c => String c ""
  | None => pretty (subIdx + 1)%nat
  end.

(** The lines of one item: its main line, then one line for each sub-item
    that has a text. *)
Definition format_item (idx : nat) (item : Item) : string :=
  let num := (idx + 1)%nat in
  let mainLine0 := (pretty num ++ ".")%string in
  let mainLine1 :=
    if nonempty (domain item)
    then (mainLine0 ++ " [" ++ default "" (domain item) ++ "]")%string
    else mainLine0 in
  let mainLine2 :=
    if nonempty (Some (item_text item))
    then
      if nonempty (domain item)
      then (mainLine1 ++ " - " ++ item_text item)%string
      else (mainLine1 ++ " " ++ item_text item)%string
    else mainLine1 in
  let mainLine3 :=
    if nonempty (epic item)
    then (mainLine2 ++ " (" ++ default "" (epic item) ++ ")")%string
    else mainLine2 in
  let subLines :=
    mjoin
      (imap (λ subIdx sub,
               if nonempty (Some (sub_text sub))
               then [String tab (sub_label subIdx ++ ". " ++ sub_text sub)%string]
               else [])
         (subItems item)) in
  join (String newline "") (mainLine3 :: subLines).

Definition formatItemsForExport (its : list Item) : string :=
  join (String newline "")
    (filter (λ s, s ≠ "") (imap format_item its)).

(** ** Specification vocabulary *)

(** [l'] is [l] with the elements at positions [i] and [j] exchanged. *)
Definition swapped (l l' : list Item) (i j : nat) : Prop :=
  length l' = length l ∧ l' !! i = l !! j ∧ l' !! j = l !! i ∧
  ∀ k, k ≠ i → k ≠ j → l' !! k = l !! k.




(** The value of a float of the reference specification of IEEE 754
    arithmetic ([SpecFloat], binary64: a precision of 53 bits and a largest
    exponent of 1024). *)
Definition of_spec_float (f : spec_float) : double :=
  match f with
  | S754_zero _ => Finite 0
  | S754_infinity false => PosInf
  | S754_infinity true => NegInf
  | S754_nan => NaN
  | S754_finite s m e =>
      Finite (Qred ((if s then -1 else 1) * (inject_Z (Z.pos m) * pow2 e)))
  end.

Definition spec_of_Z (n : Z) : spec_float := binary_normalize 53 1024 n 0 false.

Definition spec_ratio (a b : Z) : spec_float :=
  SFdiv 53 1024 (spec_of_Z a) (spec_of_Z b).

(** Sample floats: integers, fractions that are not doubles, the smallest
    and the largest doubles, the infinities and NaN. *)
Definition sample_floats : list spec_float :=
  [ S754_zero false; spec_of_Z 1; spec_of_Z 25; spec_of_Z 100;
    spec_of_Z (-7); spec_of_Z (2 ^ 53 + 1);
    spec_ratio 1 10; spec_ratio 2 10; spec_ratio 1 3; spec_ratio 58 100;
    spec_ratio 23 40; spec_ratio (-22) 7; spec_ratio 1479 10;
    S754_finite false 1 (-1074); S754_finite false 3 (-1074);
    S754_finite true 4503599627370495 (-1074);
    S754_finite false 9007199254740991 971;
    S754_finite true 9007199254740991 971;
    S754_finite false 6004799503160661 970;
    S754_finite false 4503599627370497 (-600);
    S754_infinity false; S754_infinity true; S754_nan ].

Definition all_pairs {A : Type} (l : list A) : list (A * A) :=
  x ← l; y ← l; [(x, y)].

(** The capacity of a sprint schedule as the specification words it, in
    exact arithmetic: the sum over the sprints of
    [velocity * multiplier / 100]. *)
Definition totalCapacity (sprints : list Sprint) (velocity : Q) : Q :=
  foldr (λ s acc, velocity * multiplier s / 100 + acc) 0 sprints.

(** The capacity that one sprint adds: [velocity * (multiplier / 100)]. *)
Definition sprint_capacity (velocity : Q) (s : Sprint) : double :=
  fmul (fl velocity) (fdiv (fl (multiplier s)) (Finite 100)).

(** The sum of a sequence of doubles, added one after the other from the
    left, starting from 0. *)
Definition sum_left (l : list double) : double :=
  fold_left fadd l (Finite 0).

(** [r] is [x] rounded to the nearest integer, a half going up: the integer
    [z] with [z - 1/2 <= x < z + 1/2]. An infinity and NaN have no nearest
    integer and are their own rounding. *)
Definition rounds_to (x r : double) : Prop :=
  match x with
  | Finite q =>
      ∃ z : Z, r = Finite (inject_Z z) ∧
               inject_Z z - (1 # 2) <= q ∧ q < inject_Z z + (1 # 2)
  | _ => r = x
  end.

Definition is_finite (x : double) : Prop := ∃ q, x = Finite q.

(** A point value that counts as a whole number of points: a number that is
    a non-negative integer, or a value that is not a number (it counts as
    0). *)
Definition whole_points (v : option jsval) : Prop :=
  match v with
  | Some (JNum n) => 0 <= n ∧ n == inject_Z (Qfloor n)
  | _ => True
  end.

(** The points that a point value counts as, when they are whole. *)
Definition points_Z (v : option jsval) : Z :=
  match v with
  | Some (JNum n) => Qfloor n
  | _ => 0%Z
  end.

(** The whole points of a sequence of items, read through [f]. *)
Definition total_Z (f : Item → option jsval) (l : list Item) : Z :=
  foldr (λ it acc, (points_Z (f it) + acc)%Z) 0%Z l.

(** The whole required points of the items filed under the domain
    [name]. *)
Definition domainPoints (name : string) (l : list Item) : Z :=
  foldr (λ it acc,
           if decide (domain_or_unassigned it = name)
           then (points_Z (requiredPoints it) + acc)%Z else acc) 0%Z l.

(** A table of whole points by domain, in the order in which the domains
    were met, and the record [domains] that holds these points. *)
Definition PointTable : Type := list (string * Z).

Definition table_cells (t : PointTable) : DomainTable :=
  (λ kv, (kv.1, Points (Finite (inject_Z kv.2)))) <$> t.

(** Add points under a name: to the entry of the name, or as a new last
    entry. *)
Fixpoint points_add (k : string) (points : Z) (t : PointTable) : PointTable :=
  match t with
  | [] => [(k, points)]
  | (k', v) :: rest =>
      if decide (k' = k) then (k', (v + points)%Z) :: rest
      else (k', v) :: points_add k points rest
  end.

Definition table_sum (t : PointTable) : Z :=
  foldr (λ kv acc, (kv.2 + acc)%Z) 0%Z t.

(** What the [forEach] loop of [domainBreakdown] has built after the items
    [p], when their required points are whole: one entry per domain of an
    item with positive points, holding the points of that domain. *)
Record table_inv (p : list Item) (t : PointTable) : Prop := {
  inv_nodup : NoDup t.*1;
  inv_points : Forall (λ kv, kv.2 = domainPoints kv.1 p ∧ (0 < kv.2)%Z) t;
  inv_keys : ∀ k, k ∈ t.*1 ↔
    ∃ it, it ∈ p ∧ (0 < points_Z (requiredPoints it))%Z ∧
          domain_or_unassigned it = k;
  inv_sum : table_sum t = total_Z requiredPoints p
}.

(** The percentage of [points] out of [total]:
    [(points / total) * 100], before it is rounded. *)
Definition percent_of (points total : double) : double :=
  fmul (fdiv points total) (Finite 100).

(** The entry of the breakdown for a domain with whole points, out of a
    whole total. *)
Definition whole_entry (total : Z) (kv : string * Z) : DomainStat :=
  mkDomainStat kv.1 (Finite (inject_Z kv.2))
    (Math_round
       (percent_of (Finite (inject_Z kv.2)) (Finite (inject_Z total)))).

(** [a] stays before [b]: it has at least as many points. *)
Definition more_points (a b : string * Z) : bool := (b.2 <=? a.2)%Z.

(** The value that [entries] give to the name [k], a later entry overriding
    an earlier one. *)
Definition last_entry (k : string) (entries : list (string * jsval))
    : option jsval :=
  obj_get k (reverse entries).

(** [result] is [parsed] merged over the defaults, field by field and group
    by group: a property of [parsed] wins over the default of the same name,
    and the groups of [parsed.items] win over the empty default groups. *)
Definition merged_over_defaults (parsed result : jsval) : Prop :=
  ∃ props its parsed_items,
    result = JObj props ∧
    get_items parsed = Some parsed_items ∧
    obj_get "items" props = Some (JObj its) ∧
    (∀ k, k ≠ "items" →
       obj_get k props =
         match last_entry k (own_entries (Some parsed)) with
         | Some x => Some x
         | None => obj_get k (PlannerData_props DEFAULT_DATA)
         end) ∧
    (∀ k, obj_get k its =
            match last_entry k (own_entries parsed_items) with
            | Some x => Some x
            | None => obj_get k (Groups_props (items DEFAULT_DATA))
            end).

(** Every top-level field and every group key is there. *)
Definition populated (data : jsval) : Prop :=
  ∃ props its,
    data = JObj props ∧
    is_Some (obj_get "sprints" props) ∧
    is_Some (obj_get "velocity" props) ∧
    obj_get "items" props = Some (JObj its) ∧
    ∀ g, is_Some (obj_get (group_key g) its).

(** The values that hold integers only and whose objects have distinct
    names, none of them an array index. *)
Fixpoint plain (v : jsval) : bool :=
  match v with
  | JNum n => bool_decide (Qden n = 1%positive)
  | JArr elems => forallb plain elems
  | JObj props =>
      bool_decide (NoDup props.*1) &&
      forallb (λ kv, match kv with
                     | (k, e) => bool_decide (array_index k = None) && plain e
                     end) props
  | _ => true
  end.




(** The characters a written value can start with. *)
Definition value_start (c : ascii) : bool :=
  Ascii.eqb c "{" || Ascii.eqb c "[" || Ascii.eqb c dquote ||
  Ascii.eqb c "t" || Ascii.eqb c "f" || Ascii.eqb c "n" ||
  Ascii.eqb c "-" || is_digit c.

Definition number_start (c : ascii) : bool :=
  Ascii.eqb c "-" || is_digit c.

(** The fuel that reading a value back takes. *)
Fixpoint need (v : jsval) : nat :=
  match v with
  | JArr elems => S (foldr (λ e r, S (Nat.max (need e) r)) 0%nat elems)
  | JObj props =>
      S (foldr (λ kv r, match kv with
                        | (_, e) => S (Nat.max (need e) r)
                        end) 0%nat props)
  | _ => 1%nat
  end.




(** The drag-end resolutions that relocate the dragged item from the group
    [src] to another group [dst]: a drop on the zone of [dst], or a drop on
    an item that was rendered in [dst]. *)
Inductive cross_group_drop (event : DragEndEvent) (src dst : GroupId) : Prop :=
  | drop_on_zone (ov : Over) :
      over event = Some ov →
      active_id (active event) ≠ over_id ov →
      dd_groupId (active_data (active event)) = src →
      as_GroupId (over_id ov) = Some dst →
      src ≠ dst →
      cross_group_drop event src dst
  | drop_on_item (ov : Over) (overData : DragData) :
      over event = Some ov →
      active_id (active event) ≠ over_id ov →
      dd_groupId (active_data (active event)) = src →
      as_GroupId (over_id ov) = None →
      over_data ov = Some overData →
      dd_groupId overData = dst →
      src ≠ dst →
      cross_group_drop event src dst.

(** One step of [parse_value], with the readers of array elements and of
    object members as parameters. *)
Definition parse_value_body
    (elements : list ascii → list jsval → option (jsval * list ascii))
    (members : list ascii → list (string * jsval) →
               option (jsval * list ascii))
    (s : list ascii) : option (jsval * list ascii) :=
  match skip_ws s with
  | [] => None
  | c :: r =>
      if Ascii.eqb c "{" then
        match skip_ws r with
        | c2 :: r2 =>
            if Ascii.eqb c2 "}" then Some (JObj [], r2) else members r []
        | [] => None
        end
      else if Ascii.eqb c "[" then
        match skip_ws r with
        | c2 :: r2 =>
            if Ascii.eqb c2 "]" then Some (JArr [], r2) else elements r []
        | [] => None
        end
      else if Ascii.eqb c dquote then
        match parse_string r with
        | Some (str, r') => Some (JStr str, r')
        | None => None
        end
      else if Ascii.eqb c "t" then
        match r with
        | c1 :: c2 :: c3 :: r' =>
            if Ascii.eqb c1 "r" && Ascii.eqb c2 "u" && Ascii.eqb c3 "e"
            then Some (JBool true, r') else None
        | _ => None
        end
      else if Ascii.eqb c "f" then
        match r with
        | c1 :: c2 :: c3 :: c4 :: r' =>
            if Ascii.eqb c1 "a" && Ascii.eqb c2 "l" && Ascii.eqb c3 "s" &&
               Ascii.eqb c4 "e"
            then Some (JBool false, r') else None
        | _ => None
        end
      else if Ascii.eqb c "n" then
        match r with
        | c1 :: c2 :: c3 :: r' =>
            if Ascii.eqb c1 "u" && Ascii.eqb c2 "l" && Ascii.eqb c3 "l"
            then Some (JNull, r') else None
        | _ => None
        end
      else
        match parse_number (c :: r) with
        | Some (n, r') => Some (JNum n, r')
        | None => None
        end
  end.

(** A successful reading consumes characters, and succeeds alike with any
    fuel that is at least their number. *)
Definition fuel_free {X : Type}
    (reader : nat → list ascii → X → option (jsval * list ascii))
    (fuel : nat) : Prop :=
  ∀ s x v r,
    reader fuel s x = Some (v, r) →
    (length r < length s)%nat ∧
    ∀ fuel', (length s - length r ≤ fuel')%nat → reader fuel' s x = Some (v, r).

(** ** Sample documents *)

Definition sample_item (i : string) (dom : option string)
    (req opt : option jsval) : Item :=
  mkItem i i [] None dom req opt.

(** A committed item of 5 points whose domain is a name that every object
    inherits. *)
Definition inherited_domain_data (name : string) : PlannerData :=
  with_items
    (set_group committed
       [sample_item "a" (Some name) (Some (JNum 5)) None]
       empty_groups)
    DEFAULT_DATA.

(** A velocity of 25 and one sprint at 58 percent. *)
Definition quarter_data : PlannerData :=
  mkPlannerData [mkSprint "s1" "S1" 58] 25 empty_groups.

(** A capacity of 40 with 23 committed points. *)
Definition half_percent_data : PlannerData :=
  mkPlannerData [mkSprint "s1" "S1" 100] 40
    (set_group committed [sample_item "a" None (Some (JNum 23)) None]
       empty_groups).

(** The default schedule with one committed item of 200 required points. *)
Definition overcommitted_data : PlannerData :=
  with_items
    (set_group committed [sample_item "a" None (Some (JNum 200)) None]
       empty_groups)
    DEFAULT_DATA.

(** Two staged and three committed items, with point values of several
    kinds. *)
Definition sample_data : PlannerData :=
  with_items
    (set_group staging
       [sample_item "a" (Some "api") (Some (JNum 3)) (Some (JStr ""));
        sample_item "b" None (Some (JStr "5")) None]
       (set_group committed
          [sample_item "c" (Some "api") (Some (JNum 8)) (Some (JNum 2));
           sample_item "d" (Some "") (Some (JStr "5")) (Some JNull);
           sample_item "e" (Some "ui") (Some (JNum 13)) (Some (JStr ""))]
          empty_groups))
    DEFAULT_DATA.


(** Item "a", dragged out of staging and dropped on the committed item "d". *)
Definition sample_drop : DragEndEvent :=
  mkDragEndEvent
    (mkActive "a"
       (mkDragData (sample_item "a" (Some "api") (Some (JNum 3)) (Some (JStr "")))
          staging))
    (Some (mkOver "d"
             (Some (mkDragData
                      (sample_item "d" (Some "") (Some (JStr "5")) (Some JNull))
                      committed)))).

(** The scenarios of the specification: a capacity of 100 with committed
    items of 10 and of 20 + 5 points; item "A" staged and four committed
    items, "B" at index 2. *)
Definition scenario_stats_data : PlannerData :=
  mkPlannerData [mkSprint "s1" "S1" 100] 100
    (set_group committed
       [sample_item "x" None (Some (JNum 10)) None;
        sample_item "y" None (Some (JNum 20)) (Some (JNum 5))]
       empty_groups).

Definition scenario_drag_data : PlannerData :=
  with_items
    (set_group staging [sample_item "A" None None None]
       (set_group committed
          [sample_item "c0" None None None; sample_item "c1" None None None;
           sample_item "B" None None None; sample_item "c3" None None None]
          empty_groups))
    DEFAULT_DATA.

Definition scenario_drop : DragEndEvent :=
  mkDragEndEvent
    (mkActive "A" (mkDragData (sample_item "A" None None None) staging))
    (Some (mkOver "B"
             (Some (mkDragData (sample_item "B" None None None) committed)))).

(** ** Further vocabulary and samples *)

(** [n] clicks on the button that adds a sprint; the ids generated are
    [genId 0], ..., [genId (n - 1)]. *)
Fixpoint addSprints (genId : nat → string) (n : nat) (sprints : list Sprint)
    : list Sprint :=
  match n with
  | O => sprints
  | S k => addSprint (genId k) (addSprints genId k sprints)
  end.

(** What can follow a value in a text written without gaps: nothing, a
    comma or a closing bracket. *)
Definition closed (rest : list ascii) : Prop :=
  match rest with
  | [] => True
  | c :: _ => c = ","%char ∨ c = "]"%char ∨ c = "}"%char
  end.

(** Reading the form of [e] written without gaps gives [e] back. *)
Definition reads_back_compact (e : jsval) : Prop :=
  ∀ rest fuel,
    (need e ≤ fuel)%nat → closed rest →
    parse_value fuel (print_compact e ++ rest) = Some (e, rest).

(** The members of an object, written without gaps. *)
Definition member_texts (props : list (string * jsval)) : list (list ascii) :=
  map (λ kv, match kv with
             | (k, e) => quote k ++ ":"%char :: print_compact e
             end) props.

(** An item with two sub-items, the second one blank. *)
Definition sample_edited_item : Item :=
  mkItem "a" "a" [mkSubItem "s1" "first"; mkSubItem "s2" ""]
    None (Some "api") (Some (JNum 3)) (Some (JStr "")).

(** A staged item with an epic and sub-items, and a bare one. *)
Definition sample_export_items : list Item :=
  [ mkItem "a" "Login page" [mkSubItem "s1" "form"; mkSubItem "s2" "";
                             mkSubItem "s3" "tests"]
      (Some "PC-12") (Some "ui") (Some (JNum 3)) None;
    mkItem "b" "" [] None None None None;
    mkItem "c" "Cleanup" [] None None None None ].


(** * Properties *)

(** ** Groups as a record with seven keys *)

Lemma group_items_set_same g l its : group_items (set_group g l its) g = l.
Proof. by destruct g. Qed.

Lemma group_items_set_other g g' l its :
  g' ≠ g → group_items (set_group g l its) g' = group_items its g'.
Proof. by destruct g, g'. Qed.

Lemma set_group_same g its : set_group g (group_items its g) its = its.
Proof. by destruct g, its. Qed.

Lemma set_group_comm g1 g2 l1 l2 its :
  g1 ≠ g2 →
  set_group g1 l1 (set_group g2 l2 its) = set_group g2 l2 (set_group g1 l1 its).
Proof. by destruct g1, g2. Qed.

(** Up to the order of the items, a document is one of its groups followed
    by the rest. *)
Lemma all_items_set_group g l its :
  all_items (set_group g l its) ≡ₚ l ++ all_items (set_group g [] its).
Proof. destruct g; unfold all_items; simpl; solve_Permutation. Qed.

Lemma all_items_split g its :
  all_items its ≡ₚ group_items its g ++ all_items (set_group g [] its).
Proof.
  rewrite <- (set_group_same g its) at 1. apply all_items_set_group.
Qed.

Lemma elem_of_all_items it its :
  it ∈ all_items its ↔ ∃ g, it ∈ group_items its g.
Proof.
  unfold all_items. rewrite !elem_of_app. split.
  - intros [?|[?|[?|[?|[?|[?|?]]]]]];
      [by exists staging|by exists committed|by exists milestones|by exists risks
      |by exists dependencies|by exists willNotDo|by exists uncommitted].
  - intros [[] ?]; simpl in *; tauto.
Qed.

Lemma as_GroupId_keys s : is_Some (as_GroupId s) ↔ s ∈ GROUP_CONFIG_keys.
Proof.
  split.
  - intros [g Hg]. unfold as_GroupId in Hg.
    destruct (list_find _ _) as [[k g']|] eqn:E; [|done].
    apply list_find_Some in E as (_ & <- & _).
    destruct g'; unfold GROUP_CONFIG_keys; simpl;
      rewrite !elem_of_cons; tauto.
  - unfold GROUP_CONFIG_keys. rewrite !elem_of_cons, elem_of_nil.
    intros [->|[->|[->|[->|[->|[->|[->|[]]]]]]]]; by eexists.
Qed.

Lemma as_GroupId_group_key g : as_GroupId (group_key g) = Some g.
Proof. by destruct g. Qed.

(** ** findIndex *)

Lemma findIndex_found x l k it :
  l !! k = Some it → item_id it = x →
  (∀ j it', l !! j = Some it' → (j < k)%nat → item_id it' ≠ x) →
  findIndex x l = Z.of_nat k.
Proof.
  intros Hk Hid Hfirst. unfold findIndex.
  assert (list_find (λ i, item_id i = x) l = Some (k, it)) as ->; [|done].
  apply list_find_Some. eauto.
Qed.

Lemma findIndex_not_found x l :
  Forall (λ it, item_id it ≠ x) l → findIndex x l = (-1)%Z.
Proof.
  intros H. unfold findIndex.
  assert (list_find (λ i, item_id i = x) l = None) as ->; [|done].
  by apply list_find_None.
Qed.

(** ** Swapping two positions *)

Lemma swap_at_swapped i j l :
  (i < length l)%nat → (j < length l)%nat → i ≠ j → swapped l (swap_at i j l) i j.
Proof.
  intros Hi Hj Hne. unfold swap_at, swapped.
  destruct (lookup_lt_is_Some_2 l i Hi) as [b Hb].
  destruct (lookup_lt_is_Some_2 l j Hj) as [a Ha].
  rewrite Ha, Hb. repeat split.
  - by rewrite !length_insert.
  - rewrite list_lookup_insert_ne by done.
    by rewrite list_lookup_insert_eq.
  - by rewrite list_lookup_insert_eq by (by rewrite length_insert).
  - intros k Hki Hkj. by rewrite !list_lookup_insert_ne.
Qed.

(** ** Item mutations *)

(** C10. Every item-level mutation ([handleAddItem], [handleUpdateItem],
    [handleDeleteItem], [handleDuplicateItem], [handleReorderItem] and every
    resolution of [handleDragEnd]) returns a document with the same sprints
    sequence and the same velocity as its input: only [items] can differ. *)
Theorem item_mutations_frame (prev : PlannerData) :
  (∀ newId g,
     sprints (handleAddItem newId g prev) = sprints prev ∧
     velocity (handleAddItem newId g prev) = velocity prev) ∧
  (∀ g itemId updates,
     sprints (handleUpdateItem g itemId updates prev) = sprints prev ∧
     velocity (handleUpdateItem g itemId updates prev) = velocity prev) ∧
  (∀ g itemId,
     sprints (handleDeleteItem g itemId prev) = sprints prev ∧
     velocity (handleDeleteItem g itemId prev) = velocity prev) ∧
  (∀ genId g item,
     sprints (handleDuplicateItem genId g item prev) = sprints prev ∧
     velocity (handleDuplicateItem genId g item prev) = velocity prev) ∧
  (∀ g itemId direction,
     sprints (handleReorderItem g itemId direction prev) = sprints prev ∧
     velocity (handleReorderItem g itemId direction prev) = velocity prev) ∧
  (∀ event,
     sprints (handleDragEnd event prev) = sprints prev ∧
     velocity (handleDragEnd event prev) = velocity prev).
Proof.
  repeat split; try done.
  - unfold handleReorderItem. by repeat case_decide.
  - unfold handleReorderItem. by repeat case_decide.
  - unfold handleDragEnd. destruct (over event); [|done].
    destruct (as_GroupId _); by repeat case_decide.
  - unfold handleDragEnd. destruct (over event); [|done].
    destruct (as_GroupId _); by repeat case_decide.
Qed.

(** C6 as written fails: the item that [handleAddItem] appends to the staging
    group of the default document does not have its optional fields absent. *)
Lemma addItem_optional_fields_not_absent :
  ¬ ∃ it,
      group_items (items (handleAddItem "id-1" staging DEFAULT_DATA)) staging
        = group_items (items DEFAULT_DATA) staging ++ [it] ∧
      item_text it = "" ∧ subItems it = [] ∧
      epic it = None ∧ domain it = None ∧
      requiredPoints it = None ∧ optionalPoints it = None.
Proof.
  intros (it & Heq & _ & _ & Hepic & _). simpl in Heq.
  injection Heq as <-. discriminate Hepic.
Qed.

(** C6, amended. [handleAddItem] appends to the end of the chosen group
    exactly one item: its id is the generated one, its text and its sub-item
    sequence are empty, and [epic], [domain], [requiredPoints] and
    [optionalPoints] are present and hold the empty string. Every other group
    is unchanged, and the ids of the document stay pairwise distinct when the
    generated id is not yet in use. *)
Theorem addItem_appends_blank_item (newId : string) (g : GroupId)
    (prev : PlannerData) :
  let next := handleAddItem newId g prev in
  group_items (items next) g =
    group_items (items prev) g ++
    [mkItem newId "" [] (Some "") (Some "") (Some (JStr "")) (Some (JStr ""))] ∧
  (∀ g', g' ≠ g → group_items (items next) g' = group_items (items prev) g') ∧
  (newId ∉ all_ids (items prev) → NoDup (all_ids (items prev)) →
   NoDup (all_ids (items next))).
Proof.
  simpl. split_and!.
  - unfold handleAddItem. simpl. by rewrite group_items_set_same.
  - intros g' Hne. unfold handleAddItem. simpl.
    by rewrite group_items_set_other.
  - intros Hfresh Hnd. unfold handleAddItem, all_ids in *. simpl.
    set (new := mkItem newId _ _ _ _ _ _).
    assert (all_items (set_group g (group_items (items prev) g ++ [new])
                         (items prev)) ≡ₚ new :: all_items (items prev)) as ->.
    { rewrite all_items_set_group, (all_items_split g (items prev)).
      solve_Permutation. }
    simpl. by apply NoDup_cons_2.
Qed.

Lemma reorder_not_found g itemId dir prev :
  Forall (λ it, item_id it ≠ itemId) (group_items (items prev) g) →
  handleReorderItem g itemId dir prev = prev.
Proof.
  intros H. unfold handleReorderItem.
  rewrite (findIndex_not_found _ _ H). by case_decide.
Qed.

Lemma reorder_first_up g prev it rest :
  group_items (items prev) g = it :: rest →
  handleReorderItem g (item_id it) up prev = prev.
Proof.
  intros Hl. unfold handleReorderItem. rewrite Hl.
  rewrite (findIndex_found (item_id it) (it :: rest) 0 it); [|done..|intros; lia].
  case_decide; [done|]. case_decide; [done|]. simpl in *. lia.
Qed.

Lemma reorder_last_down g prev it front :
  group_items (items prev) g = front ++ [it] →
  item_id it ∉ item_id <$> front →
  handleReorderItem g (item_id it) down prev = prev.
Proof.
  intros Hl Hnew. unfold handleReorderItem. rewrite Hl.
  rewrite (findIndex_found (item_id it) (front ++ [it]) (length front) it).
  - case_decide; [done|]. case_decide; [done|].
    rewrite length_app in *. simpl in *. lia.
  - by rewrite lookup_app_r, Nat.sub_diag.
  - done.
  - intros j it' Hj Hlt Hid. apply Hnew.
    rewrite lookup_app_l in Hj by done.
    apply list_elem_of_fmap. exists it'. split; [done|].
    by eapply list_elem_of_lookup_2.
Qed.

(** C7. [handleReorderItem] looks for the first item of the group with the
    given id. When there is none the document is returned unchanged. When the
    match is first and the direction is up, or last and the direction is
    down, the document is returned unchanged. Otherwise the match and its
    neighbour in that direction exchange places and nothing else moves. In
    particular the first item cannot go up, and the last item (its id not
    occurring earlier in the group) cannot go down. *)
Theorem reorderItem_swaps_or_noop (g : GroupId) (prev : PlannerData) :
  let l := group_items (items prev) g in
  (∀ itemId dir,
     let next := handleReorderItem g itemId dir prev in
     (Forall (λ it, item_id it ≠ itemId) l → next = prev) ∧
     (∀ k it,
        l !! k = Some it → item_id it = itemId →
        (∀ j it', l !! j = Some it' → (j < k)%nat → item_id it' ≠ itemId) →
        match dir with
        | up =>
            match k with
            | O => next = prev
            | S j =>
                swapped l (group_items (items next) g) k j ∧
                ∀ g', g' ≠ g →
                  group_items (items next) g' = group_items (items prev) g'
            end
        | down =>
            if decide (S k = length l) then next = prev
            else
              swapped l (group_items (items next) g) k (S k) ∧
              ∀ g', g' ≠ g →
                group_items (items next) g' = group_items (items prev) g'
        end)) ∧
  (∀ it rest, l = it :: rest →
     handleReorderItem g (item_id it) up prev = prev) ∧
  (∀ it front, l = front ++ [it] → item_id it ∉ item_id <$> front →
     handleReorderItem g (item_id it) down prev = prev).
Proof.
  intros l. split_and!.
  - intros itemId dir next. split; [apply reorder_not_found|].
    intros k it Hk Hid Hfirst. subst next. unfold handleReorderItem.
    fold l. rewrite (findIndex_found itemId l k it Hk Hid Hfirst).
    pose proof (lookup_lt_Some _ _ _ Hk) as Hlen.
    case_decide; [lia|]. destruct dir.
    + destruct k as [|j].
      * case_decide; [done|lia].
      * case_decide; [lia|]. simpl.
        rewrite group_items_set_same. split.
        -- replace (Z.to_nat (Z.of_nat (S j))) with (S j) by lia.
           replace (Z.to_nat (Z.of_nat (S j) - 1)) with j by lia.
           apply swap_at_swapped; lia.
        -- intros g' Hne. by rewrite group_items_set_other.
    + case_decide as Hlast.
      * case_decide; [done|lia].
      * case_decide; [lia|]. simpl.
        rewrite group_items_set_same. split.
        -- replace (Z.to_nat (Z.of_nat k)) with k by lia.
           replace (Z.to_nat (Z.of_nat k + 1)) with (S k) by lia.
           apply swap_at_swapped; lia.
        -- intros g' Hne. by rewrite group_items_set_other.
  - intros it rest Hl. by eapply reorder_first_up.
  - intros it front Hl Hnew. by eapply reorder_last_down.
Qed.

(** ** Double arithmetic *)

Lemma fl_comp x y : x == y → fl x = fl y.
Proof. intros H. unfold fl. by rewrite (Qred_complete x y H). Qed.

Lemma fl_0 : fl 0 = Finite 0.
Proof. by vm_compute. Qed.

Lemma fl_zero x : x == 0 → fl x = Finite 0.
Proof. intros H. by rewrite (fl_comp x 0 H), fl_0. Qed.

Lemma pow2_pos e : 0 < pow2 e.
Proof. by apply Qpower_0_lt. Qed.

Lemma pow2_nonneg k : (0 ≤ k)%Z → pow2 k == inject_Z (2 ^ k).
Proof. intros Hk. unfold pow2. by rewrite Zpower_Qpower. Qed.

Lemma round_half_even_cases x :
  let r := round_half_even x in
  (r = Qfloor x ∧ x - inject_Z (Qfloor x) <= 1 # 2) ∨
  (r = (Qfloor x + 1)%Z ∧ 1 # 2 <= x - inject_Z (Qfloor x)).
Proof.
  unfold round_half_even.
  destruct (Qcompare (x - inject_Z (Qfloor x)) (1 # 2)) eqn:E.
  - apply Qeq_alt in E. destruct (Z.even (Qfloor x)); [left|right];
      (split; [done|]); rewrite E; apply Qle_refl.
  - apply Qlt_alt in E. left. split; [done|]. by apply Qlt_le_weak.
  - apply Qgt_alt in E. right. split; [done|]. by apply Qlt_le_weak.
Qed.

Lemma round_half_even_comp x y :
  x == y → round_half_even x = round_half_even y.
Proof.
  intros H. unfold round_half_even. rewrite (Qfloor_comp x y H).
  assert (x - inject_Z (Qfloor y) == y - inject_Z (Qfloor y)) as ->
    by (by rewrite H).
  done.
Qed.

Lemma round_half_even_Z z : round_half_even (inject_Z z) = z.
Proof.
  unfold round_half_even. rewrite Qfloor_Z.
  assert (inject_Z z - inject_Z z == 0) as -> by ring. done.
Qed.

(** Rounding to an integer at most doubles a number that is not negative. *)
Lemma round_half_even_bound x :
  0 <= x →
  0 <= inject_Z (round_half_even x) ∧ inject_Z (round_half_even x) <= 2 * x.
Proof.
  intros Hx.
  assert (0 ≤ Qfloor x)%Z as Hf.
  { change 0%Z with (Qfloor 0). by apply Qfloor_resp_le. }
  pose proof (Qfloor_le x) as Hle.
  assert (0 <= inject_Z (Qfloor x)) as Hf'.
  { change 0 with (inject_Z 0). by rewrite <- Zle_Qle. }
  destruct (round_half_even_cases x) as [[-> H]|[-> H]].
  - split; [done|]. lra.
  - rewrite inject_Z_plus. change (inject_Z 1) with 1. split; lra.
Qed.

(** A finite result of [fl] is at most twice its argument, which is below
    the overflow threshold. *)
Lemma fl_Finite_bound x r :
  fl x = Finite r → Qabs r <= 2 * Qabs x ∧ Qabs x < overflow_threshold.
Proof.
  unfold fl. set (q := Qred x). set (a := Qabs q).
  assert (a == Qabs x) as Ha by (unfold a, q; by rewrite Qred_correct).
  destruct (Qle_bool overflow_threshold a) eqn:E; [by destruct (Qle_bool 0 q)|].
  intros [= <-].
  assert (a < overflow_threshold) as Hlt.
  { apply Qnot_le_lt. intros H%Qle_bool_iff. congruence. }
  split; [|by rewrite <- Ha].
  set (e := Z.max (ilog2 a - 52) (-1074)).
  pose proof (pow2_pos e) as He.
  assert (0 <= a / pow2 e) as Hq.
  { apply Qle_shift_div_l; [done|]. rewrite Qmult_0_l. apply Qabs_nonneg. }
  destruct (round_half_even_bound _ Hq) as [Hm0 Hm].
  set (m := inject_Z (round_half_even (a / pow2 e))) in *.
  rewrite Qred_correct, Qabs_Qmult.
  assert (Qabs (if Qle_bool 0 q then 1 else -1) == 1) as ->
    by (by destruct (Qle_bool 0 q)).
  rewrite Qmult_1_l, Qabs_pos by (apply Qmult_le_0_compat; lra).
  rewrite <- Ha.
  assert (m * pow2 e <= 2 * (a / pow2 e) * pow2 e) as H
    by (apply Qmult_le_compat_r; lra).
  eapply Qle_trans; [exact H|]. apply Qle_lteq. right. field. lra.
Qed.

Lemma fl_small_finite x : Qabs x < overflow_threshold → is_finite (fl x).
Proof.
  intros H. unfold fl.
  assert (Qle_bool overflow_threshold (Qabs (Qred x)) = false) as ->.
  { apply not_true_iff_false. intros H'%Qle_bool_iff.
    rewrite Qred_correct in H'. lra. }
  by eexists.
Qed.

(** A finite multiplier over 100 is finite. *)
Lemma fdiv_100_finite m :
  is_finite (fl m) → is_finite (fdiv (fl m) (Finite 100)).
Proof.
  intros [r Hr]. rewrite Hr. cbn [fdiv].
  change (Qeq_bool 100 0) with false. cbv iota.
  destruct (fl_Finite_bound m r Hr) as [Hle Hlt].
  apply fl_small_finite. unfold Qdiv. rewrite Qabs_Qmult.
  change (Qabs (/ 100)) with (1 # 100).
  pose proof (Qabs_nonneg m). lra.
Qed.

Lemma fmul_0_finite x : is_finite x → fmul (Finite 0) x = Finite 0.
Proof. intros [r ->]. cbn [fmul]. apply fl_zero. ring. Qed.

Lemma overflow_threshold_large : inject_Z (2 ^ 53) < overflow_threshold.
Proof. by vm_compute. Qed.

(** The integers of magnitude below [2^53] are doubles. *)
Lemma fl_integer n :
  (Z.abs n < 2 ^ 53)%Z → fl (inject_Z n) = Finite (inject_Z n).
Proof.
  intros Hn.
  destruct (decide (n = 0%Z)) as [->|Hne]; [by vm_compute|].
  set (N := Z.abs n) in *.
  assert (0 < N)%Z as Hpos by (unfold N; lia).
  unfold fl. rewrite inject_Z_Qred.
  assert (Qabs (inject_Z n) = inject_Z N) as -> by done.
  assert (Qle_bool overflow_threshold (inject_Z N) = false) as ->.
  { apply not_true_iff_false. intros H%Qle_bool_iff.
    pose proof overflow_threshold_large as HT.
    assert (inject_Z N < inject_Z (2 ^ 53)) by (by rewrite <- Zlt_Qlt).
    lra. }
  set (l := Z.log2 N).
  destruct (Z.log2_spec N Hpos) as [Hl1 Hl2]. fold l in Hl1, Hl2.
  assert (0 ≤ l)%Z as Hl0 by apply Z.log2_nonneg.
  assert (l < 53)%Z as Hl53 by (by apply Z.log2_lt_pow2).
  assert (ilog2 (inject_Z N) = l) as ->.
  { unfold ilog2. cbn [Qnum Qden inject_Z]. change (Z.log2 1) with 0%Z.
    rewrite Z.sub_0_r. fold l.
    assert (Qle_bool (pow2 l) (inject_Z N) = true) as ->; [|done].
    apply Qle_bool_iff. rewrite pow2_nonneg by done. by rewrite <- Zle_Qle. }
  rewrite Z.max_l by lia.
  assert (pow2 (l - 52) == / inject_Z (2 ^ (52 - l))) as He.
  { replace (l - 52)%Z with (- (52 - l))%Z by lia. unfold pow2.
    rewrite Qpower_opp. apply Qinv_comp. symmetry.
    apply (Zpower_Qpower 2). lia. }
  assert (0 < 2 ^ (52 - l))%Z as Hp by (apply Z.pow_pos_nonneg; lia).
  assert (0 < inject_Z (2 ^ (52 - l))) as Hp'.
  { change 0 with (inject_Z 0). by rewrite <- Zlt_Qlt. }
  rewrite (round_half_even_comp _ (inject_Z (N * 2 ^ (52 - l)))).
  2:{ rewrite He, inject_Z_mult. field. lra. }
  rewrite round_half_even_Z. f_equal.
  transitivity (Qred (inject_Z n)); [|apply inject_Z_Qred].
  apply Qred_complete. rewrite He, inject_Z_mult.
  destruct (Qle_bool 0 (inject_Z n)) eqn:E.
  - apply Qle_bool_iff in E. change 0 with (inject_Z 0) in E.
    rewrite <- Zle_Qle in E. replace N with n by (unfold N; lia).
    cbv iota. field. lra.
  - assert (n < 0)%Z as Hneg.
    { apply Z.lt_nge. intros H. apply not_true_iff_false in E. apply E.
      apply Qle_bool_iff. change 0 with (inject_Z 0). by rewrite <- Zle_Qle. }
    replace N with (- n)%Z by (unfold N; lia). rewrite inject_Z_opp.
    cbv iota. field. lra.
Qed.

(** Adding integers is exact below [2^53]. *)
Lemma fadd_integer a b :
  (Z.abs (a + b) < 2 ^ 53)%Z →
  fadd (Finite (inject_Z a)) (Finite (inject_Z b)) = Finite (inject_Z (a + b)).
Proof.
  intros H. cbn [fadd]. rewrite <- (fl_integer (a + b) H).
  apply fl_comp. by rewrite inject_Z_plus.
Qed.

(** So is subtracting them. *)
Lemma fsub_integer a b :
  (Z.abs (a - b) < 2 ^ 53)%Z →
  fsub (Finite (inject_Z a)) (Finite (inject_Z b)) = Finite (inject_Z (a - b)).
Proof.
  intros H. unfold fsub. cbn [fneg fadd]. rewrite <- (fl_integer (a - b) H).
  apply fl_comp. rewrite Qred_correct. unfold Z.sub.
  by rewrite inject_Z_plus, inject_Z_opp.
Qed.

Lemma pow2_succ e : pow2 (e + 1) == 2 * pow2 e.
Proof.
  unfold pow2. rewrite Qpower_plus by done. rewrite Qpower_1_r. ring.
Qed.

Lemma pow2_sub a b : pow2 (a - b) == pow2 a / pow2 b.
Proof. unfold pow2. by rewrite Qpower_minus. Qed.

Lemma pow2_le a b : (a ≤ b)%Z → pow2 a <= pow2 b.
Proof. intros H. unfold pow2. by apply Qpower_le_compat_l. Qed.

(** [ilog2 a] is the exponent of the power of 2 at or below [a]. *)
Lemma ilog2_spec a :
  0 < a → pow2 (ilog2 a) <= a ∧ a < pow2 (ilog2 a + 1).
Proof.
  intros Ha. destruct a as [n d]. unfold ilog2. cbn [Qnum Qden].
  assert (0 < n)%Z as Hn.
  { unfold Qlt in Ha. simpl in Ha. lia. }
  set (ln := Z.log2 n). set (ld := Z.log2 (Z.pos d)).
  destruct (Z.log2_spec n Hn) as [Hn1 Hn2].
  destruct (Z.log2_spec (Z.pos d) (Pos2Z.is_pos d)) as [Hd1 Hd2].
  fold ln in Hn1, Hn2. fold ld in Hd1, Hd2.
  assert (0 ≤ ln)%Z as Hln by apply Z.log2_nonneg.
  assert (0 ≤ ld)%Z as Hld by apply Z.log2_nonneg.
  rewrite Z.pow_succ_r in Hn2, Hd2 by done.
  set (A := inject_Z (2 ^ ln)). set (B := inject_Z (2 ^ ld)).
  set (N := inject_Z n). set (D := inject_Z (Z.pos d)).
  assert (n # d == N / D) as Hnd by apply Qmake_Qdiv.
  assert (0 < A) as HA.
  { change 0 with (inject_Z 0). unfold A. rewrite <- Zlt_Qlt.
    by apply Z.pow_pos_nonneg. }
  assert (0 < B) as HB.
  { change 0 with (inject_Z 0). unfold B. rewrite <- Zlt_Qlt.
    by apply Z.pow_pos_nonneg. }
  assert (A <= N) as HAN by (unfold A, N; by rewrite <- Zle_Qle).
  assert (N < 2 * A) as HNA.
  { unfold A, N. change 2 with (inject_Z 2). rewrite <- inject_Z_mult.
    by rewrite <- Zlt_Qlt. }
  assert (B <= D) as HBD by (unfold B, D; by rewrite <- Zle_Qle).
  assert (D < 2 * B) as HDB.
  { unfold B, D. change 2 with (inject_Z 2). rewrite <- inject_Z_mult.
    by rewrite <- Zlt_Qlt. }
  assert (pow2 (ln - ld) == A / B) as Hk.
  { rewrite pow2_sub, !pow2_nonneg by done. reflexivity. }
  assert (0 < D) as HD by lra.
  assert (N / D < 2 * (A / B)) as Hup.
  { apply Qlt_shift_div_r; [done|].
    assert (2 * (A / B) * D == (2 * A * D) / B) as -> by (field; lra).
    apply Qlt_shift_div_l; [done|]. nra. }
  assert (A / B < 2 * (N / D)) as Hlow.
  { apply Qlt_shift_div_r; [done|].
    assert (2 * (N / D) * B == (2 * N * B) / D) as -> by (field; lra).
    apply Qlt_shift_div_l; [done|]. nra. }
  destruct (Qle_bool (pow2 (ln - ld)) (n # d)) eqn:E.
  - apply Qle_bool_iff in E. split; [done|].
    rewrite pow2_succ, Hk, Hnd. done.
  - assert (n # d < pow2 (ln - ld)) as Hlt.
    { apply Qnot_le_lt. intros H%Qle_bool_iff. congruence. }
    replace (ln - ld - 1 + 1)%Z with (ln - ld)%Z by lia.
    split; [|done].
    assert (pow2 (ln - ld) == 2 * pow2 (ln - ld - 1)) as Hs.
    { rewrite <- pow2_succ. by replace (ln - ld - 1 + 1)%Z with (ln - ld)%Z by lia. }
    rewrite Hk in Hs. rewrite Hnd. lra.
Qed.

Lemma round_half_even_spec y :
  let m := round_half_even y in
  (Qfloor y ≤ m ≤ Qfloor y + 1)%Z ∧
  Qabs (inject_Z m - y) <= 1 # 2 ∧
  (Qabs (inject_Z m - y) == 1 # 2 → Z.even m = true).
Proof.
  unfold round_half_even.
  pose proof (Qfloor_le y) as H1. pose proof (Qlt_floor y) as H2.
  rewrite inject_Z_plus in H2. change (inject_Z 1) with 1 in H2.
  set (f := Qfloor y) in *.
  assert (∀ z : Q, - (1 # 2) <= z → z <= 1 # 2 → Qabs z <= 1 # 2) as Habs.
  { intros z ??. apply Qabs_Qle_condition. split; lra. }
  assert (∀ z : Q, Qabs z == 1 # 2 → z == 1 # 2 ∨ z == - (1 # 2)) as Htie.
  { intros z. apply Qabs_case; intros; [left|right]; lra. }
  destruct (Qcompare (y - inject_Z f) (1 # 2)) eqn:E.
  - apply Qeq_alt in E. destruct (Z.even f) eqn:Ef.
    + split; [lia|]. split; [apply Habs; lra|done].
    + split; [lia|]. rewrite inject_Z_plus. change (inject_Z 1) with 1.
      split; [apply Habs; lra|]. intros _.
      rewrite Z.even_add, Ef. done.
  - apply Qlt_alt in E. split; [lia|]. split; [apply Habs; lra|].
    intros [H|H]%Htie; lra.
  - apply Qgt_alt in E. split; [lia|].
    rewrite inject_Z_plus. change (inject_Z 1) with 1.
    split; [apply Habs; lra|]. intros [H|H]%Htie; lra.
Qed.

(** What [fl] returns when it is finite: a double, [m * 2^e] with a
    significand [m] of at most 53 bits and an exponent [e] from -1074 on,
    normalised unless the exponent is the least; it is within half a step
    [2^e] of the argument, and at exactly half a step the significand is
    even. *)
Lemma fl_nearest x r :
  fl x = Finite r →
  ∃ m e : Z,
    (-1074 ≤ e ≤ 971)%Z ∧ (0 ≤ m ≤ 2 ^ 53)%Z ∧
    (m = 2 ^ 53 → e < 971)%Z ∧
    ((-1074 < e)%Z → (2 ^ 52 ≤ m)%Z) ∧
    Qabs r == inject_Z m * pow2 e ∧
    Qabs (r - x) <= pow2 e / 2 ∧
    (Qabs (r - x) == pow2 e / 2 → Z.even m = true).
Proof.
  unfold fl. set (q := Qred x). set (a := Qabs q).
  assert (q == x) as Hq by apply Qred_correct.
  destruct (Qle_bool overflow_threshold a) eqn:Eo;
    [by destruct (Qle_bool 0 q)|].
  assert (a < overflow_threshold) as HaT.
  { apply Qnot_le_lt. intros H%Qle_bool_iff. congruence. }
  set (e := Z.max (ilog2 a - 52) (-1074)).
  set (y := a / pow2 e). set (m := round_half_even y).
  intros [= <-].
  pose proof (pow2_pos e) as He.
  pose proof (Qabs_nonneg q) as Ha0. fold a in Ha0.
  assert (0 <= y) as Hy0.
  { apply Qle_shift_div_l; [done|]. by rewrite Qmult_0_l. }
  destruct (round_half_even_spec y) as (Hfl & Herr & Htie). fold m in Hfl, Herr, Htie.
  pose proof (Qfloor_le y) as Hf1. pose proof (Qlt_floor y) as Hf2.
  rewrite inject_Z_plus in Hf2. change (inject_Z 1) with 1 in Hf2.
  assert (0 ≤ Qfloor y)%Z as Hf0.
  { change 0%Z with (Qfloor 0). by apply Qfloor_resp_le. }
  (* the sign *)
  set (s := if Qle_bool 0 q then 1 else -1).
  assert (Qabs s == 1) as Hs by (unfold s; by destruct (Qle_bool 0 q)).
  assert (q == s * a) as Hqs.
  { unfold s, a. destruct (Qle_bool 0 q) eqn:E.
    - apply Qle_bool_iff in E. rewrite Qabs_pos by done. ring.
    - assert (q <= 0).
      { apply Qlt_le_weak, Qnot_le_lt. intros H%Qle_bool_iff. congruence. }
      rewrite Qabs_neg by done. ring. }
  assert (0 <= inject_Z m) as Hm0.
  { change 0 with (inject_Z 0). rewrite <- Zle_Qle. lia. }
  assert (Qabs (Qred (s * (inject_Z m * pow2 e))) == inject_Z m * pow2 e)
    as Hval.
  { rewrite Qred_correct, Qabs_Qmult, Hs, Qmult_1_l.
    apply Qabs_pos. apply Qmult_le_0_compat; lra. }
  assert (Qabs (Qred (s * (inject_Z m * pow2 e)) - x)
          == Qabs (inject_Z m - y) * pow2 e) as Hdiff.
  { rewrite Qred_correct, <- Hq, Hqs.
    assert (s * (inject_Z m * pow2 e) - s * a
            == s * ((inject_Z m - y) * pow2 e)) as ->
      by (unfold y; field; lra).
    rewrite Qabs_Qmult, Hs, Qmult_1_l, Qabs_Qmult.
    by rewrite (Qabs_pos (pow2 e)) by lra. }
  assert (Qabs (Qred (s * (inject_Z m * pow2 e)) - x) <= pow2 e / 2) as Hbound.
  { rewrite Hdiff. assert (pow2 e / 2 == (1 # 2) * pow2 e) as -> by field.
    apply Qmult_le_compat_r; lra. }
  assert (Qabs (Qred (s * (inject_Z m * pow2 e)) - x) == pow2 e / 2 →
          Z.even m = true) as Heven.
  { rewrite Hdiff. intros H. apply Htie.
    assert (pow2 e / 2 == (1 # 2) * pow2 e) as Hh by field.
    rewrite Hh in H. apply Qmult_inj_r in H; [done|lra]. }
  destruct (Qeq_dec a 0) as [Hz|Hnz].
  { (* zero *)
    assert (y == 0) as Hyz by (unfold y; rewrite Hz; field; lra).
    assert (m = 0%Z) as Hm.
    { unfold m. rewrite (round_half_even_comp _ _ Hyz). done. }
    exists 0%Z, (-1074)%Z. rewrite Hm in *.
    split; [lia|]. split; [lia|]. split; [lia|]. split; [lia|].
    split; [rewrite Hval; ring|]. split; [|done].
    rewrite Hdiff, Hyz.
    pose proof (pow2_pos (-1074)). change (Qabs (inject_Z 0 - 0)) with 0.
    rewrite Qmult_0_l. apply Qle_shift_div_l; lra. }
  assert (0 < a) as Hapos by lra.
  destruct (ilog2_spec a Hapos) as [HL1 HL2].
  set (L := ilog2 a) in *.
  assert (L < 1024)%Z as HL.
  { apply (Qpower_lt_compat_l_inv 2); [|done]. fold (pow2 L) (pow2 1024).
    assert (overflow_threshold < pow2 1024) by (by vm_compute). lra. }
  assert (L - 52 ≤ e)%Z as He1 by (unfold e; lia).
  assert (-1074 ≤ e ≤ 971)%Z as Herange by (unfold e; lia).
  assert (y < inject_Z (2 ^ 53)) as Hy53.
  { unfold y. apply Qlt_shift_div_r; [done|].
    eapply Qlt_le_trans; [exact HL2|].
    rewrite <- (pow2_nonneg 53) by done.
    assert (pow2 53 * pow2 e == pow2 (53 + e)) as ->
      by (unfold pow2; by rewrite Qpower_plus).
    apply pow2_le. lia. }
  assert (Qfloor y < 2 ^ 53)%Z as Hf53.
  { rewrite Zlt_Qlt. lra. }
  exists m, e. split; [done|]. split; [lia|].
  split; [|split; [|by split_and!]].
  - intros Hm. apply Z.le_neq. split; [lia|]. intros He971.
    assert (y < inject_Z (2 ^ 53) - (1 # 2)) as Hy.
    { unfold y. apply Qlt_shift_div_r; [done|].
      eapply Qlt_le_trans; [exact HaT|]. rewrite He971.
      by vm_compute. }
    assert (inject_Z m - y <= 1 # 2) as Hd.
    { apply Qabs_Qle_condition in Herr. lra. }
    rewrite Hm in Hd. lra.
  - intros Hnorm. assert (e = (L - 52)%Z) as Hee by (unfold e; lia).
    assert (inject_Z (2 ^ 52) <= y) as Hy52.
    { unfold y. apply Qle_shift_div_l; [done|].
      eapply Qle_trans; [|exact HL1].
      rewrite <- (pow2_nonneg 52) by done.
      assert (pow2 52 * pow2 e == pow2 (52 + e)) as ->
        by (unfold pow2; by rewrite Qpower_plus).
      apply pow2_le. lia. }
    assert (2 ^ 52 ≤ Qfloor y)%Z.
    { rewrite <- (Qfloor_Z (2 ^ 52)). by apply Qfloor_resp_le. }
    lia.
Qed.

(** On every pair of the sample floats the four operations agree with the
    reference specification of IEEE 754 arithmetic. *)
Lemma double_arithmetic_matches_reference :
  (λ p, fadd (of_spec_float p.1) (of_spec_float p.2))
    <$> all_pairs sample_floats
  = (λ p, of_spec_float (SFadd 53 1024 p.1 p.2)) <$> all_pairs sample_floats ∧
  (λ p, fsub (of_spec_float p.1) (of_spec_float p.2))
    <$> all_pairs sample_floats
  = (λ p, of_spec_float (SFsub 53 1024 p.1 p.2)) <$> all_pairs sample_floats ∧
  (λ p, fmul (of_spec_float p.1) (of_spec_float p.2))
    <$> all_pairs sample_floats
  = (λ p, of_spec_float (SFmul 53 1024 p.1 p.2)) <$> all_pairs sample_floats ∧
  (λ p, fdiv (of_spec_float p.1) (of_spec_float p.2))
    <$> all_pairs sample_floats
  = (λ p, of_spec_float (SFdiv 53 1024 p.1 p.2)) <$> all_pairs sample_floats.
Proof. split_and!; vm_compute; reflexivity. Qed.

(** ** Comparison with 0 and rounding to an integer *)

Lemma Math_round_rounds_to x : rounds_to x (Math_round x).
Proof.
  destruct x as [q| | |]; cbn [rounds_to Math_round]; [|done..].
  exists (Qfloor (q + (1 # 2))). split; [done|].
  pose proof (Qfloor_le (q + (1 # 2))) as H1.
  pose proof (Qlt_floor (q + (1 # 2))) as H2.
  rewrite inject_Z_plus in H2. change (inject_Z 1) with 1 in H2.
  split; lra.
Qed.

(** The rounding is determined. *)
Lemma rounds_to_unique x r r' : rounds_to x r → rounds_to x r' → r = r'.
Proof.
  destruct x as [q| | |]; cbn [rounds_to]; [|congruence..].
  intros (z & -> & H1 & H2) (z' & -> & H1' & H2'). do 2 f_equal.
  assert (inject_Z z < inject_Z (z' + 1)) as Ha
    by (rewrite inject_Z_plus; change (inject_Z 1) with 1; lra).
  assert (inject_Z z' < inject_Z (z + 1)) as Hb
    by (rewrite inject_Z_plus; change (inject_Z 1) with 1; lra).
  rewrite <- Zlt_Qlt in Ha, Hb. lia.
Qed.

(** ** Statistics *)








Lemma totalPlanningPoints_sum d :
  totalPlanningPoints d =
  sum_left (sprint_capacity (velocity d) <$> sprints d).
Proof.
  unfold totalPlanningPoints, sum_left. generalize (Finite 0).
  induction (sprints d) as [|s l IH]; intros acc; [done|].
  rewrite fmap_cons. cbn [fold_left]. by rewrite IH.
Qed.

(** C4 as written fails. With a velocity of 25 and one sprint at 58 percent
    the sum over the sprints of [velocity * multiplier / 100] is 14.5,
    computed exactly or in doubles, and 14.5 rounds to 15. The code
    multiplies the velocity by [multiplier / 100], which is the double
    nearest to 0.58: its capacity is 14.499999999999998, another number,
    and its remainder is 14. *)
Lemma capacity_is_not_the_exact_sum :
  let d := quarter_data in
  let claimed := totalCapacity (sprints d) (velocity d) in
  let committedRequired := required (calcStats committed d) in
  claimed == 29 # 2 ∧
  fdiv (fmul (fl (velocity d)) (fl 58)) (Finite 100) = Finite (29 # 2) ∧
  totalPlanningPoints d = Finite (8162774324609023 # 562949953421312) ∧
  ¬ (∃ q, totalPlanningPoints d = Finite q ∧ q == claimed) ∧
  committedRemaining d = Finite 14 ∧
  ¬ rounds_to (fsub (Finite (29 # 2)) committedRequired)
      (committedRemaining d).
Proof.
  intros d claimed committedRequired.
  assert (rounds_to (fsub (Finite (29 # 2)) committedRequired) (Finite 15))
    as H15 by (exists 15%Z; by vm_compute).
  split_and!.
  - by vm_compute.
  - by vm_compute.
  - by vm_compute.
  - intros (q & Hq & Hclaimed). vm_compute in Hq. injection Hq as <-.
    by vm_compute in Hclaimed.
  - by vm_compute.
  - intros H14. pose proof (rounds_to_unique _ _ _ H14 H15) as H.
    vm_compute in H. done.
Qed.

(** C4, amended. [totalPlanningPoints] is the sum over the sprints, added
    in doubles from the first sprint on, of [velocity * (multiplier / 100)];
    [committedPercent] is [(committedRequired / capacity) * 100] rounded to
    the nearest integer, a half going up, when the capacity is greater than
    0, and 0 otherwise; [committedRemaining] is
    [capacity - committedRequired] rounded in the same way, and it is
    negative on an overcommitted document: -52 on the default schedule with
    200 committed points. *)
Theorem capacity_statistics (d : PlannerData) :
  let capacity := totalPlanningPoints d in
  let committedRequired := required (calcStats committed d) in
  capacity = sum_left (sprint_capacity (velocity d) <$> sprints d) ∧
  (gt0 capacity = true →
   rounds_to (fmul (fdiv committedRequired capacity) (Finite 100))
     (committedPercent d)) ∧
  (gt0 capacity = false → committedPercent d = Finite 0) ∧
  rounds_to (fsub capacity committedRequired) (committedRemaining d) ∧
  committedRemaining overcommitted_data = Finite (-52).
Proof.
  intros capacity committedRequired. split_and!.
  - apply totalPlanningPoints_sum.
  - intros Hpos. unfold committedPercent. fold capacity. rewrite Hpos.
    apply Math_round_rounds_to.
  - intros Hz. unfold committedPercent. fold capacity. by rewrite Hz.
  - apply Math_round_rounds_to.
  - by vm_compute.
Qed.
(** ** The domain breakdown *)

(** C3. A committed item whose domain is a name that every object inherits
    is not grouped as the other items are. Under ["__proto__"] the item of 5
    required points is lost: [domains] gets no property, the breakdown is
    empty, and its points sum to 0 while the required total of the
    committed group is 5. Under ["constructor"] the property holds a text,
    not the points. Under a name that is not inherited the breakdown has
    the one entry, with 5 points and 100 percent. *)
Theorem domainBreakdown_loses_inherited_domain :
  required (calcStats committed (inherited_domain_data "__proto__")) =
    Finite 5 ∧
  domainBreakdown (inherited_domain_data "__proto__") = Some [] ∧
  (fold_left domain_step
     (group_items (items (inherited_domain_data "constructor")) committed)
     ([], Finite 0)).1 = [("constructor", Text)] ∧
  domainBreakdown (inherited_domain_data "constructor") = None ∧
  domainBreakdown (inherited_domain_data "api") =
    Some [mkDomainStat "api" (Finite 5) (Finite 100)].
Proof. split_and!; by vm_compute. Qed.


(** ** Cross-group moves *)

Lemma splice_in_Permutation k item l : splice_in k item l ≡ₚ item :: l.
Proof.
  unfold splice_in. rewrite <- Permutation_middle.
  by rewrite take_drop.
Qed.

Lemma filter_all {A} (P : A → Prop) `{∀ x, Decision (P x)} (l : list A) :
  Forall P l → filter P l = l.
Proof.
  induction 1 as [|x l Hx _ IH]; [done|].
  rewrite filter_cons, decide_True by done. by rewrite IH.
Qed.

Lemma filter_out_unique (item : Item) l :
  NoDup (item_id <$> l) → item ∈ l →
  l ≡ₚ item :: filter (λ i, item_id i ≠ item_id item) l.
Proof.
  induction l as [|x l IH]; intros Hnd Hin.
  - by apply elem_of_nil in Hin.
  - rewrite fmap_cons in Hnd. apply NoDup_cons in Hnd as [Hx Hnd].
    rewrite filter_cons. apply elem_of_cons in Hin as [->|Hin].
    + rewrite decide_False by (by intros H; apply H).
      rewrite filter_all; [done|].
      apply Forall_forall. intros y Hy Hid. apply Hx. rewrite <- Hid.
      apply list_elem_of_fmap. eauto.
    + rewrite decide_True.
      * rewrite (IH Hnd Hin) at 1. apply perm_swap.
      * intros Hid. apply Hx. rewrite Hid. apply list_elem_of_fmap. eauto.
Qed.

(** With pairwise distinct ids, an id determines the group of its item. *)
Lemma unique_ids_one_group its g1 g2 it1 it2 :
  NoDup (all_ids its) →
  it1 ∈ group_items its g1 → it2 ∈ group_items its g2 →
  item_id it1 = item_id it2 → g1 = g2.
Proof.
  intros Hnd H1 H2 Hid. destruct (decide (g1 = g2)) as [|Hne]; [done|].
  exfalso. unfold all_ids in Hnd.
  rewrite (all_items_split g1), fmap_app in Hnd.
  apply NoDup_app in Hnd as (_ & Hdisj & _).
  apply (Hdisj (item_id it1)).
  - apply list_elem_of_fmap. eauto.
  - rewrite Hid. apply list_elem_of_fmap. exists it2. split; [done|].
    apply elem_of_all_items. exists g2.
    by rewrite group_items_set_other.
Qed.

(** The two relocating branches of [handleDragEnd] build the same
    document shape: the item filtered out of [src], and put into [dst]. *)
Lemma cross_group_drop_result event prev src dst :
  cross_group_drop event src dst →
  ∃ dstItems,
    dstItems ≡ₚ dd_item (active_data (active event))
                 :: group_items (items prev) dst ∧
    handleDragEnd event prev =
      with_items
        (set_group dst dstItems
           (set_group src
              (filter (λ i, item_id i ≠
                            item_id (dd_item (active_data (active event))))
                 (group_items (items prev) src))
              (items prev)))
        prev.
Proof.
  intros [ov Hov Hne Hsrc Hdst Hsd|ov od Hov Hne Hsrc Hnone Hod Hdst Hsd];
    unfold handleDragEnd; rewrite Hov, decide_False by done.
  - rewrite Hdst, Hsrc, decide_False by done.
    eexists. split; [|done]. by rewrite <- Permutation_cons_append.
  - rewrite Hnone, Hod, Hsrc, Hdst, decide_False by done.
    eexists. split; [|done]. apply splice_in_Permutation.
Qed.

(** C2. In a document whose item ids are pairwise distinct, a drag-end
    resolution that relocates the dragged item (an item of the group [src])
    to another group [dst], by a drop on the zone of [dst] or on an item of
    [dst], yields a document in which the item's id occurs in [dst] and in
    no other group, whose ids are still pairwise distinct, and whose id set,
    and indeed whose items up to order, are those of the document before. *)
Theorem cross_group_move_invariant (event : DragEndEvent) (prev : PlannerData)
    (src dst : GroupId) :
  NoDup (all_ids (items prev)) →
  dd_item (active_data (active event)) ∈ group_items (items prev) src →
  cross_group_drop event src dst →
  let item := dd_item (active_data (active event)) in
  let next := handleDragEnd event prev in
  (∀ g, (∃ it, it ∈ group_items (items next) g ∧ item_id it = item_id item)
        ↔ g = dst) ∧
  NoDup (all_ids (items next)) ∧
  (∀ x, x ∈ all_ids (items next) ↔ x ∈ all_ids (items prev)) ∧
  all_items (items next) ≡ₚ all_items (items prev).
Proof.
  intros Hnd Hin Hdrop item next.
  destruct (cross_group_drop_result event prev src dst Hdrop)
    as (dstItems & Hdst & Hnext).
  assert (src ≠ dst) as Hsd by (by destruct Hdrop).
  fold item in Hdst, Hnext. fold next in Hnext.
  set (its := items prev) in *.
  set (srcItems := filter (λ i, item_id i ≠ item_id item) (group_items its src))
    in *.
  assert (NoDup (item_id <$> group_items its src)) as Hnd_src.
  { unfold all_ids in Hnd. rewrite (all_items_split src), fmap_app in Hnd.
    by apply NoDup_app in Hnd as (? & _). }
  assert (all_items (items next) ≡ₚ all_items its) as Hperm.
  { rewrite Hnext. simpl.
    rewrite all_items_set_group, set_group_comm by done.
    rewrite all_items_set_group, Hdst.
    rewrite (all_items_split dst its).
    rewrite (all_items_split src (set_group dst [] its)).
    rewrite group_items_set_other by done.
    rewrite (filter_out_unique item (group_items its src) Hnd_src Hin) at 1.
    fold srcItems. solve_Permutation. }
  assert (∀ g, group_items (items next) g =
               if decide (g = dst) then dstItems
               else if decide (g = src) then srcItems
               else group_items its g) as Hgroups.
  { intros g. rewrite Hnext. simpl. case_decide as Hd.
    - subst g. by rewrite group_items_set_same.
    - rewrite group_items_set_other by done. case_decide as Hs.
      + subst g. by rewrite group_items_set_same.
      + by rewrite group_items_set_other. }
  split_and!.
  - intros g. split.
    + intros (it & Hit & Hid). rewrite Hgroups in Hit.
      case_decide; [done|]. exfalso. case_decide.
      * apply list_elem_of_filter in Hit as [Hit _]. by apply Hit.
      * assert (g = src); [|done].
        by eapply (unique_ids_one_group its g src it item).
    + intros ->. exists item. split; [|done].
      rewrite Hgroups, decide_True by done. rewrite Hdst.
      apply list_elem_of_here.
  - unfold all_ids. by rewrite Hperm.
  - intros x. unfold all_ids. by rewrite Hperm.
  - exact Hperm.
Qed.

(** ** The JSON codec reads back what it writes *)

Lemma chars_string_of_list l : chars (String.string_of_list_ascii l) = l.
Proof. apply String.list_ascii_of_string_of_list_ascii. Qed.

Lemma string_of_chars s : String.string_of_list_ascii (chars s) = s.
Proof. apply String.string_of_list_ascii_of_string. Qed.



Lemma parse_value_skip_ws fuel s :
  parse_value fuel (skip_ws s) = parse_value fuel s.
Proof.
  assert (skip_ws (skip_ws s) = skip_ws s) as Hidem.
  { induction s as [|c s IH]; [done|]. simpl.
    destruct (is_ws c) eqn:E; [done|]. simpl. by rewrite E. }
  destruct fuel; [done|]. simpl. by rewrite Hidem.
Qed.

(** *** Strings *)

Lemma parse_string_body_plain c r :
  Ascii.eqb c dquote = false → Ascii.eqb c "\" = false →
  (N_of_ascii c <? 32)%N = false →
  parse_string_body (c :: r) =
    match parse_string_body r with
    | Some (body, rest) => Some (c :: body, rest)
    | None => None
    end.
Proof. intros H1 H2 H3. cbn [parse_string_body]. by rewrite H1, H2, H3. Qed.

Lemma parse_string_body_simple e x r :
  Ascii.eqb e "u" = false → unescape e = Some x →
  parse_string_body ("\"%char :: e :: r) =
    match parse_string_body r with
    | Some (body, rest) => Some (x :: body, rest)
    | None => None
    end.
Proof.
  intros H1 H2. cbn [parse_string_body].
  change (Ascii.eqb "\" dquote) with false.
  change (Ascii.eqb "\" "\") with true. cbn iota. by rewrite H1, H2.
Qed.

Lemma parse_string_body_unicode h1 h2 h3 h4 n r :
  hex4 h1 h2 h3 h4 = Some n →
  parse_string_body ("\"%char :: "u"%char :: h1 :: h2 :: h3 :: h4 :: r) =
    match parse_string_body r with
    | Some (body, rest) => Some (utf8 n ++ body, rest)
    | None => None
    end.
Proof.
  intros H. cbn [parse_string_body].
  change (Ascii.eqb "\" dquote) with false.
  change (Ascii.eqb "\" "\") with true.
  change (Ascii.eqb "u" "u") with true. cbn iota. by rewrite H.
Qed.

Lemma parse_string_body_escape c body r rest :
  parse_string_body r = Some (body, rest) →
  parse_string_body (escape_char c ++ r) = Some (c :: body, rest).
Proof.
  intros H.
  destruct c as [[] [] [] [] [] [] [] []];
    match goal with
    | |- context [escape_char ?c] =>
        let e := eval vm_compute in (escape_char c) in
        change (escape_char c) with e
    end;
    cbn [app];
    first
      [ rewrite parse_string_body_plain by (vm_compute; reflexivity)
      | erewrite parse_string_body_unicode by (vm_compute; reflexivity)
      | erewrite parse_string_body_simple by (vm_compute; reflexivity) ];
    rewrite H; reflexivity.
Qed.

Lemma parse_string_quote s rest :
  parse_string (flat_map escape_char (chars s) ++ dquote :: rest) =
  Some (s, rest).
Proof.
  unfold parse_string.
  assert (parse_string_body (flat_map escape_char (chars s) ++ dquote :: rest)
          = Some (chars s, rest)) as ->.
  { induction (chars s) as [|c l IH]; [done|].
    simpl. rewrite <- app_assoc. by apply parse_string_body_escape. }
  by rewrite string_of_chars.
Qed.

(** *** Numbers *)

Lemma print_number_int n :
  print_number (inject_Z n) =
  (if (n <? 0)%Z then ["-"%char] else []) ++
  chars_of_uint (N.to_uint (Z.abs_N n)).
Proof.
  unfold print_number. cbn [Qnum Qden inject_Z].
  by rewrite N.div_1_r, N.mod_1_r, app_nil_r.
Qed.

Lemma digit_of_char_number_start c :
  is_Some (digit_of_char c) → number_start c = true.
Proof.
  destruct c as [[] [] [] [] [] [] [] []]; vm_compute;
    intros [? H]; (discriminate H || reflexivity).
Qed.

Lemma chars_of_uint_head u :
  u ≠ Decimal.Nil →
  ∃ c r, chars_of_uint u = c :: r ∧ is_Some (digit_of_char c) ∧
         Ascii.eqb c "-" = false.
Proof.
  destruct u; [done|..]; intros _; eexists _, _;
    (split; [reflexivity|split; [by eexists|reflexivity]]).
Qed.

Lemma scan_uint_chars u rest :
  match rest with [] => True | c :: _ => digit_of_char c = None end →
  scan_uint (chars_of_uint u ++ rest) = (u, rest).
Proof.
  intros Hrest. induction u; cbn [chars_of_uint app scan_uint];
    [|unfold digit_of_char at 1; cbn [Ascii.eqb Bool.eqb andb]; by rewrite IHu..].
  destruct rest as [|c rest]; [done|]. cbn [scan_uint]. by rewrite Hrest.
Qed.

Lemma to_uint_not_nil a : N.to_uint a ≠ Decimal.Nil.
Proof.
  destruct a as [|p]; [done|]. apply DecimalPos.Unsigned.to_uint_nonnil.
Qed.

Lemma nzhead_no_leading_zero d :
  match Decimal.nzhead d with Decimal.D0 _ => False | _ => True end.
Proof. induction d; simpl; auto. Qed.

Lemma to_uint_no_leading_zero a : leading_zero (N.to_uint a) = false.
Proof.
  rewrite <- (DecimalN.Unsigned.of_to a) at 1.
  rewrite DecimalN.Unsigned.to_of. unfold Decimal.unorm.
  pose proof (nzhead_no_leading_zero (N.to_uint a)) as H.
  by destruct (Decimal.nzhead (N.to_uint a)).
Qed.




Lemma strip_minus_digits u rest :
  u ≠ Decimal.Nil →
  strip_minus (chars_of_uint u ++ rest) = (false, chars_of_uint u ++ rest).
Proof.
  intros Hnil. destruct (chars_of_uint_head u Hnil) as (c & r & Hc & _ & Hm).
  rewrite Hc. cbn [app strip_minus]. by rewrite Hm.
Qed.


(** *** Values *)

Lemma jsval_nested_ind (P : jsval → Prop) :
  P JNull → (∀ b, P (JBool b)) → (∀ n, P (JNum n)) → (∀ s, P (JStr s)) →
  (∀ elems, Forall P elems → P (JArr elems)) →
  (∀ props, Forall (λ kv, P kv.2) props → P (JObj props)) →
  ∀ v, P v.
Proof.
  intros HNull HBool HNum HStr HArr HObj. fix IH 1.
  intros [|b|n|s|elems|props].
  - exact HNull.
  - apply HBool.
  - apply HNum.
  - apply HStr.
  - apply HArr. revert elems. fix IHl 1. intros [|e elems].
    + constructor.
    + constructor; [apply IH|apply IHl].
  - apply HObj. revert props. fix IHl 1. intros [|[k e] props].
    + constructor.
    + constructor; [apply IH|apply IHl].
Qed.

Lemma value_start_facts c :
  value_start c = true →
  is_ws c = false ∧ Ascii.eqb c "]" = false ∧ Ascii.eqb c "}" = false.
Proof.
  destruct c as [[] [] [] [] [] [] [] []]; vm_compute;
    intros H; (discriminate H || done).
Qed.

Lemma number_start_value_start c : number_start c = true → value_start c = true.
Proof.
  destruct c as [[] [] [] [] [] [] [] []]; vm_compute;
    intros H; (discriminate H || done).
Qed.

Lemma print_number_head q :
  ∃ c r, print_number q = c :: r ∧ number_start c = true.
Proof.
  unfold print_number. destruct (Qnum q <? 0)%Z.
  - by eexists _, _.
  - cbn [app].
    destruct (chars_of_uint_head _ (to_uint_not_nil (Z.abs_N (Qnum q) / N.pos (Qden q))))
      as (c & r & Hc & Hd & _).
    rewrite Hc. eexists _, _. split; [done|].
    by apply digit_of_char_number_start.
Qed.


Lemma skip_ws_value_start c r : value_start c = true → skip_ws (c :: r) = c :: r.
Proof. intros H. cbn [skip_ws]. by destruct (value_start_facts c H) as [-> _]. Qed.


Lemma parse_value_number fuel c r :
  number_start c = true →
  parse_value (S fuel) (c :: r) =
    match parse_number (c :: r) with
    | Some (n, r') => Some (JNum n, r')
    | None => None
    end.
Proof.
  destruct c as [[] [] [] [] [] [] [] []];
    intros H; (discriminate H || reflexivity).
Qed.

Lemma parse_value_string fuel r :
  parse_value (S fuel) (dquote :: r) =
    match parse_string r with
    | Some (str, r') => Some (JStr str, r')
    | None => None
    end.
Proof. reflexivity. Qed.

Lemma parse_value_array fuel r :
  parse_value (S fuel) ("["%char :: r) =
    match skip_ws r with
    | c2 :: r2 =>
        if Ascii.eqb c2 "]" then Some (JArr [], r2)
        else parse_elements fuel r []
    | [] => None
    end.
Proof. reflexivity. Qed.

Lemma parse_value_object fuel r :
  parse_value (S fuel) ("{"%char :: r) =
    match skip_ws r with
    | c2 :: r2 =>
        if Ascii.eqb c2 "}" then Some (JObj [], r2)
        else parse_members fuel r []
    | [] => None
    end.
Proof. reflexivity. Qed.




Lemma obj_set_fresh k v props :
  k ∉ props.*1 → array_index k = None → obj_set k v props = props ++ [(k, v)].
Proof. intros Hk Hi. unfold obj_set. by rewrite decide_False, Hi. Qed.



Lemma join_comma_head x l : ∃ tail, join_comma (x :: l) = x ++ tail.
Proof.
  destruct l as [|y l].
  - exists []. by rewrite app_nil_r.
  - by eexists.
Qed.

Lemma plain_integer n : plain (JNum n) = true → n = inject_Z (Qnum n).
Proof.
  intros H%bool_decide_eq_true. destruct n as [a d]. simpl in *. by subst.
Qed.

Lemma forallb_Forall {A} (f : A → bool) l :
  forallb f l = true → Forall (λ x, f x = true) l.
Proof.
  induction l as [|x l IH]; [constructor|]. simpl.
  intros [Hx Hl]%andb_prop. constructor; auto.
Qed.

Lemma plain_elements elems :
  plain (JArr elems) = true → Forall (λ e, plain e = true) elems.
Proof. apply forallb_Forall. Qed.

Lemma plain_members props :
  plain (JObj props) = true →
  NoDup props.*1 ∧ Forall (λ kv, array_index kv.1 = None) props ∧
  Forall (λ kv, plain kv.2 = true) props.
Proof.
  cbn [plain]. intros [Hnd Hall]%andb_prop.
  apply bool_decide_eq_true in Hnd. split; [done|].
  apply forallb_Forall in Hall.
  split; (eapply Forall_impl; [exact Hall|]); intros [k e] H; simpl;
    apply andb_prop in H as [H1 H2]; [|done].
  by apply bool_decide_eq_true in H1.
Qed.





(** ** The fuel of the parser is never short *)

Lemma skip_ws_length s : (length (skip_ws s) ≤ length s)%nat.
Proof.
  induction s as [|c s IH]; [done|]. cbn [skip_ws].
  destruct (is_ws c); simpl; lia.
Qed.

Lemma parse_string_body_length n : ∀ s body rest,
  (length s ≤ n)%nat →
  parse_string_body s = Some (body, rest) → (length rest < length s)%nat.
Proof.
  induction n as [|n IH]; intros s body rest Hn H.
  - destruct s; [done|simpl in Hn; lia].
  - destruct s as [|c r]; [done|]. cbn [parse_string_body] in H.
    destruct (Ascii.eqb c dquote); [injection H as <- <-; simpl; lia|].
    destruct (Ascii.eqb c "\").
    + destruct r as [|e r1]; [done|].
      destruct (Ascii.eqb e "u").
      * destruct r1 as [|h1 [|h2 [|h3 [|h4 r2]]]]; try done.
        destruct (hex4 h1 h2 h3 h4); [|done].
        destruct (parse_string_body r2) as [[b r']|] eqn:E; [|done].
        injection H as <- <-. apply IH in E; simpl in *; lia.
      * destruct (unescape e); [|done].
        destruct (parse_string_body r1) as [[b r']|] eqn:E; [|done].
        injection H as <- <-. apply IH in E; simpl in *; lia.
    + destruct (N_of_ascii c <? 32)%N; [done|].
      destruct (parse_string_body r) as [[b r']|] eqn:E; [|done].
      injection H as <- <-. apply IH in E; simpl in *; lia.
Qed.

Lemma parse_string_length s str rest :
  parse_string s = Some (str, rest) → (length rest < length s)%nat.
Proof.
  unfold parse_string. destruct (parse_string_body s) as [[b r]|] eqn:E; [|done].
  intros [= <- <-]. by eapply parse_string_body_length.
Qed.

Lemma scan_uint_length s u r :
  scan_uint s = (u, r) → (length r + uint_length u = length s)%nat.
Proof.
  revert u r. induction s as [|c s IH]; intros u r H.
  - injection H as <- <-. done.
  - cbn [scan_uint] in H. destruct (digit_of_char c) as [d|] eqn:Ed.
    + destruct (scan_uint s) as [u' r'] eqn:E. injection H as <- <-.
      specialize (IH _ _ eq_refl). unfold digit_of_char in Ed.
      repeat (case_match; [injection Ed as <-; unfold uint_length in *; simpl; lia|]).
      done.
    + injection H as <- <-. unfold uint_length. simpl. lia.
Qed.

Lemma parse_number_length s q rest :
  parse_number s = Some (q, rest) → (length rest < length s)%nat.
Proof.
  unfold parse_number.
  destruct (strip_minus s) as [neg s1] eqn:Hs.
  assert (length s1 ≤ length s)%nat as H1.
  { unfold strip_minus in Hs. destruct s as [|c r]; [by injection Hs as <- <-|].
    destruct (Ascii.eqb c "-"); injection Hs as <- <-; simpl; lia. }
  destruct (scan_uint s1) as [ui s2] eqn:Hscan.
  apply scan_uint_length in Hscan.
  intros H.
  assert (ui ≠ Decimal.Nil) as Hnil by (by destruct ui).
  assert (0 < uint_length ui)%nat as Hpos
    by (destruct ui; [done|..]; unfold uint_length; simpl; lia).
  assert (∃ uf s3 e, parse_frac s2 = Some (uf, s3) ∧
                     parse_exp s3 = Some (e, rest)) as (uf & s3 & e & Hf & He).
  { destruct ui; try done;
      destruct (leading_zero _); try done;
      destruct (parse_frac s2) as [[uf s3]|]; try done;
      destruct (parse_exp s3) as [[e s4]|] eqn:He; try done;
      injection H as _ <-; eauto. }
  assert (length s3 ≤ length s2)%nat as H3.
  { unfold parse_frac in Hf. destruct s2 as [|c r]; [by injection Hf as _ <-|].
    destruct (Ascii.eqb c ".").
    - destruct (scan_uint r) as [u r'] eqn:E. apply scan_uint_length in E.
      destruct u; try done; injection Hf as _ <-; simpl; lia.
    - injection Hf as _ <-. done. }
  assert (length rest ≤ length s3)%nat as H4.
  { unfold parse_exp in He. destruct s3 as [|c r]; [by injection He as _ <-|].
    destruct (Ascii.eqb c "e" || Ascii.eqb c "E").
    - destruct (match r with
                | [] => (false, r)
                | c1 :: r' =>
                    if Ascii.eqb c1 "-" then (true, r')
                    else if Ascii.eqb c1 "+" then (false, r') else (false, r)
                end) as [ng r1] eqn:Er.
      assert (length r1 ≤ length r)%nat.
      { destruct r as [|c1 r']; [by injection Er as _ <-|].
        destruct (Ascii.eqb c1 "-"); [injection Er as _ <-; simpl; lia|].
        destruct (Ascii.eqb c1 "+"); injection Er as _ <-; simpl; lia. }
      destruct (scan_uint r1) as [u r2] eqn:E. apply scan_uint_length in E.
      destruct u; try done; injection He as _ <-; simpl; lia.
    - injection He as _ <-. done. }
  lia.
Qed.

Lemma parse_value_S fuel s :
  parse_value (S fuel) s =
  parse_value_body (parse_elements fuel) (parse_members fuel) s.
Proof. reflexivity. Qed.

Lemma parse_value_body_cases elements members s v r :
  parse_value_body elements members s = Some (v, r) →
  ((length r < length s)%nat ∧
   ∀ elements' members', parse_value_body elements' members' s = Some (v, r)) ∨
  (∃ r0, (length r0 < length s)%nat ∧ elements r0 [] = Some (v, r) ∧
         ∀ elements' members',
           parse_value_body elements' members' s = elements' r0 []) ∨
  (∃ r0, (length r0 < length s)%nat ∧ members r0 [] = Some (v, r) ∧
         ∀ elements' members',
           parse_value_body elements' members' s = members' r0 []).
Proof.
  unfold parse_value_body. pose proof (skip_ws_length s) as Hs.
  destruct (skip_ws s) as [|c r0]; [done|]. simpl in Hs.
  destruct (Ascii.eqb c "{").
  { pose proof (skip_ws_length r0) as Hr0.
    destruct (skip_ws r0) as [|c2 r2]; [done|]. simpl in Hr0.
    destruct (Ascii.eqb c2 "}").
    - intros [= <- <-]. left. split; [lia|done].
    - intros H. right. right. exists r0. split; [lia|done]. }
  destruct (Ascii.eqb c "[").
  { pose proof (skip_ws_length r0) as Hr0.
    destruct (skip_ws r0) as [|c2 r2]; [done|]. simpl in Hr0.
    destruct (Ascii.eqb c2 "]").
    - intros [= <- <-]. left. split; [lia|done].
    - intros H. right. left. exists r0. split; [lia|done]. }
  destruct (Ascii.eqb c dquote).
  { destruct (parse_string r0) as [[str r']|] eqn:E; [|done].
    apply parse_string_length in E. intros [= <- <-]. left. split; [lia|done]. }
  destruct (Ascii.eqb c "t").
  { destruct r0 as [|c1 [|c2 [|c3 r']]]; try done.
    destruct (_ && _); [|done]. intros [= <- <-]. left.
    split; [simpl in *; lia|done]. }
  destruct (Ascii.eqb c "f").
  { destruct r0 as [|c1 [|c2 [|c3 [|c4 r']]]]; try done.
    destruct (_ && _); [|done]. intros [= <- <-]. left.
    split; [simpl in *; lia|done]. }
  destruct (Ascii.eqb c "n").
  { destruct r0 as [|c1 [|c2 [|c3 r']]]; try done.
    destruct (_ && _); [|done]. intros [= <- <-]. left.
    split; [simpl in *; lia|done]. }
  destruct (parse_number (c :: r0)) as [[n r']|] eqn:E; [|done].
  apply parse_number_length in E. intros [= <- <-]. left.
  split; [simpl in *; lia|done].
Qed.

Lemma fuel_free_all fuel :
  fuel_free (λ f s (_ : unit), parse_value f s) fuel ∧
  fuel_free parse_elements fuel ∧
  fuel_free parse_members fuel.
Proof.
  induction fuel as [|fuel (IHv & IHe & IHm)]; [by split_and!|].
  split_and!.
  - intros s [] v r H. rewrite parse_value_S in H.
    destruct (parse_value_body_cases _ _ _ _ _ H)
      as [[Hlen Hall]|[(r0 & Hr0 & He & Hall)|(r0 & Hr0 & Hm & Hall)]].
    + split; [done|]. intros [|F] HF; [lia|]. rewrite parse_value_S. apply Hall.
    + destruct (IHe _ _ _ _ He) as [Hlen Hfree]. split; [lia|].
      intros [|F] HF; [lia|]. rewrite parse_value_S, Hall. apply Hfree. lia.
    + destruct (IHm _ _ _ _ Hm) as [Hlen Hfree]. split; [lia|].
      intros [|F] HF; [lia|]. rewrite parse_value_S, Hall. apply Hfree. lia.
  - intros s acc v r H. cbn [parse_elements] in H.
    destruct (parse_value fuel s) as [[v1 r1]|] eqn:E1; [|done].
    destruct (IHv s () v1 r1 E1) as [Hlen1 Hfree1].
    pose proof (skip_ws_length r1) as Hws.
    destruct (skip_ws r1) as [|c r'] eqn:Er1; [done|]. simpl in Hws.
    destruct (Ascii.eqb c ",") eqn:Ec.
    + destruct (IHe _ _ _ _ H) as [Hlen2 Hfree2]. split; [lia|].
      intros [|F] HF; [lia|]. cbn [parse_elements].
      rewrite (Hfree1 F) by lia. rewrite Er1, Ec. apply Hfree2. lia.
    + destruct (Ascii.eqb c "]") eqn:Ec2; [|done]. injection H as <- <-.
      split; [lia|]. intros [|F] HF; [lia|]. cbn [parse_elements].
      rewrite (Hfree1 F) by lia. by rewrite Er1, Ec, Ec2.
  - intros s acc v r H. cbn [parse_members] in H.
    pose proof (skip_ws_length s) as Hws0.
    destruct (skip_ws s) as [|c r0] eqn:Es; [done|]. simpl in Hws0.
    destruct (Ascii.eqb c dquote) eqn:Ec; [|done].
    destruct (parse_string r0) as [[k r1]|] eqn:Ek; [|done].
    pose proof (parse_string_length _ _ _ Ek) as Hk.
    pose proof (skip_ws_length r1) as Hws1.
    destruct (skip_ws r1) as [|c1 r2] eqn:Er1; [done|]. simpl in Hws1.
    destruct (Ascii.eqb c1 ":") eqn:Ec1; [|done].
    destruct (parse_value fuel r2) as [[v1 r3]|] eqn:E1; [|done].
    destruct (IHv r2 () v1 r3 E1) as [Hlen1 Hfree1].
    pose proof (skip_ws_length r3) as Hws3.
    destruct (skip_ws r3) as [|c3 r4] eqn:Er3; [done|]. simpl in Hws3.
    destruct (Ascii.eqb c3 ",") eqn:Ec3.
    + destruct (IHm _ _ _ _ H) as [Hlen2 Hfree2]. split; [lia|].
      intros [|F] HF; [lia|]. cbn [parse_members].
      rewrite Es, Ec, Ek, Er1, Ec1. rewrite (Hfree1 F) by lia.
      rewrite Er3, Ec3. apply Hfree2. lia.
    + destruct (Ascii.eqb c3 "}") eqn:Ec4; [|done]. injection H as <- <-.
      split; [lia|]. intros [|F] HF; [lia|]. cbn [parse_members].
      rewrite Es, Ec, Ek, Er1, Ec1. rewrite (Hfree1 F) by lia.
      by rewrite Er3, Ec3, Ec4.
Qed.

(** A text that some fuel reads as a value, with only white space after it,
    is read by [JSON_parse] as that value. *)
Lemma JSON_parse_any_fuel text fuel v r :
  parse_value fuel (chars text) = Some (v, r) → skip_ws r = [] →
  JSON_parse text = Some v.
Proof.
  intros H Hr. destruct (fuel_free_all fuel) as (Hv & _ & _).
  destruct (Hv _ () _ _ H) as [Hlen Hfree]. unfold JSON_parse.
  rewrite (Hfree (S (length (chars text)))) by lia. by rewrite Hr.
Qed.

(** ** Blank texts *)

Lemma parse_value_not_start fuel c r :
  is_ws c = false → value_start c = false → parse_value fuel (c :: r) = None.
Proof.
  destruct fuel as [|fuel]; [done|].
  destruct c as [[] [] [] [] [] [] [] []];
    intros H1 H2; (discriminate H1 || discriminate H2 || reflexivity).
Qed.

Lemma is_blank_chars_head c r :
  is_blank_chars (c :: r) = true →
  (is_ws c = true ∧ is_blank_chars r = true) ∨
  (is_ws c = false ∧ value_start c = false).
Proof.
  destruct c as [[] [] [] [] [] [] [] []];
    first [ by (intros H; left)
          | by (intros _; right)
          | by destruct r as [|c2 [|c3 r3]] ].
Qed.

Lemma parse_value_blank fuel s :
  is_blank_chars s = true → parse_value fuel s = None.
Proof.
  induction s as [|c r IH]; intros H.
  - by destruct fuel.
  - destruct (is_blank_chars_head c r H) as [[Hws Hr]|[Hws Hstart]].
    + rewrite <- parse_value_skip_ws. cbn [skip_ws]. rewrite Hws.
      rewrite parse_value_skip_ws. by apply IH.
    + by apply parse_value_not_start.
Qed.

Lemma JSON_parse_blank text : is_blank text = true → JSON_parse text = None.
Proof.
  intros H. unfold JSON_parse. by rewrite (parse_value_blank _ _ H).
Qed.

(** ** Objects *)

Lemma obj_get_replace k k' v props :
  obj_get k' (obj_replace k v props) =
    if decide (k' = k) then (if decide (k ∈ props.*1) then Some v else None)
    else obj_get k' props.
Proof.
  induction props as [|[k0 v0] props IH].
  - cbn [obj_get obj_replace]. destruct (decide (k' = k)); [|done].
    destruct (decide (k ∈ [].*1)) as [Hin|]; [|done].
    by apply elem_of_nil in Hin.
  - cbn [obj_get obj_replace]. rewrite fmap_cons. cbn [fst].
    destruct (decide (k0 = k)) as [->|Hne]; cbn [obj_get].
    + destruct (decide (k = k')) as [->|Hne'].
      * rewrite decide_True by done.
        by rewrite decide_True by apply list_elem_of_here.
      * by rewrite decide_False by congruence.
    + rewrite IH. destruct (decide (k' = k)) as [->|Hne'].
      * rewrite decide_False by done.
        destruct (decide (k ∈ props.*1)) as [Hin|Hnin].
        -- by rewrite decide_True by (by apply list_elem_of_further).
        -- rewrite decide_False; [done|].
           intros [?|?]%elem_of_cons; congruence.
      * done.
Qed.

Lemma obj_get_None k props : k ∉ props.*1 → obj_get k props = None.
Proof.
  induction props as [|[k0 v0] props IH]; simpl; [done|].
  intros Hnin. rewrite decide_False.
  - apply IH. intros ?. apply Hnin. by apply list_elem_of_further.
  - intros ->. apply Hnin. apply list_elem_of_here.
Qed.

Lemma obj_get_cons k k' v props :
  obj_get k' ((k, v) :: props) =
    if decide (k' = k) then Some v else obj_get k' props.
Proof. cbn [obj_get]. repeat case_decide; congruence. Qed.

Lemma obj_get_insert_index n k k' v props :
  k ∉ props.*1 →
  obj_get k' (obj_insert_index n k v props) =
    if decide (k' = k) then Some v else obj_get k' props.
Proof.
  induction props as [|[k0 v0] props IH]; intros Hnin.
  - apply obj_get_cons.
  - assert (k0 ≠ k) as Hk0 by (intros ->; apply Hnin, list_elem_of_here).
    assert (k ∉ props.*1) as Hnin'
      by (intros ?; by apply Hnin, list_elem_of_further).
    cbn [obj_insert_index].
    destruct (array_index k0); [destruct (n <? n0)%N|];
      try apply obj_get_cons.
    rewrite !obj_get_cons, (IH Hnin'). repeat case_decide; congruence.
Qed.

Lemma obj_get_app k props1 props2 :
  obj_get k (props1 ++ props2) =
    match obj_get k props1 with
    | Some x => Some x
    | None => obj_get k props2
    end.
Proof.
  induction props1 as [|[k0 v0] props1 IH]; simpl; [done|].
  by case_decide.
Qed.

Lemma obj_get_set k k' v props :
  obj_get k' (obj_set k v props) =
    if decide (k' = k) then Some v else obj_get k' props.
Proof.
  unfold obj_set. destruct (decide (k ∈ props.*1)) as [Hin|Hnin].
  - rewrite obj_get_replace. by rewrite (decide_True _ _ Hin).
  - destruct (array_index k).
    + by apply obj_get_insert_index.
    + rewrite obj_get_app. simpl.
      destruct (decide (k' = k)) as [->|Hne].
      * rewrite (obj_get_None _ _ Hnin). by rewrite decide_True.
      * rewrite decide_False by done. by destruct (obj_get k' props).
Qed.

Lemma obj_get_spread k target source :
  obj_get k (spread target source) =
    match last_entry k (own_entries source) with
    | Some x => Some x
    | None => obj_get k target
    end.
Proof.
  unfold spread, last_entry. generalize (own_entries source) as es.
  intros es. revert target. induction es as [|[k0 v0] es IH]; intros target.
  - done.
  - cbn [fold_left]. rewrite IH, reverse_cons, obj_get_app, obj_get_set.
    rewrite obj_get_cons. cbn [obj_get fst snd].
    destruct (obj_get k (reverse es)); [done|]. by case_decide.
Qed.

(** ** Merging over the defaults *)

Lemma spread_defaults :
  spread [] (Some (PlannerData_toJS DEFAULT_DATA)) =
  PlannerData_props DEFAULT_DATA.
Proof. by vm_compute. Qed.

Lemma spread_default_groups :
  spread [] (Some (JObj (Groups_props (items DEFAULT_DATA)))) =
  Groups_props (items DEFAULT_DATA).
Proof. by vm_compute. Qed.

Lemma merge_with_defaults_non_null v :
  v ≠ JNull → is_Some (merge_with_defaults v).
Proof.
  intros Hv. unfold merge_with_defaults.
  destruct v; simpl; [done|by eexists..].
Qed.

Lemma merge_with_defaults_null : merge_with_defaults JNull = None.
Proof. done. Qed.

Lemma merge_with_defaults_merged v r :
  merge_with_defaults v = Some r → merged_over_defaults v r.
Proof.
  unfold merge_with_defaults. destruct (get_items v) as [pitems|] eqn:Hit; [|done].
  intros [= <-]. eexists _, _, pitems. split_and!; [done..| | |].
  - by rewrite obj_get_set, decide_True.
  - intros k Hk. rewrite obj_get_set, decide_False by done.
    by rewrite obj_get_spread, spread_defaults.
  - intros k. rewrite obj_get_spread.
    change (Groups_props empty_groups) with (Groups_props (items DEFAULT_DATA)).
    by rewrite spread_default_groups.
Qed.

Lemma merged_over_defaults_populated v r :
  merged_over_defaults v r → populated r.
Proof.
  intros (props & its & pitems & -> & _ & Hits & Htop & Hgroups).
  exists props, its. split_and!; [done| | |done|].
  - rewrite Htop by done. by destruct (last_entry _ _).
  - rewrite Htop by done. by destruct (last_entry _ _).
  - intros g. rewrite Hgroups. destruct (last_entry _ _); [done|].
    by destruct g.
Qed.

Lemma JSON_parse_empty : JSON_parse "" = None.
Proof. done. Qed.

Lemma handleImportData_unparsable s prev :
  JSON_parse s = None → handleImportData s prev = prev.
Proof. intros H. unfold handleImportData. by rewrite H. Qed.

Lemma handleImportData_parsed s prev v :
  JSON_parse s = Some v → v ≠ JNull →
  merge_with_defaults v = Some (handleImportData s prev).
Proof.
  intros H Hv. unfold handleImportData. rewrite H.
  by destruct (merge_with_defaults_non_null v Hv) as [r ->].
Qed.

(** C5. The text [null] is valid JSON and is not blank, so a click on the
    import button submits it; yet the import does not replace the document.
    Reading [imported.items] of [null] throws, the [catch] of
    [handleImportData] swallows the error and the document stays as it was,
    whatever it was, while the modal clears its text and closes without a
    message. Merging [null] over the defaults as a spread does would have
    given the default document. *)
Theorem import_null_keeps_document (data : jsval) :
  JSON_parse "null" = Some JNull ∧
  is_blank "null" = false ∧
  merge_with_defaults JNull = None ∧
  handleImportData "null" data = data ∧
  handleImport (mkModalState "null" None true) data =
    (mkModalState "" None false, data) ∧
  spread (PlannerData_props DEFAULT_DATA) (Some JNull) =
    PlannerData_props DEFAULT_DATA ∧
  PlannerData_toJS sample_data ≠ PlannerData_toJS DEFAULT_DATA.
Proof. split_and!; by vm_compute. Qed.

(** X29. What a click on the import button does. On a blank text
    (empty, or white space only; never valid JSON) the modal reports
    "Please paste JSON data to import"; on any other text that is not valid
    JSON it reports "Invalid JSON format. Please check your data."; in both
    cases the document is left exactly as it was. On a valid JSON text whose
    value is not [null] the import succeeds: the modal clears its error and
    closes, and the document becomes the parsed value merged over the
    defaults. [handleImportData] alone leaves the document unchanged on a
    text that does not parse, and merges on one that parses to a value other
    than [null]. *)
Theorem import_outcomes (m : ModalState) (data : jsval) :
  let text := importText m in
  let m' := (handleImport m data).1 in
  let data' := (handleImport m data).2 in
  (is_blank text = true →
     JSON_parse text = None ∧
     data' = data ∧ error m' = Some "Please paste JSON data to import") ∧
  (is_blank text = false → JSON_parse text = None →
     data' = data ∧
     error m' = Some "Invalid JSON format. Please check your data.") ∧
  (is_blank text = false → ∀ v, JSON_parse text = Some v → v ≠ JNull →
     error m' = None ∧ isOpen m' = false ∧
     merge_with_defaults v = Some data' ∧ merged_over_defaults v data') ∧
  (JSON_parse text = None → handleImportData text data = data) ∧
  (∀ v, JSON_parse text = Some v → v ≠ JNull →
     merge_with_defaults v = Some (handleImportData text data) ∧
     merged_over_defaults v (handleImportData text data)).
Proof.
  intros text m' data'. subst m' data'. unfold handleImport. fold text.
  split_and!.
  - intros Hb. split; [by apply JSON_parse_blank|]. by rewrite Hb.
  - intros -> Hp. by rewrite Hp.
  - intros -> v Hp Hv. rewrite Hp. simpl.
    pose proof (handleImportData_parsed text data v Hp Hv) as Hm.
    split_and!; [done..|]. by apply merge_with_defaults_merged.
  - apply handleImportData_unparsable.
  - intros v Hp Hv.
    pose proof (handleImportData_parsed text data v Hp Hv) as Hm.
    split; [done|]. by apply merge_with_defaults_merged.
Qed.

(** C8 as written fails: the built-in default document has a velocity
    baseline of 34, not zero. *)
Lemma default_velocity_not_zero :
  ¬ (∃ props, loadFromStorage None = JObj props ∧
              ∃ n, obj_get "velocity" props = Some (JNum n) ∧ n == 0).
Proof.
  intros (props & Hload & n & Hv & Hn). vm_compute in Hload.
  injection Hload as <-. vm_compute in Hv. injection Hv as <-.
  by vm_compute in Hn.
Qed.

(** C8, amended. When the persisted value is absent, or does not parse as
    JSON, [loadFromStorage] returns the built-in default document: the
    starter schedule S1..S5 (100, 95, 90, 80, 70 percent), a velocity of 34,
    and the seven groups, all empty; so it does when the text parses to
    [null]. When the persisted text parses to a value other than [null],
    the result is that value merged over the defaults field by field and
    group by group, so that [sprints], [velocity], [items] and every group
    key are there. *)
Theorem load_defaults_and_merge :
  loadFromStorage None = PlannerData_toJS DEFAULT_DATA ∧
  (∀ text, JSON_parse text = None →
     loadFromStorage (Some text) = PlannerData_toJS DEFAULT_DATA) ∧
  sprints DEFAULT_DATA =
    [mkSprint "s1" "S1" 100; mkSprint "s2" "S2" 95; mkSprint "s3" "S3" 90;
     mkSprint "s4" "S4" 80; mkSprint "s5" "S5" 70] ∧
  velocity DEFAULT_DATA = 34 ∧
  (∀ g, group_items (items DEFAULT_DATA) g = []) ∧
  populated (PlannerData_toJS DEFAULT_DATA) ∧
  (∀ text, JSON_parse text = Some JNull →
     loadFromStorage (Some text) = PlannerData_toJS DEFAULT_DATA) ∧
  (∀ text v, JSON_parse text = Some v → v ≠ JNull →
     merge_with_defaults v = Some (loadFromStorage (Some text)) ∧
     merged_over_defaults v (loadFromStorage (Some text)) ∧
     populated (loadFromStorage (Some text))).
Proof.
  split_and!; try done.
  - intros text Hp. unfold loadFromStorage. rewrite Hp. by case_decide.
  - by intros [].
  - eexists _, _. split_and!; [done|by eexists|by eexists|done|].
    intros []; by eexists.
  - intros text Hp. unfold loadFromStorage. rewrite Hp. by case_decide.
  - intros text v Hp Hv. unfold loadFromStorage.
    rewrite decide_False by (intros ->; by rewrite JSON_parse_empty in Hp).
    rewrite Hp. destruct (merge_with_defaults_non_null v Hv) as [r Hr].
    rewrite Hr. split; [done|].
    pose proof (merge_with_defaults_merged v r Hr) as Hm.
    split; [done|]. by eapply merged_over_defaults_populated.
Qed.

(** ** Export and import of a document *)








#[local] Instance SubItem_toJS_inj : Inj (=) (=) SubItem_toJS.
Proof. intros [] [] [= -> ->]. done. Qed.

#[local] Instance Sprint_toJS_inj : Inj (=) (=) Sprint_toJS.
Proof. intros [] [] [= -> -> ->]. done. Qed.

#[local] Instance Item_toJS_inj : Inj (=) (=) Item_toJS.
Proof.
  intros [i1 t1 s1 e1 d1 r1 o1] [i2 t2 s2 e2 d2 r2 o2] H.
  unfold Item_toJS in H. cbn [item_id item_text subItems epic domain
    requiredPoints optionalPoints] in H.
  injection H as -> -> Hsub Hrest. apply (inj (fmap SubItem_toJS)) in Hsub as ->.
  destruct e1, e2, d1, d2, r1, r2, o1, o2; simpl in Hrest;
    try discriminate Hrest; by simplify_eq.
Qed.




(** * Further properties of the handlers *)

(** ** Deleting, updating and duplicating items *)

Lemma whole_points_nonneg v : whole_points v → (0 ≤ points_Z v)%Z.
Proof.
  destruct v as [[]|]; cbn [whole_points points_Z]; try done.
  intros [H0 _]. change 0%Z with (Qfloor 0). by apply Qfloor_resp_le.
Qed.

Lemma whole_points_number v :
  whole_points v → (points_Z v < 2 ^ 53)%Z →
  number_or_zero v = Finite (inject_Z (points_Z v)).
Proof.
  intros Hw Hlt. pose proof (whole_points_nonneg v Hw) as H0.
  destruct v as [[]|]; cbn [whole_points points_Z number_or_zero] in *;
    try done.
  destruct Hw as [_ Hn]. rewrite (fl_comp _ _ Hn). apply fl_integer. lia.
Qed.

Lemma total_Z_nonneg (f : Item → option jsval) l :
  Forall (λ it, whole_points (f it)) l → (0 ≤ total_Z f l)%Z.
Proof.
  induction 1 as [|it l Hit _ IH]; [done|]. cbn [total_Z foldr].
  apply whole_points_nonneg in Hit. unfold total_Z in IH. lia.
Qed.

(** The totals of whole points are exact while they stay below [2^53]. *)
Lemma fold_whole_points (f : Item → option jsval) l a :
  Forall (λ it, whole_points (f it)) l →
  (0 ≤ a)%Z → (a + total_Z f l < 2 ^ 53)%Z →
  fold_left (λ sum item, fadd sum (number_or_zero (f item))) l
    (Finite (inject_Z a)) =
  Finite (inject_Z (a + total_Z f l)).
Proof.
  intros H. revert a. induction H as [|it l Hit Hl IH]; intros a Ha Hlt.
  - cbn [total_Z foldr fold_left]. by rewrite Z.add_0_r.
  - cbn [total_Z foldr fold_left] in *. fold (total_Z f l) in *.
    pose proof (whole_points_nonneg _ Hit) as H0.
    pose proof (total_Z_nonneg f l Hl) as Ht.
    rewrite (whole_points_number _ Hit) by lia.
    rewrite fadd_integer by lia. rewrite IH by lia. do 2 f_equal. lia.
Qed.

Lemma Forall_filter_keep {A} (Q P : A → Prop) `{∀ x, Decision (P x)} l :
  Forall Q l → Forall Q (filter P l).
Proof.
  rewrite !Forall_forall. intros H' x [_ Hx]%list_elem_of_filter.
  by apply H'.
Qed.

Lemma total_Z_filter_split (f : Item → option jsval) (P : Item → Prop)
    `{∀ x, Decision (P x)} l :
  total_Z f l =
  (total_Z f (filter P l) + total_Z f (filter (λ x, ¬ P x) l))%Z.
Proof.
  unfold total_Z. induction l as [|x l IH]; [done|].
  rewrite !filter_cons. destruct (decide (P x)) as [Hx|Hx].
  - rewrite decide_False by tauto. simpl. rewrite IH. lia.
  - rewrite decide_True by done. simpl. rewrite IH. lia.
Qed.

Lemma filter_id_all_iff itemId (l : list Item) :
  filter (λ item, item_id item ≠ itemId) l = l ↔ itemId ∉ item_id <$> l.
Proof.
  split.
  - intros Heq Hin. apply list_elem_of_fmap in Hin as (it & -> & Hit).
    rewrite <- Heq in Hit. apply list_elem_of_filter in Hit as [Hne _].
    by apply Hne.
  - intros Hni. apply filter_all, Forall_forall. intros it Hit Hid.
    apply Hni. rewrite <- Hid. apply list_elem_of_fmap. eauto.
Qed.

Lemma with_items_same_iff its prev :
  with_items its prev = prev ↔ its = items prev.
Proof.
  destruct prev as [sp v its0]. unfold with_items. simpl. split.
  - by intros [= ->].
  - by intros ->.
Qed.

Lemma set_group_inj g l l' its : set_group g l its = set_group g l' its → l = l'.
Proof.
  intros H. rewrite <- (group_items_set_same g l its), H.
  apply group_items_set_same.
Qed.

Lemma set_group_twice g l l' its :
  set_group g l (set_group g l' its) = set_group g l its.
Proof. by destruct g. Qed.

(** X1. [handleDeleteItem] removes from the group every item with the given
    id and nothing else: no item of the group has the id afterwards, the
    group keeps exactly its other items in their order, the other groups are
    untouched, deleting again changes nothing, and the document is unchanged
    exactly when the group holds no item with that id. *)
Theorem deleteItem_removes_exactly (g : GroupId) (itemId : string)
    (prev : PlannerData) :
  let next := handleDeleteItem g itemId prev in
  (itemId ∉ item_id <$> group_items (items next) g) ∧
  (∀ it, it ∈ group_items (items next) g ↔
         it ∈ group_items (items prev) g ∧ item_id it ≠ itemId) ∧
  group_items (items next) g `sublist_of` group_items (items prev) g ∧
  (∀ g', g' ≠ g →
         group_items (items next) g' = group_items (items prev) g') ∧
  handleDeleteItem g itemId next = next ∧
  (next = prev ↔ itemId ∉ (item_id <$> group_items (items prev) g)).
Proof.
  intros next. unfold next, handleDeleteItem. simpl.
  rewrite !group_items_set_same.
  set (l := group_items (items prev) g). split_and!.
  - intros Hin. apply list_elem_of_fmap in Hin as (it & -> & Hit).
    apply list_elem_of_filter in Hit as [Hne _]. by apply Hne.
  - intros it. rewrite list_elem_of_filter. tauto.
  - apply sublist_filter.
  - intros g' Hg'. by apply group_items_set_other.
  - unfold with_items. simpl. f_equal.
    assert (filter (λ item, item_id item ≠ itemId)
              (filter (λ item, item_id item ≠ itemId) l) =
            filter (λ item, item_id item ≠ itemId) l) as ->.
    { apply filter_all, Forall_forall. intros it Hit.
      by apply list_elem_of_filter in Hit as [Hne _]. }
    destruct g; reflexivity.
  - rewrite with_items_same_iff, <- filter_id_all_iff. split.
    + intros H. rewrite <- (set_group_same g (items prev)) in H at 2.
      by apply set_group_inj in H.
    + intros ->. apply set_group_same.
Qed.

(** X2. In a group whose point values are whole (a number that is a
    non-negative integer, or a value that is not a number) and whose totals
    are below [2^53], the required and the optional total are the whole
    totals of the items, and deleting an id lowers them by exactly the
    points of the items that had the id. The totals of every other group
    stay as they were, whatever the point values. *)
Theorem deleteItem_stats (g : GroupId) (itemId : string) (prev : PlannerData) :
  let l := group_items (items prev) g in
  let next := handleDeleteItem g itemId prev in
  let deleted := filter (λ item, ¬ item_id item ≠ itemId) l in
  Forall (λ it, whole_points (requiredPoints it) ∧
                whole_points (optionalPoints it)) l →
  (total_Z requiredPoints l < 2 ^ 53)%Z →
  (total_Z optionalPoints l < 2 ^ 53)%Z →
  calcStats g prev =
    mkStats (Finite (inject_Z (total_Z requiredPoints l)))
      (Finite (inject_Z (total_Z optionalPoints l))) ∧
  calcStats g next =
    mkStats
      (Finite (inject_Z (total_Z requiredPoints l -
                         total_Z requiredPoints deleted)))
      (Finite (inject_Z (total_Z optionalPoints l -
                         total_Z optionalPoints deleted))) ∧
  ∀ g', g' ≠ g → calcStats g' next = calcStats g' prev.
Proof.
  intros l next deleted Hwhole Hreq Hopt.
  assert (Forall (λ it, whole_points (requiredPoints it)) l) as Hwr
    by (eapply Forall_impl; [exact Hwhole|]; by intros ? [? _]).
  assert (Forall (λ it, whole_points (optionalPoints it)) l) as Hwo
    by (eapply Forall_impl; [exact Hwhole|]; by intros ? [_ ?]).
  set (kept := filter (λ item, item_id item ≠ itemId) l).
  assert (∀ f, Forall (λ it, whole_points (f it)) l →
               Forall (λ it, whole_points (f it)) kept ∧
               (0 ≤ total_Z f deleted)%Z ∧
               total_Z f kept = (total_Z f l - total_Z f deleted)%Z)
    as Hsplit.
  { intros f Hf. split_and!.
    - by apply Forall_filter_keep.
    - apply total_Z_nonneg. by apply Forall_filter_keep.
    - rewrite (total_Z_filter_split f (λ item, item_id item ≠ itemId) l).
      fold kept deleted. lia. }
  destruct (Hsplit _ Hwr) as (Hkr & Hdr & Her).
  destruct (Hsplit _ Hwo) as (Hko & Hdo & Heo).
  split_and!.
  - unfold calcStats. fold l. change (Finite 0) with (Finite (inject_Z 0)).
    by rewrite !fold_whole_points by (done || lia).
  - unfold next, handleDeleteItem, calcStats. cbn [items with_items].
    rewrite group_items_set_same. fold l kept.
    change (Finite 0) with (Finite (inject_Z 0)).
    rewrite !fold_whole_points by (done || lia). by rewrite Her, Heo.
  - intros g' Hg'. unfold next, handleDeleteItem, calcStats.
    cbn [items with_items]. by rewrite group_items_set_other.
Qed.

(** X3. [handleDuplicateItem] appends one clone to the group and touches
    nothing else: the items already there keep their places, the clone
    carries the first generated id, the epic, domain and point values of the
    original, and as many sub-items with the same texts; the group's totals
    grow by the points of the original, and the totals of the other groups
    do not change. *)
Theorem duplicateItem_appends_clone (genId : nat → string) (g : GroupId)
    (item : Item) (prev : PlannerData) :
  let next := handleDuplicateItem genId g item prev in
  ∃ clone,
    group_items (items next) g = group_items (items prev) g ++ [clone] ∧
    item_id clone = genId 0%nat ∧
    epic clone = epic item ∧ domain clone = domain item ∧
    requiredPoints clone = requiredPoints item ∧
    optionalPoints clone = optionalPoints item ∧
    sub_text <$> subItems clone = sub_text <$> subItems item ∧
    (∀ k, k < length (subItems item) →
          sub_id <$> subItems clone !! k = Some (genId (S k)))%nat ∧
    required (calcStats g next) =
      fadd (required (calcStats g prev))
        (number_or_zero (requiredPoints item)) ∧
    optional (calcStats g next) =
      fadd (optional (calcStats g prev))
        (number_or_zero (optionalPoints item)) ∧
    ∀ g', g' ≠ g →
          group_items (items next) g' = group_items (items prev) g'.
Proof.
  intros next. unfold next, handleDuplicateItem, calcStats.
  cbn [items with_items required optional].
  rewrite !group_items_set_same. eexists. split; [reflexivity|].
  cbn [item_id epic domain requiredPoints optionalPoints subItems].
  split_and!; try done.
  - generalize S. induction (subItems item) as [|s l IH]; intros f; [done|].
    simpl. f_equal. apply (IH (f ∘ S)).
  - intros k Hk. destruct (lookup_lt_is_Some_2 _ _ Hk) as [s Hs].
    by rewrite list_lookup_imap, Hs.
  - rewrite fold_left_app. simpl. reflexivity.
  - rewrite fold_left_app. simpl. reflexivity.
  - intros g' Hg'. by apply group_items_set_other.
Qed.

Lemma NoDup_snoc_fresh (x : string) l : NoDup l → x ∉ l → NoDup (l ++ [x]).
Proof.
  intros Hnd Hx. apply NoDup_app. split_and!; [done| |apply NoDup_singleton].
  intros y Hy Hy'. apply list_elem_of_singleton in Hy'. by subst.
Qed.

Lemma all_ids_snoc g it its :
  all_ids (set_group g (group_items its g ++ [it]) its) ≡ₚ
  all_ids its ++ [item_id it].
Proof.
  unfold all_ids. rewrite all_items_set_group.
  rewrite (all_items_split g its) at 1.
  rewrite !fmap_app. simpl. solve_Permutation.
Qed.

(** X4. When [generateId] returns an id that no item of the document has,
    [handleDuplicateItem] keeps the item ids of the document pairwise
    distinct. *)
Theorem duplicateItem_keeps_ids_unique (genId : nat → string) (g : GroupId)
    (item : Item) (prev : PlannerData) :
  NoDup (all_ids (items prev)) →
  genId 0%nat ∉ all_ids (items prev) →
  NoDup (all_ids (items (handleDuplicateItem genId g item prev))).
Proof.
  intros Hnd Hfresh. unfold handleDuplicateItem. simpl.
  rewrite all_ids_snoc. simpl. by apply NoDup_snoc_fresh.
Qed.

Lemma fmap_update_ids (f : Item → Item) (l : list Item) :
  (∀ it, item_id (f it) = item_id it) → item_id <$> (f <$> l) = item_id <$> l.
Proof.
  intros Hf. rewrite <- list_fmap_compose. apply list_fmap_ext.
  intros ? it _. apply Hf.
Qed.

(** X5. [handleUpdateItem] with updates that do not set [id] rewrites in
    place: the group keeps its length and its sequence of ids, every item
    with another id is left as it is, every item with the id gets the
    updates merged over it, the other groups are untouched, and the document
    is unchanged when the group holds no item with that id. *)
Theorem updateItem_in_place (g : GroupId) (itemId : string)
    (t : option string) (s : option (list SubItem))
    (e d : option (option string)) (r o : option (option jsval))
    (prev : PlannerData) :
  let updates := mkItemUpdates None t s e d r o in
  let next := handleUpdateItem g itemId updates prev in
  item_id <$> group_items (items next) g =
    item_id <$> group_items (items prev) g ∧
  (∀ k it, group_items (items prev) g !! k = Some it →
           group_items (items next) g !! k =
             Some (if decide (item_id it = itemId) then merge_item it updates
                   else it)) ∧
  (∀ g', g' ≠ g →
         group_items (items next) g' = group_items (items prev) g') ∧
  (itemId ∉ (item_id <$> group_items (items prev) g) → next = prev).
Proof.
  intros updates next. unfold next, handleUpdateItem. simpl.
  rewrite !group_items_set_same. split_and!.
  - apply fmap_update_ids. intros it. by case_decide.
  - intros k it Hk. by rewrite list_lookup_fmap, Hk.
  - intros g' Hg'. by apply group_items_set_other.
  - intros Hni. apply with_items_same_iff.
    transitivity (set_group g (group_items (items prev) g) (items prev));
      [|apply set_group_same].
    f_equal. etransitivity; [|apply list_fmap_id].
    apply list_fmap_ext. intros k it Hk. rewrite decide_False; [done|].
    intros Hid. apply Hni. rewrite <- Hid. apply list_elem_of_fmap.
    exists it. split; [done|]. by eapply list_elem_of_lookup_2.
Qed.
(** ** The domain breakdown on whole points *)

Lemma points_add_keys k pts t :
  (points_add k pts t).*1 = if decide (k ∈ t.*1) then t.*1 else t.*1 ++ [k].
Proof.
  induction t as [|[k' v] t IH].
  - destruct (decide (k ∈ [].*1)) as [H|H]; [|done]. by apply elem_of_nil in H.
  - cbn [points_add]. destruct (decide (k' = k)) as [->|Hne]; rewrite !fmap_cons.
    + rewrite decide_True; [done|]. apply list_elem_of_here.
    + rewrite IH. cbn [fst]. destruct (decide (k ∈ t.*1)) as [Hin|Hnin].
      * rewrite decide_True; [done|]. by apply list_elem_of_further.
      * rewrite decide_False; [done|].
        intros [?|?]%elem_of_cons; congruence.
Qed.

Lemma points_add_Forall (P : string → Z → Prop) k pts t :
  NoDup t.*1 →
  (∀ v, (k, v) ∈ t → P k (v + pts)%Z) →
  (∀ k' v, k' ≠ k → (k', v) ∈ t → P k' v) →
  (k ∉ t.*1 → P k pts) →
  Forall (λ kv, P kv.1 kv.2) (points_add k pts t).
Proof.
  induction t as [|[k' v] t IH]; intros Hnd Hsame Hother Hnew; simpl.
  - repeat constructor. apply Hnew. apply not_elem_of_nil.
  - apply NoDup_cons in Hnd as [Hk' Hnd]. simpl in Hk'.
    destruct (decide (k' = k)) as [->|Hne].
    + constructor.
      * apply Hsame. apply list_elem_of_here.
      * apply Forall_forall. intros [k2 v2] Hin. simpl.
        apply Hother; [|by apply list_elem_of_further].
        intros ->. apply Hk'. apply list_elem_of_fmap. by exists (k, v2).
    + constructor.
      * by apply Hother; [|apply list_elem_of_here].
      * apply IH; [done|..].
        -- intros v' Hin. apply Hsame. by apply list_elem_of_further.
        -- intros k2 v2 Hne2 Hin. apply Hother; [done|].
           by apply list_elem_of_further.
        -- intros Hnin. apply Hnew.
           intros [->|?]%elem_of_cons; [by apply Hne|by apply Hnin].
Qed.

Lemma points_add_sum k pts t :
  table_sum (points_add k pts t) = (table_sum t + pts)%Z.
Proof.
  unfold table_sum. induction t as [|[k' v] t IH]; simpl; [lia|].
  destruct (decide (k' = k)) as [->|Hne]; simpl; [lia|]. rewrite IH. lia.
Qed.

Lemma table_sum_bound (t : PointTable) :
  Forall (λ kv, (0 < kv.2)%Z) t →
  (0 ≤ table_sum t)%Z ∧ Forall (λ kv, (kv.2 ≤ table_sum t)%Z) t.
Proof.
  unfold table_sum. induction 1 as [|kv t Hkv _ [IH1 IH2]]; [done|].
  cbn [foldr]. split; [lia|]. constructor; [lia|].
  eapply Forall_impl; [exact IH2|]. intros kv' ?. simpl in *. lia.
Qed.

Lemma table_sum_Permutation (t1 t2 : PointTable) :
  t1 ≡ₚ t2 → table_sum t1 = table_sum t2.
Proof.
  unfold table_sum. induction 1; simpl; [done|by f_equal|lia|congruence].
Qed.

(** On a table of whole points and for a name that is not inherited, the
    assignment of the loop adds whole points, exactly. *)
Lemma domains_add_cells k pts t :
  k ∉ Object_prototype_names →
  Forall (λ kv, (0 < kv.2)%Z) t →
  (0 ≤ pts)%Z → (table_sum t + pts < 2 ^ 53)%Z →
  domains_add k (Finite (inject_Z pts)) (table_cells t) =
  table_cells (points_add k pts t).
Proof.
  intros Hk Ht Hpts. induction Ht as [|[k' v] t Hv Ht IH]; intros Hsum.
  - cbn [table_cells fmap list_fmap domains_add points_add].
    rewrite decide_False.
    2:{ intros ->. apply Hk.
        apply (bool_decide_unpack ("__proto__" ∈ Object_prototype_names)).
        by vm_compute. }
    rewrite decide_False by done.
    change (Finite 0) with (Finite (inject_Z 0)).
    change (table_sum []) with 0%Z in Hsum.
    rewrite fadd_integer by lia. done.
  - destruct (table_sum_bound t Ht) as [Hs0 _].
    change (table_sum ((k', v) :: t)) with (v + table_sum t)%Z in Hsum.
    simpl in Hv.
    cbn [table_cells fmap list_fmap domains_add points_add fst snd].
    case_decide as Hkk.
    + cbn [fmap list_fmap fst snd cell_add number_truthy].
      assert (Qeq_bool (inject_Z v) 0 = false) as ->.
      { apply not_true_iff_false. intros H%Qeq_bool_eq.
        change 0 with (inject_Z 0) in H.
        apply (proj1 (inject_Z_injective v 0)) in H. lia. }
      cbn [negb]. by rewrite fadd_integer by lia.
    + cbn [fmap list_fmap fst snd]. f_equal. apply IH. lia.
Qed.

Lemma domainPoints_app k l1 l2 :
  domainPoints k (l1 ++ l2) = (domainPoints k l1 + domainPoints k l2)%Z.
Proof.
  unfold domainPoints. induction l1 as [|it l1 IH]; simpl; [done|].
  case_decide; rewrite IH; lia.
Qed.

Lemma domainPoints_snoc k p it :
  domainPoints k (p ++ [it]) =
  (domainPoints k p +
   if decide (domain_or_unassigned it = k)
   then points_Z (requiredPoints it) else 0)%Z.
Proof.
  rewrite domainPoints_app. unfold domainPoints at 2. simpl.
  case_decide; lia.
Qed.

Lemma total_Z_app (f : Item → option jsval) l1 l2 :
  total_Z f (l1 ++ l2) = (total_Z f l1 + total_Z f l2)%Z.
Proof.
  unfold total_Z. induction l1 as [|it l1 IH]; simpl; [done|].
  rewrite IH. lia.
Qed.

Lemma total_Z_snoc (f : Item → option jsval) l it :
  total_Z f (l ++ [it]) = (total_Z f l + points_Z (f it))%Z.
Proof. rewrite total_Z_app. unfold total_Z at 2. cbn [foldr]. lia. Qed.

Lemma domainPoints_absent k l :
  Forall (λ it, (0 ≤ points_Z (requiredPoints it))%Z) l →
  (∀ it, it ∈ l → (0 < points_Z (requiredPoints it))%Z →
         domain_or_unassigned it ≠ k) →
  domainPoints k l = 0%Z.
Proof.
  unfold domainPoints. induction 1 as [|it l Hit _ IH]; intros H; [done|].
  simpl. rewrite IH.
  2:{ intros it' Hin. apply H. by apply list_elem_of_further. }
  case_decide as Hk; [|done].
  destruct (decide (0 < points_Z (requiredPoints it))%Z) as [Hpos|Hz]; [|lia].
  destruct (H it); [apply list_elem_of_here|done..].
Qed.

Lemma table_inv_nil : table_inv [] [].
Proof.
  split; simpl; try done.
  - constructor.
  - intros k. split.
    + by intros ?%elem_of_nil.
    + by intros (it & ?%elem_of_nil & _).
Qed.

(** An item with positive whole points is added under its domain. *)
Lemma table_inv_add p t it :
  table_inv p t →
  Forall (λ it, (0 ≤ points_Z (requiredPoints it))%Z) p →
  (0 < points_Z (requiredPoints it))%Z →
  table_inv (p ++ [it])
    (points_add (domain_or_unassigned it) (points_Z (requiredPoints it)) t).
Proof.
  intros [Hnd Hpts Hkeys Hsum] Hp Hpos.
  set (k := domain_or_unassigned it).
  set (pts := points_Z (requiredPoints it)) in *.
  split.
  - rewrite points_add_keys. case_decide; [done|].
    apply NoDup_app. split_and!; [done| |apply NoDup_singleton].
    intros x Hx ->%list_elem_of_singleton. done.
  - apply (points_add_Forall
             (λ k' v, v = domainPoints k' (p ++ [it]) ∧ (0 < v)%Z)); [done|..].
    + intros v Hin. rewrite Forall_forall in Hpts.
      destruct (Hpts _ Hin) as [Hv Hv0]. simpl in *.
      rewrite domainPoints_snoc. fold k pts. rewrite decide_True by done.
      split; lia.
    + intros k' v Hne Hin. rewrite Forall_forall in Hpts.
      destruct (Hpts _ Hin) as [Hv Hv0]. simpl in *.
      rewrite domainPoints_snoc. fold k. rewrite decide_False by done.
      split; lia.
    + intros Hnin. rewrite domainPoints_snoc. fold k pts.
      rewrite decide_True by done. rewrite domainPoints_absent; [split; lia|done|].
      intros it' Hin Hc Hk. apply Hnin, Hkeys. eauto.
  - intros k'. rewrite points_add_keys. split.
    + intros Hin.
      assert (k' ∈ t.*1 ∨ k' = k) as [Hold| ->].
      { case_decide; [by left|].
        apply elem_of_app in Hin as [?|?%list_elem_of_singleton]; auto. }
      * apply Hkeys in Hold as (it' & ? & ? & ?). exists it'.
        split_and!; [|done..]. apply elem_of_app. by left.
      * exists it. split_and!; [|done..].
        apply elem_of_app. right. apply list_elem_of_here.
    + intros (it' & Hin & Hc & Hk).
      apply elem_of_app in Hin as [Hin| ->%list_elem_of_singleton].
      * assert (k' ∈ t.*1) by (apply Hkeys; eauto).
        case_decide; [done|]. apply elem_of_app. by left.
      * fold k in Hk. subst k'. case_decide; [done|].
        apply elem_of_app. right. apply list_elem_of_here.
  - rewrite points_add_sum, Hsum, total_Z_app. unfold total_Z at 3.
    cbn [foldr]. fold pts. lia.
Qed.

(** An item without points leaves the table as it is. *)
Lemma table_inv_skip p t it :
  table_inv p t →
  points_Z (requiredPoints it) = 0%Z →
  table_inv (p ++ [it]) t.
Proof.
  intros [Hnd Hpts Hkeys Hsum] Hz. split; [done|..].
  - eapply Forall_impl; [exact Hpts|]. intros [k v] [Hv Hv0]. simpl in *.
    split; [|done]. rewrite domainPoints_snoc, Hz. case_decide; lia.
  - intros k. rewrite Hkeys. split.
    + intros (it' & ? & ? & ?). exists it'. split_and!; [|done..].
      apply elem_of_app. by left.
    + intros (it' & Hin & Hc & Hk).
      apply elem_of_app in Hin as [Hin| ->%list_elem_of_singleton]; [eauto|].
      lia.
  - rewrite Hsum, total_Z_app. unfold total_Z at 3. cbn [foldr]. lia.
Qed.

Lemma gt0_integer z : gt0 (Finite (inject_Z z)) = bool_decide (0 < z)%Z.
Proof.
  cbn [gt0]. apply eq_true_iff_eq.
  rewrite negb_true_iff, <- not_true_iff_false, Qle_bool_iff,
    bool_decide_eq_true.
  change 0 with (inject_Z 0). rewrite <- Zle_Qle. lia.
Qed.

(** The loop of [domainBreakdown] over items with whole required points
    and domains that are not inherited names. *)
Lemma fold_domain_step_whole l :
  Forall (λ it, whole_points (requiredPoints it)) l →
  (total_Z requiredPoints l < 2 ^ 53)%Z →
  Forall (λ it, (0 < points_Z (requiredPoints it))%Z →
                domain_or_unassigned it ∉ Object_prototype_names) l →
  ∃ t, fold_left domain_step l ([], Finite 0) =
         (table_cells t, Finite (inject_Z (total_Z requiredPoints l))) ∧
       table_inv l t.
Proof.
  induction l as [|it l IH] using rev_ind; intros Hwhole Hlt Hnames.
  - exists []. split; [done|apply table_inv_nil].
  - apply Forall_app in Hwhole as [Hwl Hwit].
    apply Forall_app in Hnames as [Hnl Hnit].
    rewrite Forall_singleton in Hwit, Hnit.
    rewrite total_Z_snoc in Hlt.
    pose proof (whole_points_nonneg _ Hwit) as Hit0.
    pose proof (total_Z_nonneg requiredPoints l Hwl) as Hl0.
    assert (Forall (λ it, (0 ≤ points_Z (requiredPoints it))%Z) l) as Hp0.
    { eapply Forall_impl; [exact Hwl|]. intros ?. apply whole_points_nonneg. }
    destruct IH as (t & Hfold & Hinv); [done|lia|done|].
    rewrite fold_left_app, Hfold. cbn [fold_left]. unfold domain_step.
    rewrite (whole_points_number _ Hwit) by lia. rewrite gt0_integer.
    rewrite total_Z_snoc. cbn [fst snd].
    case_bool_decide as Hpos.
    + exists (points_add (domain_or_unassigned it)
                (points_Z (requiredPoints it)) t).
      split; [|by apply table_inv_add].
      destruct Hinv as [_ Hpts _ Hsum].
      rewrite domains_add_cells, fadd_integer; [done|lia|by apply Hnit| |lia|lia].
      eapply Forall_impl; [exact Hpts|]. by intros ? [_ ?].
    + exists t. assert (points_Z (requiredPoints it) = 0%Z) as Hz by lia.
      rewrite Hz, Z.add_0_r. split; [done|]. by apply table_inv_skip.
Qed.

(** ** Sorting and property order *)

Lemma insert_by_Permutation {A} (before : A → A → bool) x l :
  insert_by before x l ≡ₚ x :: l.
Proof.
  induction l as [|y l IH]; simpl; [done|].
  destruct (before x y); [done|]. rewrite IH. apply perm_swap.
Qed.

Lemma sort_by_Permutation {A} (before : A → A → bool) l :
  sort_by before l ≡ₚ l.
Proof.
  unfold sort_by. induction l as [|x l IH]; simpl; [done|].
  by rewrite insert_by_Permutation, IH.
Qed.

Section sort_by_sorted.
Context {A : Type} (before : A → A → bool).
Hypothesis before_total : ∀ x y, before x y = false → before y x = true.
Hypothesis before_trans :
  ∀ x y z, before x y = true → before y z = true → before x z = true.

Lemma insert_by_sorted x l :
  StronglySorted (λ a b, before a b = true) l →
  StronglySorted (λ a b, before a b = true) (insert_by before x l).
Proof.
  induction 1 as [|y l Hs IH Hy]; simpl.
  - repeat constructor.
  - destruct (before x y) eqn:E.
    + constructor; [by constructor|]. constructor; [done|].
      eapply Forall_impl; [exact Hy|]. intros z Hz. by eapply before_trans.
    + constructor; [done|].
      rewrite insert_by_Permutation. constructor; [|done].
      by apply before_total.
Qed.

Lemma sort_by_sorted l :
  StronglySorted (λ a b, before a b = true) (sort_by before l).
Proof.
  unfold sort_by. induction l as [|x l IH]; simpl.
  - constructor.
  - by apply insert_by_sorted.
Qed.
End sort_by_sorted.

Lemma StronglySorted_weaken {A} (R1 R2 : A → A → Prop) l :
  (∀ a b, R1 a b → R2 a b) → StronglySorted R1 l → StronglySorted R2 l.
Proof.
  intros HR. induction 1 as [|x l _ IH Hx]; constructor; [done|].
  eapply Forall_impl; [exact Hx|]. intros y. apply HR.
Qed.

(** Sorting commutes with a map under which the two orders agree. *)
Lemma insert_by_fmap {A B} (h : A → B) before before' x l :
  (∀ y, y ∈ l → before' (h x) (h y) = before x y) →
  insert_by before' (h x) (h <$> l) = h <$> insert_by before x l.
Proof.
  induction l as [|y l IH]; intros H; [done|].
  rewrite fmap_cons. cbn [insert_by].
  rewrite (H y) by apply list_elem_of_here.
  destruct (before x y); [done|]. rewrite fmap_cons. f_equal.
  apply IH. intros z Hz. by apply H, list_elem_of_further.
Qed.

Lemma sort_by_fmap {A B} (h : A → B) before before' l :
  (∀ x y, x ∈ l → y ∈ l → before' (h x) (h y) = before x y) →
  sort_by before' (h <$> l) = h <$> sort_by before l.
Proof.
  induction l as [|x l IH]; intros H; [done|].
  rewrite fmap_cons. unfold sort_by in *. cbn [foldr].
  rewrite IH.
  2:{ intros y z Hy Hz. by apply H; apply list_elem_of_further. }
  apply insert_by_fmap. intros y Hy.
  apply H; [apply list_elem_of_here|].
  apply list_elem_of_further.
  by rewrite <- (sort_by_Permutation before l).
Qed.

Lemma Object_entries_Permutation {V} (o : list (string * V)) :
  Object_entries o ≡ₚ o.
Proof.
  unfold Object_entries. rewrite sort_by_Permutation.
  rewrite <- (filter_app_complement (λ kv, array_index kv.1 = None) o) at 3.
  rewrite (comm (++)). f_equiv.
  induction o as [|[k v] o IH]; [done|].
  rewrite filter_cons. cbn [omap list_omap fst].
  destruct (array_index k) eqn:E.
  - rewrite decide_True by (cbn [fst]; congruence). rewrite fmap_cons.
    by rewrite IH.
  - rewrite decide_False by (cbn [fst]; by intros []). done.
Qed.

Lemma indexed_fmap {V W} (g : string * V → string * W)
    (o : list (string * V)) :
  (∀ kv, (g kv).1 = kv.1) →
  omap (λ kv, match array_index kv.1 with
              | Some n => Some (n, kv)
              | None => None
              end) (g <$> o) =
  (λ nkv : N * (string * V), (nkv.1, g nkv.2)) <$>
    omap (λ kv, match array_index kv.1 with
                | Some n => Some (n, kv)
                | None => None
                end) o.
Proof.
  intros Hg. induction o as [|kv o IH]; [done|].
  rewrite fmap_cons. cbn [omap list_omap]. rewrite Hg.
  destruct (array_index kv.1); [|exact IH]. rewrite fmap_cons. f_equal.
  exact IH.
Qed.

(** The order of the entries depends on the names only. *)
Lemma Object_entries_fmap {V W} (f : V → W) (o : list (string * V)) :
  Object_entries ((λ kv, (kv.1, f kv.2)) <$> o) =
  (λ kv, (kv.1, f kv.2)) <$> Object_entries o.
Proof.
  unfold Object_entries. rewrite fmap_app. f_equal.
  - rewrite indexed_fmap by done.
    rewrite (sort_by_fmap _ (λ a b : N * (string * V), (a.1 <=? b.1)%N))
      by done.
    rewrite <- !list_fmap_compose. by apply list_fmap_ext.
  - induction o as [|[k v] o IH]; [done|].
    rewrite fmap_cons, !filter_cons. cbn [fst].
    case_decide; [|exact IH]. rewrite fmap_cons. f_equal. exact IH.
Qed.

Lemma numeric_entries_cells t :
  numeric_entries (table_cells t) =
  Some ((λ kv, (kv.1, Finite (inject_Z kv.2))) <$> Object_entries t).
Proof.
  unfold numeric_entries, table_cells.
  rewrite (Object_entries_fmap (λ z, Points (Finite (inject_Z z))) t).
  rewrite (list_fmap_compose (λ kv, (kv.1, Finite (inject_Z kv.2)))
             (λ kv : string * double, (kv.1, Points kv.2))).
  apply mapM_fmap_Some. by intros [].
Qed.

Lemma by_points_desc_whole total a b :
  (Z.abs (b.2 - a.2) < 2 ^ 53)%Z →
  by_points_desc (whole_entry total a) (whole_entry total b) = more_points a b.
Proof.
  intros H. unfold by_points_desc, whole_entry, more_points.
  cbn [ds_points]. rewrite fsub_integer by done. rewrite gt0_integer.
  apply eq_true_iff_eq.
  rewrite negb_true_iff, bool_decide_eq_false, Z.leb_le. lia.
Qed.

(** X30. On a committed group whose required points are whole (a number
    that is a non-negative integer, or a value that is not a number), with a
    total below [2^53], and whose items with points carry no domain named as
    a member that every object inherits, [domainBreakdown] does what the
    specification says. It returns one entry per domain of an item with
    positive points (an absent or empty domain counts as "Unassigned"), no
    domain twice; the points of an entry are the summed required points of
    the items of its domain, never zero; its percent is
    [(points / total) * 100] rounded to the nearest integer, a half going
    up, the total being the required points of the group; the entries are
    sorted by descending points; and the points of the entries add up to
    the required total that [calcStats] reports for the group. *)
Theorem domainBreakdown_whole_points (d : PlannerData) :
  let l := group_items (items d) committed in
  let total := total_Z requiredPoints l in
  Forall (λ it, whole_points (requiredPoints it)) l →
  (total < 2 ^ 53)%Z →
  Forall (λ it, (0 < points_Z (requiredPoints it))%Z →
                domain_or_unassigned it ∉ Object_prototype_names) l →
  ∃ groups : list (string * Z),
    domainBreakdown d = Some (whole_entry total <$> groups) ∧
    NoDup groups.*1 ∧
    (∀ name, name ∈ groups.*1 ↔
       ∃ it, it ∈ l ∧ (0 < points_Z (requiredPoints it))%Z ∧
             domain_or_unassigned it = name) ∧
    Forall (λ kv, kv.2 = domainPoints kv.1 l ∧ (0 < kv.2)%Z) groups ∧
    Forall (λ kv,
              rounds_to
                (percent_of (Finite (inject_Z kv.2)) (Finite (inject_Z total)))
                (ds_percent (whole_entry total kv))) groups ∧
    StronglySorted (λ a b, (b.2 ≤ a.2)%Z) groups ∧
    table_sum groups = total ∧
    required (calcStats committed d) = Finite (inject_Z total).
Proof.
  intros l total Hwhole Hlt Hnames.
  destruct (fold_domain_step_whole l Hwhole Hlt Hnames)
    as (t & Hfold & [Hnd Hpts Hkeys Hsum]).
  fold total in Hfold, Hsum.
  assert (Forall (λ kv : string * Z, (0 < kv.2)%Z) t) as Hpos
    by (eapply Forall_impl; [exact Hpts|]; by intros ? [_ ?]).
  destruct (table_sum_bound t Hpos) as [_ Hle]. rewrite Hsum in Hle.
  set (groups := sort_by more_points (Object_entries t)).
  assert (groups ≡ₚ t) as Hperm
    by (unfold groups; by rewrite sort_by_Permutation,
          Object_entries_Permutation).
  exists groups. split_and!.
  - unfold domainBreakdown. fold l. rewrite Hfold, numeric_entries_cells.
    f_equal. rewrite <- list_fmap_compose.
    assert (∀ kv, kv ∈ Object_entries t → (0 < kv.2 ≤ total)%Z) as Hin.
    { intros kv Hkv. rewrite Object_entries_Permutation in Hkv.
      rewrite Forall_forall in Hpos, Hle. split; [by apply Hpos|by apply Hle]. }
    rewrite (list_fmap_ext _ (whole_entry total) (Object_entries t)).
    + unfold groups. apply sort_by_fmap. intros a b Ha Hb.
      apply by_points_desc_whole.
      pose proof (Hin a Ha). pose proof (Hin b Hb). lia.
    + intros i kv Hi. apply list_elem_of_lookup_2, Hin in Hi.
      unfold whole_entry, percent_of, compose. cbn [fst snd].
      rewrite gt0_integer, bool_decide_eq_true_2 by lia. done.
  - by rewrite Hperm.
  - intros name. rewrite Hperm. apply Hkeys.
  - by rewrite Hperm.
  - apply Forall_forall. intros kv _. apply Math_round_rounds_to.
  - eapply StronglySorted_weaken;
      [|apply (sort_by_sorted more_points)].
    + intros a b. unfold more_points. by rewrite Z.leb_le.
    + intros a b. unfold more_points. rewrite Z.leb_gt, Z.leb_le. lia.
    + intros a b c. unfold more_points. rewrite !Z.leb_le. lia.
  - by rewrite (table_sum_Permutation _ _ Hperm).
  - unfold calcStats. fold l. cbn [required].
    change (Finite 0) with (Finite (inject_Z 0)).
    by rewrite fold_whole_points by (done || lia).
Qed.
Lemma fold_points_same (f : Item → option jsval) (h : Item → Item) l acc :
  (∀ it, f (h it) = f it) →
  fold_left (λ sum item, fadd sum (number_or_zero (f item))) (h <$> l) acc =
  fold_left (λ sum item, fadd sum (number_or_zero (f item))) l acc.
Proof.
  intros Hh. revert acc. induction l as [|x l IH]; intros acc; [done|].
  simpl. by rewrite Hh, IH.
Qed.

Lemma fold_domain_step_same (h : Item → Item) l st :
  (∀ it, requiredPoints (h it) = requiredPoints it) →
  (∀ it, domain (h it) = domain it) →
  fold_left domain_step (h <$> l) st = fold_left domain_step l st.
Proof.
  intros Hr Hd. revert st. induction l as [|x l IH]; intros st; [done|].
  simpl. rewrite <- IH. f_equal. unfold domain_step, domain_or_unassigned.
  by rewrite Hr, Hd.
Qed.

(** X6. An update that sets neither the domain nor a point value (a new
    text, new sub-items, a new epic) changes no statistic: the totals of
    every group, the planning capacity, the committed percentage, the
    committed remainder and the domain breakdown are those of the document
    before. *)
Theorem updateItem_keeps_statistics (g : GroupId) (itemId : string)
    (i t : option string) (s : option (list SubItem))
    (e : option (option string)) (prev : PlannerData) :
  let next :=
    handleUpdateItem g itemId (mkItemUpdates i t s e None None None) prev in
  (∀ g', calcStats g' next = calcStats g' prev) ∧
  totalPlanningPoints next = totalPlanningPoints prev ∧
  committedPercent next = committedPercent prev ∧
  committedRemaining next = committedRemaining prev ∧
  domainBreakdown next = domainBreakdown prev.
Proof.
  intros next.
  set (h := λ item : Item,
         if decide (item_id item = itemId)
         then merge_item item (mkItemUpdates i t s e None None None)
         else item).
  assert (∀ it, requiredPoints (h it) = requiredPoints it) as Hr.
  { intros it. unfold h. by case_decide. }
  assert (∀ it, optionalPoints (h it) = optionalPoints it) as Ho.
  { intros it. unfold h. by case_decide. }
  assert (∀ it, domain (h it) = domain it) as Hd.
  { intros it. unfold h. by case_decide. }
  assert (∀ g', calcStats g' next = calcStats g' prev) as Hstats.
  { intros g'. unfold next, handleUpdateItem, calcStats.
    cbn [items with_items]. fold h. destruct (decide (g' = g)) as [->|Hg'].
    - rewrite group_items_set_same.
      by rewrite (fold_points_same requiredPoints),
        (fold_points_same optionalPoints).
    - by rewrite group_items_set_other. }
  assert (totalPlanningPoints next = totalPlanningPoints prev) as Htot by done.
  split_and!; try done.
  - unfold committedPercent. by rewrite Htot, Hstats.
  - unfold committedRemaining. by rewrite Htot, Hstats.
  - unfold domainBreakdown, next, handleUpdateItem. cbn [items with_items].
    fold h. destruct (decide (committed = g)) as [<-|Hg'].
    + rewrite group_items_set_same. by rewrite fold_domain_step_same.
    + by rewrite group_items_set_other.
Qed.

(** ** Drag resolutions inside one group *)

Lemma arrayMove_lookup (l : list Item) i j x :
  l !! i = Some x → (j < length l)%nat → arrayMove l i j !! j = Some x.
Proof.
  intros Hi Hj. unfold arrayMove. rewrite Hi.
  assert (length (delete i l) = (length l - 1)%nat) as Hlen.
  { rewrite length_delete; [lia|]. by eexists. }
  rewrite lookup_app_r by (rewrite length_take; lia).
  rewrite length_take. replace (j - j `min` length (delete i l))%nat with 0%nat
    by lia. done.
Qed.

Lemma arrayMove_delete (l : list Item) i j :
  (i < length l)%nat → (j < length l)%nat →
  delete j (arrayMove l i j) = delete i l.
Proof.
  intros Hi Hj. unfold arrayMove.
  destruct (lookup_lt_is_Some_2 l i Hi) as [x Hx]. rewrite Hx.
  assert (length (delete i l) = (length l - 1)%nat) as Hlen.
  { rewrite length_delete; [lia|]. by eexists. }
  assert (length (take j (delete i l)) = j) as Htake
    by (rewrite length_take; lia).
  rewrite <- Htake at 1. rewrite delete_middle. apply take_drop.
Qed.

Lemma arrayMove_Permutation (l : list Item) i j : arrayMove l i j ≡ₚ l.
Proof.
  unfold arrayMove. destruct (l !! i) as [x|] eqn:Hx; [|done].
  rewrite <- Permutation_middle, take_drop.
  symmetry. by apply delete_Permutation.
Qed.

Lemma findIndex_cases x l :
  (findIndex x l = (-1)%Z ∧ x ∉ item_id <$> l) ∨
  ∃ k it, findIndex x l = Z.of_nat k ∧ l !! k = Some it ∧ item_id it = x ∧
          ∀ j it', l !! j = Some it' → (j < k)%nat → item_id it' ≠ x.
Proof.
  unfold findIndex. destruct (list_find _ l) as [[k it]|] eqn:E.
  - right. apply list_find_Some in E as (Hk & Hid & Hfirst).
    exists k, it. eauto.
  - left. split; [done|]. apply list_find_None in E.
    intros Hin. apply list_elem_of_fmap in Hin as (it & -> & Hit).
    rewrite Forall_forall in E. by apply (E it).
Qed.

(** X7. A drag that ends over nothing, over the dragged item itself, or on
    the zone of the group the item was dragged from, leaves the document as
    it is. *)
Theorem dragEnd_noop (a : Active) (id : string) (item : Item) (g : GroupId)
    (od : option DragData) (prev : PlannerData) :
  handleDragEnd (mkDragEndEvent a None) prev = prev ∧
  handleDragEnd (mkDragEndEvent a (Some (mkOver (active_id a) od))) prev
    = prev ∧
  handleDragEnd
    (mkDragEndEvent (mkActive id (mkDragData item g))
       (Some (mkOver (group_key g) od))) prev = prev.
Proof.
  split_and!.
  - done.
  - unfold handleDragEnd. simpl. by rewrite decide_True.
  - unfold handleDragEnd. simpl. case_decide; [done|].
    rewrite as_GroupId_group_key. by rewrite decide_True.
Qed.

(** X8. A drop of an item on another item of the same group, both ids
    occurring in the group, moves the dragged item to the place of the
    target: the group is rearranged, not changed (the same items, and with
    the moved item taken out the same sequence as before), the item found
    under the dragged id now stands at the index the target had, and the
    other groups are untouched. *)
Theorem dragEnd_same_group_moves (activeId overId : string) (item : Item)
    (g : GroupId) (overItem : Item) (prev : PlannerData) (i j : nat) :
  let its := group_items (items prev) g in
  let event :=
    mkDragEndEvent (mkActive activeId (mkDragData item g))
      (Some (mkOver overId (Some (mkDragData overItem g)))) in
  let next := handleDragEnd event prev in
  activeId ≠ overId →
  as_GroupId overId = None →
  findIndex activeId its = Z.of_nat i →
  findIndex overId its = Z.of_nat j →
  group_items (items next) g ≡ₚ its ∧
  group_items (items next) g !! j = its !! i ∧
  delete j (group_items (items next) g) = delete i its ∧
  ∀ g', g' ≠ g → group_items (items next) g' = group_items (items prev) g'.
Proof.
  intros its event next Hne Hzone Hi Hj.
  assert (i < length its ∧ j < length its)%nat as [Hil Hjl].
  { destruct (findIndex_cases activeId its) as [[H _]|(k & it & H & Hk & _)];
      [lia|].
    destruct (findIndex_cases overId its) as [[H' _]|(k' & it' & H' & Hk' & _)];
      [lia|].
    apply lookup_lt_Some in Hk, Hk'. lia. }
  assert (next = with_items (set_group g (arrayMove its i j) (items prev)) prev)
    as ->.
  { unfold next, handleDragEnd, event.
    cbn [over active active_id active_data over_id over_data dd_groupId
         dd_item].
    rewrite decide_False by done. rewrite Hzone.
    rewrite decide_True by done. fold its. rewrite Hi, Hj.
    rewrite decide_False by lia. by rewrite !Nat2Z.id. }
  cbn [items with_items]. rewrite group_items_set_same.
  destruct (lookup_lt_is_Some_2 its i Hil) as [x Hx]. split_and!.
  - apply arrayMove_Permutation.
  - rewrite Hx. by apply arrayMove_lookup.
  - by apply arrayMove_delete.
  - intros g' Hg'. by apply group_items_set_other.
Qed.

Lemma cross_group_Permutation item src dst dstItems its :
  src ≠ dst →
  NoDup (item_id <$> group_items its src) →
  item ∈ group_items its src →
  dstItems ≡ₚ item :: group_items its dst →
  all_items
    (set_group dst dstItems
       (set_group src
          (filter (λ i, item_id i ≠ item_id item) (group_items its src))
          its)) ≡ₚ all_items its.
Proof.
  intros Hsd Hnd Hin Hdst.
  set (srcItems :=
         filter (λ i, item_id i ≠ item_id item) (group_items its src)).
  rewrite all_items_set_group, set_group_comm by done.
  rewrite all_items_set_group, Hdst.
  rewrite (all_items_split dst its).
  rewrite (all_items_split src (set_group dst [] its)).
  rewrite group_items_set_other by done.
  rewrite (filter_out_unique item (group_items its src) Hnd Hin) at 1.
  fold srcItems. solve_Permutation.
Qed.

(** X9. Whatever the drop target, [handleDragEnd] neither loses nor
    duplicates an item when the dragged item is an item of the group it was
    dragged from and the ids of that group are pairwise distinct: the items
    of the document afterwards are those before, up to order. *)
Theorem dragEnd_conserves_items (event : DragEndEvent) (prev : PlannerData) :
  let src := dd_groupId (active_data (active event)) in
  NoDup (item_id <$> group_items (items prev) src) →
  dd_item (active_data (active event)) ∈ group_items (items prev) src →
  all_items (items (handleDragEnd event prev)) ≡ₚ all_items (items prev).
Proof.
  intros src Hnd Hin. unfold handleDragEnd.
  destruct (over event) as [ov|]; [|done].
  case_decide; [done|].
  destruct (as_GroupId (over_id ov)) as [dst|].
  - fold src. case_decide as Hsd; [done|]. cbn [items with_items].
    apply cross_group_Permutation; try done.
    by rewrite <- Permutation_cons_append.
  - fold src.
    set (dst := match over_data ov with
                | Some overData => dd_groupId overData
                | None => src
                end).
    case_decide as Hsd.
    + case_decide; [done|]. cbn [items with_items].
      rewrite all_items_set_group, arrayMove_Permutation.
      symmetry. apply all_items_split.
    + cbn [items with_items].
      apply cross_group_Permutation; try done.
      apply splice_in_Permutation.
Qed.
(** ** Reordering inside a group *)

Lemma insert_adjacent (l : list Item) i x y a b :
  l !! i = Some x → l !! S i = Some y →
  <[S i := b]> (<[i := a]> l) = take i l ++ a :: b :: drop (S (S i)) l ∧
  <[i := a]> (<[S i := b]> l) = take i l ++ a :: b :: drop (S (S i)) l.
Proof.
  revert l. induction i as [|i IH]; intros l Hx Hy.
  - destruct l as [|x' [|y' l]]; try done.
  - destruct l as [|z l]; [done|]. simpl in Hx, Hy.
    destruct (IH l Hx Hy) as [H1 H2]. simpl. by rewrite H1, H2.
Qed.

Lemma swap_adjacent (l : list Item) i x y :
  l !! i = Some x → l !! S i = Some y →
  swap_at i (S i) l = take i l ++ y :: x :: drop (S (S i)) l ∧
  swap_at (S i) i l = take i l ++ y :: x :: drop (S (S i)) l.
Proof.
  intros Hx Hy. unfold swap_at. rewrite Hx, Hy.
  destruct (insert_adjacent l i x y y x Hx Hy) as [H1 H2]. by rewrite H1, H2.
Qed.

Lemma adjacent_split (l : list Item) i x y :
  l !! i = Some x → l !! S i = Some y →
  l = take i l ++ x :: y :: drop (S (S i)) l.
Proof.
  intros Hx Hy. rewrite <- (take_drop_middle l i x Hx) at 1. do 2 f_equal.
  apply drop_S in Hy. by rewrite <- Hy.
Qed.

Lemma findIndex_unique (l : list Item) k it :
  NoDup (item_id <$> l) → l !! k = Some it →
  findIndex (item_id it) l = Z.of_nat k.
Proof.
  intros Hnd Hk. apply (findIndex_found _ _ k it); [done|done|].
  intros j it' Hj Hlt Hid.
  assert (j = k); [|lia].
  eapply (NoDup_lookup _ j k (item_id it')); [exact Hnd| |].
  - by rewrite list_lookup_fmap, Hj.
  - rewrite list_lookup_fmap, Hk. simpl. congruence.
Qed.

(** The group after a move up or down of the item at the index [k] of a
    group with pairwise distinct ids. *)
Lemma reorder_up_at g prev j y it :
  NoDup (item_id <$> group_items (items prev) g) →
  group_items (items prev) g !! j = Some y →
  group_items (items prev) g !! S j = Some it →
  handleReorderItem g (item_id it) up prev =
    with_items
      (set_group g
         (take j (group_items (items prev) g) ++
          it :: y :: drop (S (S j)) (group_items (items prev) g))
         (items prev)) prev.
Proof.
  intros Hnd Hy Hit. unfold handleReorderItem.
  rewrite (findIndex_unique _ (S j) it Hnd Hit).
  pose proof (lookup_lt_Some _ _ _ Hit) as Hlen.
  rewrite decide_False by lia. rewrite decide_False by lia.
  replace (Z.to_nat (Z.of_nat (S j))) with (S j) by lia.
  replace (Z.to_nat (Z.of_nat (S j) - 1)) with j by lia.
  by destruct (swap_adjacent _ j y it Hy Hit) as [_ ->].
Qed.

Lemma reorder_down_at g prev k y it :
  NoDup (item_id <$> group_items (items prev) g) →
  group_items (items prev) g !! k = Some it →
  group_items (items prev) g !! S k = Some y →
  handleReorderItem g (item_id it) down prev =
    with_items
      (set_group g
         (take k (group_items (items prev) g) ++
          y :: it :: drop (S (S k)) (group_items (items prev) g))
         (items prev)) prev.
Proof.
  intros Hnd Hit Hy. unfold handleReorderItem.
  rewrite (findIndex_unique _ k it Hnd Hit).
  pose proof (lookup_lt_Some _ _ _ Hy) as Hlen.
  rewrite decide_False by lia. rewrite decide_False by lia.
  replace (Z.to_nat (Z.of_nat k)) with k by lia.
  replace (Z.to_nat (Z.of_nat k + 1)) with (S k) by lia.
  by destruct (swap_adjacent _ k it y Hit Hy) as [-> _].
Qed.

Lemma swap_at_adjacent_Permutation (l : list Item) i x y :
  l !! i = Some x → l !! S i = Some y →
  swap_at i (S i) l ≡ₚ l ∧ swap_at (S i) i l ≡ₚ l.
Proof.
  intros Hx Hy. destruct (swap_adjacent l i x y Hx Hy) as [-> ->].
  rewrite (adjacent_split l i x y Hx Hy) at 3 6.
  split; apply Permutation_app_head, perm_swap.
Qed.

(** X10. [handleReorderItem] only rearranges: whatever the id and the
    direction, the group holds the same items as before, up to order, the
    other groups are untouched, and so the document has the same items. *)
Theorem reorderItem_conserves_items (g : GroupId) (itemId : string)
    (direction : Direction) (prev : PlannerData) :
  let next := handleReorderItem g itemId direction prev in
  group_items (items next) g ≡ₚ group_items (items prev) g ∧
  (∀ g', g' ≠ g →
         group_items (items next) g' = group_items (items prev) g') ∧
  all_items (items next) ≡ₚ all_items (items prev).
Proof.
  intros next.
  assert (group_items (items next) g ≡ₚ group_items (items prev) g ∧
          next = with_items (set_group g (group_items (items next) g)
                               (items prev)) prev) as [Hperm Hnext].
  { unfold next, handleReorderItem.
    set (l := group_items (items prev) g).
    assert (prev = with_items (set_group g l (items prev)) prev) as Hprev.
    { unfold l. rewrite set_group_same. by destruct prev. }
    destruct (findIndex_cases itemId l) as [[-> _]|(k & it & -> & Hk & _)].
    { rewrite decide_True by done. done. }
    rewrite decide_False by lia.
    pose proof (lookup_lt_Some _ _ _ Hk) as Hlen.
    case_decide as Hrange; [done|].
    cbn [items with_items]. rewrite group_items_set_same. split; [|done].
    replace (Z.to_nat (Z.of_nat k)) with k by lia. destruct direction.
    - destruct k as [|j]; [lia|].
      replace (Z.to_nat (Z.of_nat (S j) - 1)) with j by lia.
      destruct (lookup_lt_is_Some_2 l j) as [y Hy]; [lia|].
      by destruct (swap_at_adjacent_Permutation l j y it Hy Hk) as [_ ?].
    - replace (Z.to_nat (Z.of_nat k + 1)) with (S k) by lia.
      destruct (lookup_lt_is_Some_2 l (S k)) as [y Hy]; [lia|].
      by destruct (swap_at_adjacent_Permutation l k it y Hk Hy) as [? _]. }
  split_and!.
  - done.
  - intros g' Hg'. rewrite Hnext. cbn [items with_items].
    by rewrite group_items_set_other.
  - rewrite Hnext. cbn [items with_items].
    rewrite all_items_set_group, Hperm. symmetry. apply all_items_split.
Qed.

Lemma NoDup_ids_swapped (l1 l2 : list Item) x y :
  NoDup (item_id <$> (l1 ++ x :: y :: l2)) →
  NoDup (item_id <$> (l1 ++ y :: x :: l2)).
Proof.
  intros H.
  assert (l1 ++ y :: x :: l2 ≡ₚ l1 ++ x :: y :: l2) as ->
    by apply Permutation_app_head, perm_swap.
  done.
Qed.

(** X11. In a group whose ids are pairwise distinct, moving an item up and
    then down, or down and then up, gives the document back, provided the
    first move is not at the end of the group (the item is not the first
    one for a move up, not the last one for a move down). *)
Theorem reorderItem_up_down_inverse (g : GroupId) (prev : PlannerData)
    (k : nat) (it : Item) :
  NoDup (item_id <$> group_items (items prev) g) →
  group_items (items prev) g !! k = Some it →
  ((0 < k)%nat →
   handleReorderItem g (item_id it) down
     (handleReorderItem g (item_id it) up prev) = prev) ∧
  ((S k < length (group_items (items prev) g))%nat →
   handleReorderItem g (item_id it) up
     (handleReorderItem g (item_id it) down prev) = prev).
Proof.
  intros Hnd Hk. set (l := group_items (items prev) g) in *.
  split.
  - intros Hpos. destruct k as [|j]; [lia|].
    destruct (lookup_lt_is_Some_2 l j) as [y Hy];
      [apply lookup_lt_Some in Hk; lia|].
    rewrite (reorder_up_at g prev j y it Hnd Hy Hk). fold l.
    pose proof (adjacent_split l j y it Hy Hk) as Hl.
    set (l' := take j l ++ it :: y :: drop (S (S j)) l).
    assert (length (take j l) = j) as Htake.
    { rewrite length_take. apply lookup_lt_Some in Hy. lia. }
    assert (l' !! j = Some it) as Hj.
    { unfold l'. rewrite lookup_app_r by lia.
      by replace (j - length (take j l))%nat with 0%nat by lia. }
    assert (l' !! S j = Some y) as HSj.
    { unfold l'. rewrite lookup_app_r by lia.
      by replace (S j - length (take j l))%nat with 1%nat by lia. }
    rewrite (reorder_down_at g _ j y it);
      cbn [items with_items]; rewrite ?group_items_set_same; try done.
    + fold l'. unfold with_items. cbn [sprints velocity].
      rewrite set_group_twice.
      replace (take j l' ++ y :: it :: drop (S (S j)) l') with l;
        [unfold l; rewrite set_group_same; by destruct prev|].
      rewrite Hl at 1. unfold l'.
      rewrite take_app_ge, drop_app_ge by lia.
      replace (j - length (take j l))%nat with 0%nat by lia.
      replace (S (S j) - length (take j l))%nat with 2%nat by lia.
      cbn [take drop]. by rewrite app_nil_r.
    + fold l'. unfold l'. apply NoDup_ids_swapped. by rewrite <- Hl.
  - intros Hlast.
    destruct (lookup_lt_is_Some_2 l (S k) Hlast) as [y Hy].
    rewrite (reorder_down_at g prev k y it Hnd Hk Hy). fold l.
    pose proof (adjacent_split l k it y Hk Hy) as Hl.
    set (l' := take k l ++ y :: it :: drop (S (S k)) l).
    assert (length (take k l) = k) as Htake.
    { rewrite length_take. lia. }
    assert (l' !! k = Some y) as Hj.
    { unfold l'. rewrite lookup_app_r by lia.
      by replace (k - length (take k l))%nat with 0%nat by lia. }
    assert (l' !! S k = Some it) as HSj.
    { unfold l'. rewrite lookup_app_r by lia.
      by replace (S k - length (take k l))%nat with 1%nat by lia. }
    rewrite (reorder_up_at g _ k y it);
      cbn [items with_items]; rewrite ?group_items_set_same; try done.
    + fold l'. unfold with_items. cbn [sprints velocity].
      rewrite set_group_twice.
      replace (take k l' ++ it :: y :: drop (S (S k)) l') with l;
        [unfold l; rewrite set_group_same; by destruct prev|].
      rewrite Hl at 1. unfold l'.
      rewrite take_app_ge, drop_app_ge by lia.
      replace (k - length (take k l))%nat with 0%nat by lia.
      replace (S (S k) - length (take k l))%nat with 2%nat by lia.
      cbn [take drop]. by rewrite app_nil_r.
    + fold l'. unfold l'. apply NoDup_ids_swapped. by rewrite <- Hl.
Qed.
(** ** The sprint table *)









(** X15. [removeSprint] removes every sprint with the given id and nothing
    else: no sprint has the id afterwards, the other sprints keep their
    order, removing again changes nothing, and the velocity and the items
    are not touched. When the sprint removed is the last one of the table,
    and the only one with its id, the planning capacity before is the
    capacity after plus the share of that sprint (the capacity is added up
    sprint by sprint, and the sum of doubles depends on the order, so that
    removing another sprint has no such equation). *)
Theorem removeSprint_removes_exactly (id : string) (data : PlannerData) :
  let next := onSprintsChange (removeSprint id (sprints data)) data in
  (id ∉ sprint_id <$> sprints next) ∧
  (∀ s, s ∈ sprints next ↔ s ∈ sprints data ∧ sprint_id s ≠ id) ∧
  sprints next `sublist_of` sprints data ∧
  removeSprint id (sprints next) = sprints next ∧
  velocity next = velocity data ∧ items next = items data ∧
  (∀ l s, sprints data = l ++ [s] → sprint_id s = id →
          id ∉ sprint_id <$> l →
          sprints next = l ∧
          totalPlanningPoints data =
            fadd (totalPlanningPoints next)
              (sprint_capacity (velocity data) s)).
Proof.
  intros next. unfold next, onSprintsChange, removeSprint.
  cbn [sprints velocity items]. split_and!; try done.
  - intros Hin. apply list_elem_of_fmap in Hin as (s & -> & Hs).
    apply list_elem_of_filter in Hs as [Hne _]. by apply Hne.
  - intros s. rewrite list_elem_of_filter. tauto.
  - apply sublist_filter.
  - apply filter_all, Forall_forall. intros s Hs.
    by apply list_elem_of_filter in Hs as [Hne _].
  - intros l s Hl Hs Hni.
    assert (filter (λ s0, sprint_id s0 ≠ id) (sprints data) = l) as Hfilter.
    { rewrite Hl, filter_app, filter_cons, decide_False by tauto.
      rewrite filter_nil, app_nil_r. apply filter_all, Forall_forall.
      intros s' Hs' Hid. apply Hni. rewrite <- Hid.
      apply list_elem_of_fmap. eauto. }
    split; [done|]. unfold totalPlanningPoints. cbn [sprints velocity].
    rewrite Hfilter, Hl. by rewrite fold_left_app.
Qed.

Lemma fold_capacity_rename id value l v acc :
  fold_left (λ sum s, fadd sum (fmul v (fdiv (fl (multiplier s)) (Finite 100))))
    (updateSprint id (name_field value) l) acc =
  fold_left (λ sum s, fadd sum (fmul v (fdiv (fl (multiplier s)) (Finite 100))))
    l acc.
Proof.
  unfold updateSprint. revert acc.
  induction l as [|s l IH]; intros acc; [done|].
  rewrite fmap_cons. cbn [fold_left]. rewrite IH. by case_decide.
Qed.

(** X16. [updateSprint] rewrites in place: the table keeps its length and
    its sequence of ids whichever field is set, and a sprint with another
    id is left as it is; renaming a sprint changes neither the planning
    capacity nor the committed percentage and remainder. *)
Theorem updateSprint_in_place (id : string) (field : SprintField)
    (value : string) (data : PlannerData) :
  let renamed :=
    onSprintsChange (updateSprint id (name_field value) (sprints data)) data in
  sprint_id <$> updateSprint id field (sprints data)
    = sprint_id <$> sprints data ∧
  (∀ k s, sprints data !! k = Some s → sprint_id s ≠ id →
          updateSprint id field (sprints data) !! k = Some s) ∧
  totalPlanningPoints renamed = totalPlanningPoints data ∧
  committedPercent renamed = committedPercent data ∧
  committedRemaining renamed = committedRemaining data.
Proof.
  intros renamed.
  assert (totalPlanningPoints renamed = totalPlanningPoints data) as Htot.
  { unfold renamed, totalPlanningPoints, onSprintsChange.
    cbn [sprints velocity]. apply fold_capacity_rename. }
  split_and!.
  - unfold updateSprint. rewrite <- list_fmap_compose. apply list_fmap_ext.
    intros k s _. simpl. case_decide; [|done]. by destruct field.
  - intros k s Hk Hne. unfold updateSprint. rewrite list_lookup_fmap, Hk.
    simpl. by rewrite decide_False.
  - done.
  - unfold committedPercent. by rewrite Htot.
  - unfold committedRemaining. by rewrite Htot.
Qed.

Lemma fmul_0_cases x :
  fmul (Finite 0) x = Finite 0 ∨ fmul (Finite 0) x = NaN.
Proof.
  destruct x as [r| | |]; [left|by right..].
  apply fmul_0_finite. by eexists.
Qed.

(** At a velocity of 0 the running total of the capacity stays 0, or
    becomes NaN when a sprint's share is infinite. *)
Lemma zero_velocity_fold l acc :
  acc = Finite 0 ∨ acc = NaN →
  let total :=
    fold_left
      (λ sum s,
         fadd sum (fmul (fl 0) (fdiv (fl (multiplier s)) (Finite 100))))
      l acc in
  (total = Finite 0 ∨ total = NaN) ∧
  (acc = Finite 0 → Forall (λ s, is_finite (fl (multiplier s))) l →
   total = Finite 0).
Proof.
  revert acc. induction l as [|s l IH]; intros acc Hacc.
  - by cbn [fold_left].
  - cbn [fold_left]. rewrite fl_0.
    set (acc' := fadd acc (fmul (Finite 0) (fdiv (fl (multiplier s)) (Finite 100)))).
    assert (acc' = Finite 0 ∨ acc' = NaN) as Hacc'.
    { unfold acc'.
      destruct (fmul_0_cases (fdiv (fl (multiplier s)) (Finite 100)))
        as [-> | ->], Hacc as [-> | ->];
        first [by left|by right]. }
    destruct (IH acc' Hacc') as [IH1 IH2]. rewrite <- fl_0 in IH1, IH2.
    split; [exact IH1|].
    intros -> Hfin. apply Forall_cons in Hfin as [Hs Hl].
    apply IH2; [|done]. unfold acc'.
    by rewrite (fmul_0_finite _ (fdiv_100_finite _ Hs)).
Qed.

(** X17. With a velocity of 0 the planning capacity is 0 when the
    multipliers are finite numbers (a multiplier too large for a double is
    an infinity, and the capacity is then NaN), and in every case it is not
    greater than 0 and the committed percentage is 0; with no sprint left
    the planning capacity is 0 and the committed percentage is 0: the
    division by the capacity is not made. *)
Theorem zero_capacity_guard (data : PlannerData) :
  (Forall (λ s, is_finite (fl (multiplier s))) (sprints data) →
   totalPlanningPoints (onVelocityChange 0 data) = Finite 0) ∧
  gt0 (totalPlanningPoints (onVelocityChange 0 data)) = false ∧
  committedPercent (onVelocityChange 0 data) = Finite 0 ∧
  totalPlanningPoints (onSprintsChange [] data) = Finite 0 ∧
  committedPercent (onSprintsChange [] data) = Finite 0.
Proof.
  destruct (zero_velocity_fold (sprints data) (Finite 0)) as [H0 Hfin];
    [by left|].
  assert (gt0 (totalPlanningPoints (onVelocityChange 0 data)) = false) as Hgt.
  { unfold totalPlanningPoints. cbn [sprints velocity onVelocityChange].
    by destruct H0 as [-> | ->]. }
  split_and!.
  - by apply Hfin.
  - done.
  - unfold committedPercent. by rewrite Hgt.
  - reflexivity.
  - reflexivity.
Qed.
(** ** Domain colours *)

Lemma palette_truthy c : c ∈ ROYGBIV_COLORS → truthy (JStr c) = true.
Proof.
  unfold ROYGBIV_COLORS. rewrite !elem_of_cons, elem_of_nil.
  intros [->|[->|[->|[->|[->|[->|[->|[->|[->|[->|[]]]]]]]]]]]; reflexivity.
Qed.

Lemma palette_NoDup : NoDup ROYGBIV_COLORS.
Proof. apply (bool_decide_unpack (NoDup ROYGBIV_COLORS)). reflexivity. Qed.

Lemma color_used_spec c o : color_used c o = true ↔ JStr c ∈ o.*2.
Proof.
  unfold color_used. rewrite existsb_exists. split.
  - intros (v & Hv%list_elem_of_In & Heq). destruct v; try done.
    apply String.eqb_eq in Heq. by subst.
  - intros Hin. exists (JStr c). split; [by apply list_elem_of_In|].
    apply String.eqb_refl.
Qed.

Lemma getNextColor_palette o : getNextColor o ∈ ROYGBIV_COLORS.
Proof.
  unfold getNextColor. destruct (list_find _ _) as [[k c]|] eqn:E.
  - apply list_find_Some in E as (Hk & _). by eapply list_elem_of_lookup_2.
  - assert (length o `mod` length ROYGBIV_COLORS < length ROYGBIV_COLORS)%nat
      as Hlt by (apply Nat.mod_upper_bound; done).
    destruct (lookup_lt_is_Some_2 _ _ Hlt) as [c Hc]. rewrite Hc. simpl.
    by eapply list_elem_of_lookup_2.
Qed.

(** The colour returned is the first of the palette that is not in use,
    when there is one. *)
Lemma getNextColor_first_unused o c :
  c ∈ ROYGBIV_COLORS → color_used c o = false →
  ∃ k, ROYGBIV_COLORS !! k = Some (getNextColor o) ∧
       color_used (getNextColor o) o = false ∧
       ∀ j c', ROYGBIV_COLORS !! j = Some c' → (j < k)%nat →
               color_used c' o = true.
Proof.
  intros Hc Hunused. unfold getNextColor.
  destruct (list_find _ _) as [[k c0]|] eqn:E.
  - apply list_find_Some in E as (Hk & Hc0 & Hfirst). exists k.
    split_and!; [done|done|]. intros j c' Hj Hlt.
    specialize (Hfirst j c' Hj Hlt). by destruct (color_used c' o).
  - apply list_find_None in E. rewrite Forall_forall in E.
    by destruct (E c Hc).
Qed.

Lemma getNextColor_exhausted o :
  (∀ c, c ∈ ROYGBIV_COLORS → color_used c o = true) →
  ROYGBIV_COLORS !! (length o `mod` 10)%nat = Some (getNextColor o) ∧
  color_used (getNextColor o) o = true.
Proof.
  intros Hall. split; [|apply Hall, getNextColor_palette].
  unfold getNextColor. destruct (list_find _ _) as [[k c]|] eqn:E.
  - apply list_find_Some in E as (Hk & Hc & _).
    apply list_elem_of_lookup_2 in Hk. rewrite (Hall c Hk) in Hc. done.
  - change (length ROYGBIV_COLORS) with 10%nat.
    assert (length o `mod` 10 < length ROYGBIV_COLORS)%nat as Hlt
      by (apply Nat.mod_upper_bound; done).
    destruct (lookup_lt_is_Some_2 _ _ Hlt) as [c Hc]. by rewrite Hc.
Qed.

(** Fewer than ten stored colours leave a colour of the palette free. *)
Lemma palette_not_exhausted o :
  (length o < 10)%nat → ∃ c, c ∈ ROYGBIV_COLORS ∧ color_used c o = false.
Proof.
  intros Hlen.
  destruct (list_find (λ c, color_used c o = false) ROYGBIV_COLORS)
    as [[k c]|] eqn:E.
  - apply list_find_Some in E as (Hk & Hc & _). exists c. split; [|done].
    by eapply list_elem_of_lookup_2.
  - exfalso. apply list_find_None in E. rewrite Forall_forall in E.
    assert (JStr <$> ROYGBIV_COLORS ⊆+ o.*2) as Hsub.
    { apply NoDup_submseteq.
      - apply NoDup_fmap_2; [by intros ?? [=]|apply palette_NoDup].
      - intros v Hv. apply list_elem_of_fmap in Hv as (c & -> & Hc).
        apply color_used_spec. specialize (E c Hc).
        by destruct (color_used c o). }
    apply submseteq_length in Hsub. rewrite !length_fmap in Hsub.
    change (length ROYGBIV_COLORS) with 10%nat in Hsub. lia.
Qed.

(** X18. [getNextColor] always returns a colour of the palette. While a
    colour of the palette is free (as it is when fewer than ten colours are
    stored) it returns the first free one, in the order of the palette;
    when all ten are taken it returns the colour at the index
    [number of stored entries mod 10], a colour that is already in use. *)
Theorem getNextColor_spec (o : list (string * jsval)) :
  getNextColor o ∈ ROYGBIV_COLORS ∧
  ((length o < 10)%nat → color_used (getNextColor o) o = false) ∧
  ((∃ c, c ∈ ROYGBIV_COLORS ∧ color_used c o = false) →
   ∃ k, ROYGBIV_COLORS !! k = Some (getNextColor o) ∧
        color_used (getNextColor o) o = false ∧
        ∀ j c', ROYGBIV_COLORS !! j = Some c' → (j < k)%nat →
                color_used c' o = true) ∧
  ((∀ c, c ∈ ROYGBIV_COLORS → color_used c o = true) →
   ROYGBIV_COLORS !! (length o `mod` 10)%nat = Some (getNextColor o) ∧
   color_used (getNextColor o) o = true).
Proof.
  split_and!.
  - apply getNextColor_palette.
  - intros (c & Hc & Hu)%palette_not_exhausted.
    by destruct (getNextColor_first_unused o c Hc Hu) as (k & _ & H & _).
  - intros (c & Hc & Hu). by apply (getNextColor_first_unused o c).
  - apply getNextColor_exhausted.
Qed.

Lemma has_truthy_set d k v o :
  has_truthy k (obj_set d v o) =
    if decide (k = d) then truthy v else has_truthy k o.
Proof.
  unfold has_truthy, obj_read. rewrite obj_get_set. by case_decide.
Qed.

(** The three cases of a read of the cache under a domain. *)
Lemma getDomainColor_cases d cache :
  (∃ v, obj_get d cache = Some v ∧ truthy v = true ∧
        has_truthy d cache = true ∧
        getDomainColor d cache = mkColorLookup (Plain v) cache None) ∨
  (obj_get d cache = None ∧ d ∈ Object_prototype_names ∧
   has_truthy d cache = true ∧
   getDomainColor d cache = mkColorLookup (Builtin d) cache None) ∨
  (d ∉ Object_prototype_names ∨ is_Some (obj_get d cache)) ∧
  has_truthy d cache = false ∧
  getDomainColor d cache =
    mkColorLookup (Plain (JStr (getNextColor cache)))
      (obj_set d (JStr (getNextColor cache)) cache)
      (Some (saveDomainColors
               (obj_set d (JStr (getNextColor cache)) cache))).
Proof.
  unfold getDomainColor, has_truthy, obj_read.
  destruct (obj_get d cache) as [v|] eqn:E.
  - cbn [value_truthy]. destruct (truthy v) eqn:Ev.
    + left. by exists v.
    + right. right. split_and!; [right; by eexists|done..].
  - case_decide as Hd.
    + right. left. done.
    + right. right. split_and!; [by left|done..].
Qed.

(** X19. [getDomainColor] answers a domain once and for all: what it
    returns is truthy and is what reading the cache under the domain yields
    afterwards; the colours of the other domains are not touched; a second
    call returns the same, changes nothing and saves nothing. The call
    stores and saves exactly when reading the cache under the domain
    yielded nothing truthy, and the new colour is then the one
    [getNextColor] picks for the cache. A domain named as a member that the
    cache inherits, and that the cache does not own, never gets a colour:
    the call returns the inherited member and stores and saves nothing. *)
Theorem getDomainColor_stable (d : string) (cache : list (string * jsval)) :
  let r := getDomainColor d cache in
  obj_read d (cache_after r) = Some (color r) ∧
  value_truthy (color r) = true ∧
  getDomainColor d (cache_after r) =
    mkColorLookup (color r) (cache_after r) None ∧
  (∀ d', d' ≠ d → obj_get d' (cache_after r) = obj_get d' cache) ∧
  (saved_text r = None ↔ has_truthy d cache = true) ∧
  (has_truthy d cache = true →
   cache_after r = cache ∧ obj_read d cache = Some (color r)) ∧
  (has_truthy d cache = false →
   color r = Plain (JStr (getNextColor cache)) ∧
   cache_after r = obj_set d (JStr (getNextColor cache)) cache ∧
   saved_text r = Some (saveDomainColors (cache_after r))) ∧
  (d ∈ Object_prototype_names → obj_get d cache = None →
   r = mkColorLookup (Builtin d) cache None).
Proof.
  intros r.
  assert (truthy (JStr (getNextColor cache)) = true) as Hnew
    by apply palette_truthy, getNextColor_palette.
  destruct (getDomainColor_cases d cache)
    as [(v & Hv & Htv & Ht & Hr)|[(Hv & Hd & Ht & Hr)|(Hd & Ht & Hr)]];
    unfold r; rewrite Hr; cbn [color cache_after saved_text].
  - split_and!; try done.
    + unfold obj_read. by rewrite Hv.
    + split; [done|]. unfold obj_read. by rewrite Hv.
    + congruence.
    + congruence.
  - split_and!; try done.
    + unfold obj_read. by rewrite Hv, decide_True.
    + split; [done|]. unfold obj_read. by rewrite Hv, decide_True.
    + congruence.
  - assert (obj_read d (obj_set d (JStr (getNextColor cache)) cache) =
            Some (Plain (JStr (getNextColor cache)))) as Hread.
    { unfold obj_read. by rewrite obj_get_set, decide_True. }
    split_and!; try done.
    + unfold getDomainColor. rewrite Hread. cbn [value_truthy].
      by rewrite Hnew.
    + intros d' Hne. by rewrite obj_get_set, decide_False.
    + split; [done|congruence].
    + congruence.
    + intros Hin Hnone. exfalso. destruct Hd as [Hd|[v Hv]]; [done|].
      congruence.
Qed.

Lemma obj_insert_index_Permutation n k v props :
  obj_insert_index n k v props ≡ₚ (k, v) :: props.
Proof.
  induction props as [|[k' v'] props IH]; [done|]. cbn [obj_insert_index].
  destruct (array_index k') as [n'|]; [|done].
  destruct (n <? n')%N; [done|]. rewrite IH. apply perm_swap.
Qed.

Lemma obj_set_new_Permutation k v props :
  k ∉ props.*1 → obj_set k v props ≡ₚ (k, v) :: props.
Proof.
  intros Hk. unfold obj_set. rewrite decide_False by done.
  destruct (array_index k).
  - apply obj_insert_index_Permutation.
  - by rewrite <- Permutation_cons_append.
Qed.

Lemma obj_get_is_None k props : obj_get k props = None → k ∉ props.*1.
Proof.
  induction props as [|[k' v] props IH]; [intros _; apply not_elem_of_nil|].
  cbn [obj_get]. case_decide as Hk; [done|]. intros H%IH.
  rewrite fmap_cons. apply not_elem_of_cons. split; [|done].
  simpl. congruence.
Qed.

(** X20. While a colour of the palette is free, a domain that is new to
    the cache gets a colour that no other domain has: if the stored colours
    are pairwise distinct before the call, they are after it. *)
Theorem getDomainColor_distinct (d : string) (cache : list (string * jsval))
    (c : string) :
  NoDup cache.*2 →
  obj_get d cache = None →
  c ∈ ROYGBIV_COLORS → color_used c cache = false →
  let r := getDomainColor d cache in
  (color r ∉ Plain <$> cache.*2) ∧ NoDup (cache_after r).*2.
Proof.
  intros Hnd Hnew Hc Hu r.
  destruct (getNextColor_first_unused cache c Hc Hu) as (k & _ & Hfree & _).
  assert (JStr (getNextColor cache) ∉ cache.*2) as Hni.
  { intros Hin%color_used_spec. congruence. }
  destruct (getDomainColor_cases d cache)
    as [(v & Hv & _)|[(_ & _ & _ & Hr)|(_ & _ & Hr)]];
    [congruence| |]; unfold r; rewrite Hr; cbn [color cache_after].
  - split; [|done]. by intros (v & [=] & _)%list_elem_of_fmap.
  - split.
    + intros (v & [= <-] & Hv)%list_elem_of_fmap. done.
    + rewrite (obj_set_new_Permutation d _ cache (obj_get_is_None _ _ Hnew)).
      rewrite fmap_cons. by apply NoDup_cons.
Qed.

Lemma elem_of_Set_add x y s : x ∈ Set_add y s ↔ x = y ∨ x ∈ s.
Proof.
  unfold Set_add. case_decide as Hy.
  - split; [auto|]. by intros [->|?].
  - rewrite elem_of_app, list_elem_of_singleton. tauto.
Qed.

Lemma NoDup_Set_add y s : NoDup s → NoDup (Set_add y s).
Proof.
  intros Hs. unfold Set_add. case_decide as Hy; [done|].
  apply NoDup_app. split_and!; [done| |apply NoDup_singleton].
  intros x Hx Hx'%list_elem_of_singleton. by subst.
Qed.

Lemma allDomains_fold (l : list Item) acc d :
  d ∈ fold_left
        (λ s item,
           match domain item with
           | Some d => if decide (d = "") then s else Set_add d s
           | None => s
           end) l acc ↔
  d ∈ acc ∨ ∃ it, it ∈ l ∧ domain it = Some d ∧ d ≠ "".
Proof.
  revert acc. induction l as [|it l IH]; intros acc.
  - simpl. split; [auto|]. intros [?|(it & Hit & _)]; [done|].
    by apply elem_of_nil in Hit.
  - cbn [fold_left]. rewrite IH. split.
    + intros [Hacc|(it' & Hit' & Hd & Hne)].
      * destruct (domain it) as [d0|] eqn:Ed; [|by left].
        case_decide as Hd0; [by left|].
        apply elem_of_Set_add in Hacc as [->|Hacc]; [|by left].
        right. exists it. split_and!; [apply list_elem_of_here|done|done].
      * right. exists it'. split_and!; [by apply list_elem_of_further|done|done].
    + intros [Hacc|(it' & Hit' & Hd & Hne)].
      * left. destruct (domain it) as [d0|]; [|done].
        case_decide; [done|]. apply elem_of_Set_add. by right.
      * apply elem_of_cons in Hit' as [->|Hit'].
        -- left. rewrite Hd, decide_False by done. apply elem_of_Set_add.
           by left.
        -- right. exists it'. done.
Qed.

Lemma allDomains_NoDup_fold (l : list Item) acc :
  NoDup acc →
  NoDup (fold_left
           (λ s item,
              match domain item with
              | Some d => if decide (d = "") then s else Set_add d s
              | None => s
              end) l acc).
Proof.
  revert acc. induction l as [|it l IH]; intros acc Hacc; [done|].
  cbn [fold_left]. apply IH. destruct (domain it) as [d0|]; [|done].
  case_decide; [done|]. by apply NoDup_Set_add.
Qed.

Lemma sync_step_kept st d k :
  has_truthy k st.1 = true → obj_get k (sync_step st d).1 = obj_get k st.1.
Proof.
  intros Hk. unfold sync_step. destruct (has_truthy d st.1) eqn:Hd; [done|].
  cbn [fst]. rewrite obj_get_set, decide_False; [done|]. congruence.
Qed.

Lemma has_truthy_kept o o' k :
  obj_get k o' = obj_get k o → has_truthy k o' = has_truthy k o.
Proof. unfold has_truthy, obj_read. by intros ->. Qed.

Lemma sync_step_done st d : has_truthy d (sync_step st d).1 = true.
Proof.
  unfold sync_step. destruct (has_truthy d st.1) eqn:Hd; [done|].
  cbn [fst]. rewrite has_truthy_set, decide_True by done.
  apply palette_truthy, getNextColor_palette.
Qed.

Lemma sync_fold_kept l st k :
  has_truthy k st.1 = true →
  obj_get k (fold_left sync_step l st).1 = obj_get k st.1.
Proof.
  revert st. induction l as [|d l IH]; intros st Hk; [done|].
  cbn [fold_left]. rewrite IH.
  - by apply sync_step_kept.
  - etransitivity; [|exact Hk]. by apply has_truthy_kept, sync_step_kept.
Qed.

Lemma sync_fold_done l st d :
  d ∈ l → has_truthy d (fold_left sync_step l st).1 = true.
Proof.
  revert st. induction l as [|d' l IH]; intros st Hd.
  - by apply elem_of_nil in Hd.
  - cbn [fold_left]. apply elem_of_cons in Hd as [->|Hd]; [|by apply IH].
    rewrite (has_truthy_kept (sync_step st d').1).
    + apply sync_step_done.
    + apply sync_fold_kept, sync_step_done.
Qed.

Lemma sync_fold_fixed l st :
  (∀ d, d ∈ l → has_truthy d st.1 = true) → fold_left sync_step l st = st.
Proof.
  induction l as [|d l IH]; intros Hall; [done|].
  cbn [fold_left]. unfold sync_step at 2.
  rewrite (Hall d) by apply list_elem_of_here.
  apply IH. intros d' Hd'. by apply Hall, list_elem_of_further.
Qed.

(** An update records a domain that had no colour and has one now. *)
Lemma sync_fold_updated l st :
  (fold_left sync_step l st).2 = true →
  st.2 = true ∨
  ∃ d, has_truthy d st.1 = false ∧
       has_truthy d (fold_left sync_step l st).1 = true.
Proof.
  revert st. induction l as [|d l IH]; intros st Hup; [by left|].
  cbn [fold_left] in *. destruct (IH _ Hup) as [Hstep|(d' & Hd' & Hd'')].
  - unfold sync_step in Hstep. destruct (has_truthy d st.1) eqn:Hd; [by left|].
    right. exists d. split; [done|].
    rewrite (has_truthy_kept (sync_step st d).1).
    + apply sync_step_done.
    + apply sync_fold_kept, sync_step_done.
  - destruct (has_truthy d' st.1) eqn:E.
    + rewrite (has_truthy_kept st.1) in Hd' by (by apply sync_step_kept).
      congruence.
    + right. by exists d'.
Qed.

Lemma sync_fold_not_updated l st :
  (fold_left sync_step l st).2 = false → fold_left sync_step l st = st.
Proof.
  revert st. induction l as [|d l IH]; intros st Hup; [done|].
  cbn [fold_left] in *. rewrite (IH _ Hup).
  rewrite (IH _ Hup) in Hup. unfold sync_step in *.
  by destruct (has_truthy d st.1).
Qed.

(** X21. After [syncDomainColors] reading the cache under any domain
    named by an item of the document yields something truthy, so that
    rendering it with [getDomainColor] changes and saves nothing; what the
    cache held under a name where it read truthy is kept, and a name that
    the cache inherits and does not own is not stored; a second
    synchronisation changes nothing and saves nothing; and the call saves
    exactly when it changed the cache. *)
Theorem syncDomainColors_covers (data : PlannerData)
    (cache : list (string * jsval)) :
  let r := syncDomainColors data cache in
  (∀ it d, it ∈ all_items (items data) → domain it = Some d → d ≠ "" →
           has_truthy d r.1 = true ∧
           cache_after (getDomainColor d r.1) = r.1 ∧
           saved_text (getDomainColor d r.1) = None) ∧
  (∀ k, has_truthy k cache = true → obj_get k r.1 = obj_get k cache) ∧
  (∀ k, k ∈ Object_prototype_names → obj_get k cache = None →
        obj_get k r.1 = None) ∧
  syncDomainColors data r.1 = (r.1, None) ∧
  (r.2 = None ↔ r.1 = cache) ∧
  (r.2 = None ∨ r.2 = Some (saveDomainColors r.1)).
Proof.
  intros r. unfold r, syncDomainColors.
  destruct (fold_left sync_step (allDomains data) (cache, false))
    as [cache' updated] eqn:E.
  cbn [fst snd].
  assert (∀ d, d ∈ allDomains data → has_truthy d cache' = true) as Hdone.
  { intros d Hd.
    change cache' with (cache', updated).1. rewrite <- E.
    by apply sync_fold_done. }
  assert (∀ k, has_truthy k cache = true →
               obj_get k cache' = obj_get k cache) as Hkept.
  { intros k Hk. change cache' with (cache', updated).1. rewrite <- E.
    by apply (sync_fold_kept _ (cache, false)). }
  split_and!.
  - intros it d Hit Hd Hne.
    assert (has_truthy d cache' = true) as Ht.
    { apply Hdone. apply allDomains_fold. right. eauto. }
    split; [done|].
    destruct (getDomainColor_cases d cache')
      as [(v & _ & _ & _ & ->)|[(_ & _ & _ & ->)|(_ & Hf & _)]];
      [done|done|congruence].
  - done.
  - intros k Hk Hnone. rewrite Hkept; [done|].
    unfold has_truthy, obj_read. by rewrite Hnone, decide_True.
  - by rewrite (sync_fold_fixed _ (cache', false)).
  - destruct updated.
    + split; [done|]. intros ->.
      assert ((fold_left sync_step (allDomains data) (cache, false)).2 = true)
        as Hup by (by rewrite E).
      apply sync_fold_updated in Hup as [Hup|(d & Hd & Hd')]; [done|].
      rewrite E in Hd'. cbn [fst] in *. congruence.
    + split; [|done]. intros _.
      assert ((fold_left sync_step (allDomains data) (cache, false)).2 = false)
        as Hup by (by rewrite E).
      apply sync_fold_not_updated in Hup. rewrite E in Hup. congruence.
  - destruct updated; auto.
Qed.
(** ** Sub-item editing *)

Lemma set_sub_text_ids subId text subs :
  sub_id <$> set_sub_text subId text subs = sub_id <$> subs.
Proof.
  unfold set_sub_text. rewrite <- list_fmap_compose. apply list_fmap_ext.
  intros k s _. simpl. by case_decide.
Qed.

Lemma set_sub_text_other subId text subs :
  subId ∉ sub_id <$> subs → set_sub_text subId text subs = subs.
Proof.
  intros Hni. unfold set_sub_text. etransitivity; [|apply list_fmap_id].
  apply list_fmap_ext. intros k s Hk. rewrite decide_False; [done|].
  intros Hid. apply Hni. rewrite <- Hid. apply list_elem_of_fmap.
  exists s. split; [done|]. by eapply list_elem_of_lookup_2.
Qed.

Lemma sub_findIndex_at subId subs k s :
  NoDup (sub_id <$> subs) → subs !! k = Some s → sub_id s = subId →
  sub_findIndex subId subs = Z.of_nat k.
Proof.
  intros Hnd Hk Hid. unfold sub_findIndex.
  assert (list_find (λ s, sub_id s = subId) subs = Some (k, s)) as ->; [|done].
  apply list_find_Some. split_and!; [done|done|].
  intros j s' Hj Hlt Hid'.
  assert (j = k); [|lia].
  eapply (NoDup_lookup _ j k (sub_id s')); [exact Hnd| |].
  - by rewrite list_lookup_fmap, Hj.
  - rewrite list_lookup_fmap, Hk. simpl. congruence.
Qed.

Lemma set_sub_text_at subId text subs k s :
  NoDup (sub_id <$> subs) → subs !! k = Some s → sub_id s = subId →
  set_sub_text subId text subs =
    take k subs ++ mkSubItem subId text :: drop (S k) subs.
Proof.
  intros Hnd Hk Hid.
  rewrite <- (take_drop_middle subs k s Hk) at 1.
  rewrite <- (take_drop_middle subs k s Hk) in Hnd.
  rewrite fmap_app, fmap_cons in Hnd.
  apply NoDup_app in Hnd as (_ & Hdisj & Hnd).
  apply NoDup_cons in Hnd as [Hpost _].
  unfold set_sub_text. rewrite fmap_app, fmap_cons.
  rewrite decide_True by done. rewrite Hid.
  fold (set_sub_text subId text (take k subs)).
  fold (set_sub_text subId text (drop (S k) subs)).
  rewrite !set_sub_text_other; [done|by rewrite <- Hid|].
  intros Hin. apply (Hdisj subId Hin). rewrite <- Hid. apply list_elem_of_here.
Qed.

(** X22. Shift+Enter in the input of a sub-item, in an item whose sub-item
    ids are pairwise distinct, makes one update: the edited sub-item gets
    the text of the input, a blank sub-item with the generated id is put
    directly after it, and the sub-items before and after are as they
    were. *)
Theorem subItem_shift_enter_inserts_after (subId newSubId : string)
    (item : Item) (inlineSubText : string) (k : nat) (s : SubItem) :
  NoDup (sub_id <$> subItems item) →
  subItems item !! k = Some s →
  sub_id s = subId →
  handleSubItemKeyDown (mkKeyboardEvent "Enter" true) subId newSubId item
    inlineSubText =
  [subItems_update
     (take k (subItems item) ++
      mkSubItem subId inlineSubText :: mkSubItem newSubId "" ::
      drop (S k) (subItems item))].
Proof.
  intros Hnd Hk Hid. unfold handleSubItemKeyDown. cbn [key shiftKey].
  rewrite decide_True by done.
  rewrite (sub_findIndex_at subId _ k s Hnd Hk Hid).
  rewrite (set_sub_text_at subId _ _ k s Hnd Hk Hid).
  replace (Z.to_nat (Z.of_nat k + 1)) with (S k) by lia.
  do 2 f_equal. unfold splice_sub.
  assert (length (take k (subItems item)) = k) as Hlen.
  { rewrite length_take. apply lookup_lt_Some in Hk. lia. }
  rewrite take_app_ge, drop_app_ge by lia.
  replace (S k - length (take k (subItems item)))%nat with 1%nat by lia.
  cbn [take drop]. by rewrite <- app_assoc.
Qed.

Lemma filter_splice_fresh newSubId k subs :
  newSubId ∉ sub_id <$> subs →
  filter (λ s, sub_id s ≠ newSubId) (splice_sub k (mkSubItem newSubId "") subs)
    = subs.
Proof.
  intros Hfresh. unfold splice_sub. rewrite filter_app, filter_cons.
  rewrite decide_False by (simpl; tauto). rewrite <- filter_app, take_drop.
  apply filter_all, Forall_forall. intros s Hs Hid. apply Hfresh.
  rewrite <- Hid. apply list_elem_of_fmap. eauto.
Qed.

(** X23. A blank sub-item made with Shift+Enter goes away again with
    Backspace: when the generated id is new to the item, Backspace in the
    empty input of the new sub-item gives the sub-items that saving the
    edited sub-item alone would have given. *)
Theorem subItem_backspace_undoes_shift_enter (subId newSubId : string)
    (item : Item) (inlineSubText : string) (shift : bool) :
  newSubId ∉ sub_id <$> subItems item →
  ∃ subs,
    handleSubItemKeyDown (mkKeyboardEvent "Enter" true) subId newSubId item
      inlineSubText = [subItems_update subs] ∧
    ∀ newSubId',
      handleSubItemKeyDown (mkKeyboardEvent "Backspace" shift) newSubId
        newSubId' (merge_item item (subItems_update subs)) "" =
      handleSubItemSave subId item inlineSubText.
Proof.
  intros Hfresh. eexists. split.
  - unfold handleSubItemKeyDown. cbn [key shiftKey].
    rewrite decide_True by done. reflexivity.
  - intros newSubId'. unfold handleSubItemKeyDown, handleSubItemSave.
    cbn [key shiftKey merge_item subItems_update u_subItems subItems default].
    rewrite decide_False by done. rewrite decide_False by done.
    rewrite decide_False by done. rewrite decide_True by done.
    do 2 f_equal. apply filter_splice_fresh.
    by rewrite set_sub_text_ids.
Qed.

Lemma update_at (g : GroupId) (item : Item) (u : ItemUpdates)
    (prev : PlannerData) (k : nat) (it : Item) :
  u_id u = None →
  NoDup (item_id <$> group_items (items prev) g) →
  group_items (items prev) g !! k = Some it →
  item_id it = item_id item →
  handleUpdateItem g (item_id item) u prev =
    with_items
      (set_group g (<[k := merge_item it u]> (group_items (items prev) g))
         (items prev)) prev.
Proof.
  intros Hu Hnd Hk Hid. unfold handleUpdateItem. do 2 f_equal.
  apply list_eq. intros j. rewrite list_lookup_fmap.
  destruct (decide (j = k)) as [->|Hjk].
  - rewrite list_lookup_insert_eq by (by eapply lookup_lt_Some).
    rewrite Hk. simpl. by rewrite decide_True.
  - rewrite list_lookup_insert_ne by done.
    destruct (group_items (items prev) g !! j) as [it'|] eqn:Hj; [|done].
    simpl. rewrite decide_False; [done|]. intros Hid'. apply Hjk.
    eapply (NoDup_lookup _ j k (item_id it')); [exact Hnd| |].
    + by rewrite list_lookup_fmap, Hj.
    + rewrite list_lookup_fmap, Hk. simpl. congruence.
Qed.

(** X24. Shift+Enter in the text input of an item makes up to two updates,
    and both take effect: in a group whose ids are pairwise distinct, the
    item of the document ends up with the text of the input and with a
    blank sub-item, carrying the generated id, after its sub-items; its id,
    epic, domain and points, the other items and the other groups are as
    before. *)
Theorem inlineText_shift_enter_effect (g : GroupId) (item : Item)
    (inlineText newSubId : string) (prev : PlannerData) (k : nat) :
  NoDup (item_id <$> group_items (items prev) g) →
  group_items (items prev) g !! k = Some item →
  apply_updates g item
    (handleInlineTextKeyDown (mkKeyboardEvent "Enter" true) newSubId item
       inlineText) prev =
  with_items
    (set_group g
       (<[k := mkItem (item_id item) inlineText
                 (subItems item ++ [mkSubItem newSubId ""])
                 (epic item) (domain item) (requiredPoints item)
                 (optionalPoints item)]> (group_items (items prev) g))
       (items prev)) prev.
Proof.
  intros Hnd Hk. unfold handleInlineTextKeyDown. cbn [key shiftKey].
  rewrite decide_True by done.
  unfold handleInlineTextSave, addInlineSubItem, apply_updates.
  assert (k < length (group_items (items prev) g))%nat as Hlen
    by (by eapply lookup_lt_Some).
  case_decide as Htext; cbn [app fold_left].
  - rewrite (update_at g item (text_update inlineText) prev k item)
      by done.
    rewrite (update_at g item _ _ k
               (merge_item item (text_update inlineText))).
    + cbn [items with_items]. rewrite group_items_set_same.
      rewrite list_insert_insert_eq. unfold with_items. cbn [sprints velocity].
      by rewrite set_group_twice.
    + done.
    + cbn [items with_items]. rewrite group_items_set_same.
      rewrite list_fmap_insert. cbn [merge_item item_id text_update u_id default].
      rewrite list_insert_id; [done|]. by rewrite list_lookup_fmap, Hk.
    + cbn [items with_items]. rewrite group_items_set_same.
      by rewrite list_lookup_insert_eq.
    + done.
  - rewrite (update_at g item _ prev k item) by done.
    do 3 f_equal. destruct item. simpl in *.
    by subst.
Qed.

(** X25. In the edit form, removing the sub-item that was just added gives
    the edited item back, when the generated id is new to it; and setting
    the text of a sub-item keeps the ids of the sub-items. *)
Theorem editForm_remove_added (newSubId subId text : string) (editData : Item) :
  newSubId ∉ sub_id <$> subItems editData →
  removeSubItem newSubId (addSubItem newSubId editData) = editData ∧
  sub_id <$> subItems (updateSubItem subId text editData)
    = sub_id <$> subItems editData.
Proof.
  intros Hfresh. split.
  - unfold removeSubItem, addSubItem. destruct editData as [i t subs e d r o].
    cbn in *. f_equal. rewrite filter_app, filter_cons.
    rewrite decide_False by (simpl; tauto). rewrite filter_nil, app_nil_r.
    apply filter_all, Forall_forall. intros s Hs Hid. apply Hfresh.
    rewrite <- Hid. apply list_elem_of_fmap. eauto.
  - apply set_sub_text_ids.
Qed.
(** ** Clipboard export of a group *)

Lemma string_app_assoc (a b c : string) : (a +:+ b) +:+ c = a +:+ (b +:+ c).
Proof.
  induction a as [|x a IH]; [done|].
  change (String x ((a +:+ b) +:+ c) = String x (a +:+ b +:+ c)).
  by f_equal.
Qed.

Lemma join_head sep x l : ∃ tail, join sep (x :: l) = x +:+ tail.
Proof.
  destruct l as [|y l].
  - exists "". cbn [join]. induction x as [|c x IH]; [done|].
    change (String c x = String c (x +:+ "")). by f_equal.
  - by eexists.
Qed.

Lemma numbered_nonempty (n : nat) rest : pretty n +:+ "." +:+ rest ≠ "".
Proof. by destruct (pretty n). Qed.

(** The block of an item starts with its number and a full stop. *)
Lemma format_item_head idx item :
  ∃ rest, format_item idx item = pretty (S idx) +:+ "." +:+ rest.
Proof.
  unfold format_item. rewrite Nat.add_1_r.
  set (subLines := mjoin _).
  match goal with
  | |- ∃ rest, join _ (?main :: _) = _ => set (m := main)
  end.
  assert (∃ r, m = pretty (S idx) +:+ "." +:+ r) as [r Hr].
  { unfold m.
    destruct (nonempty (domain item)), (nonempty (Some (item_text item))),
      (nonempty (epic item));
      rewrite ?string_app_assoc; first [by eexists|by exists ""]. }
  destruct (join_head (String newline "") m subLines) as [tail ->].
  rewrite Hr, !string_app_assoc. by eexists.
Qed.

Lemma format_item_nonempty idx item : format_item idx item ≠ "".
Proof.
  destruct (format_item_head idx item) as [rest ->]. apply numbered_nonempty.
Qed.

Lemma imap_format_nonempty (f : nat → nat) its :
  Forall (λ s, s ≠ "") (imap (λ idx, format_item (f idx)) its).
Proof.
  revert f. induction its as [|it its IH]; intros f; [constructor|].
  cbn [imap]. constructor; [apply format_item_nonempty|].
  apply (IH (f ∘ S)).
Qed.

(** X26. The clipboard text of a group has one block for each item, none
    is dropped: the block of the item at index [k] starts with the number
    [k + 1] and a full stop, whether or not the item has a text, a domain or
    an epic; and the text is empty exactly when the group is empty. *)
Theorem formatItemsForExport_numbers_every_item (its : list Item) :
  formatItemsForExport its =
    join (String newline "") (imap format_item its) ∧
  length (imap format_item its) = length its ∧
  (∀ k item, its !! k = Some item →
             ∃ rest, imap format_item its !! k =
                       Some (pretty (S k) +:+ "." +:+ rest)) ∧
  (formatItemsForExport its = "" ↔ its = []).
Proof.
  assert (formatItemsForExport its =
          join (String newline "") (imap format_item its)) as Heq.
  { unfold formatItemsForExport. f_equal. apply filter_all.
    apply (imap_format_nonempty id). }
  split_and!.
  - done.
  - apply length_imap.
  - intros k item Hk. rewrite list_lookup_imap, Hk. simpl.
    destruct (format_item_head k item) as [rest ->]. by eexists.
  - rewrite Heq. split; [|by intros ->].
    destruct its as [|it its]; [done|]. cbn [imap]. intros H. exfalso.
    destruct (join_head (String newline "") (format_item 0 it)
                (imap (format_item ∘ S) its)) as [tail Htail].
    rewrite Htail in H. destruct (format_item_head 0 it) as [rest Hrest].
    rewrite Hrest, !string_app_assoc in H. by apply numbered_nonempty in H.
Qed.
(** ** Writing to the store and reading back *)

Lemma closed_not_digit rest :
  closed rest →
  match rest with [] => True | c :: _ => digit_of_char c = None end.
Proof. destruct rest as [|c rest]; [done|]. by intros [->|[->| ->]]. Qed.

Lemma parse_frac_closed rest :
  closed rest → parse_frac rest = Some (None, rest).
Proof. destruct rest as [|c rest]; [done|]. by intros [->|[->| ->]]. Qed.

Lemma parse_exp_closed rest :
  closed rest → parse_exp rest = Some (None, rest).
Proof. destruct rest as [|c rest]; [done|]. by intros [->|[->| ->]]. Qed.

Lemma parse_number_print_closed n rest :
  closed rest →
  parse_number (print_number (inject_Z n) ++ rest) = Some (inject_Z n, rest).
Proof.
  intros Hrest. rewrite print_number_int.
  set (u := N.to_uint (Z.abs_N n)).
  assert (scan_uint (chars_of_uint u ++ rest) = (u, rest)) as Hscan
    by (by apply scan_uint_chars, closed_not_digit).
  assert (N.of_uint u = Z.abs_N n) as Hu by apply DecimalN.Unsigned.of_to.
  pose proof (to_uint_not_nil (Z.abs_N n)) as Hnil. fold u in Hnil.
  pose proof (to_uint_no_leading_zero (Z.abs_N n)) as Hlz. fold u in Hlz.
  unfold parse_number. destruct (n <? 0)%Z eqn:Hneg.
  - cbn [app strip_minus]. change (Ascii.eqb "-" "-") with true. cbn iota.
    rewrite Hscan. destruct u eqn:Eu; [done|..];
      rewrite Hlz, (parse_frac_closed _ Hrest), (parse_exp_closed _ Hrest);
      unfold number_value; rewrite Hu; do 3 f_equal; lia.
  - cbn [app]. rewrite (strip_minus_digits u rest Hnil), Hscan.
    destruct u eqn:Eu; [done|..];
      rewrite Hlz, (parse_frac_closed _ Hrest), (parse_exp_closed _ Hrest);
      unfold number_value; rewrite Hu; do 3 f_equal; lia.
Qed.

Lemma print_compact_head v :
  ∃ c r, print_compact v = c :: r ∧ value_start c = true.
Proof.
  destruct v as [|[]|n|s|es|ps]; try (by eexists _, _).
  destruct (print_number_head n) as (c & r & Hc & Hs).
  exists c, r. split; [done|]. by apply number_start_value_start.
Qed.

Lemma parse_elements_compact elems :
  elems ≠ [] → Forall reads_back_compact elems →
  ∀ rest acc fuel,
    (foldr (λ e r, S (Nat.max (need e) r)) 0 elems ≤ fuel)%nat →
    parse_elements fuel
      (join_comma (map print_compact elems) ++ "]"%char :: rest) acc =
    Some (JArr (acc ++ elems), rest).
Proof.
  induction elems as [|e elems IH]; [done|]. intros _ Hall rest acc fuel Hfuel.
  apply Forall_cons in Hall as [He Hall]. cbn [foldr] in Hfuel.
  destruct fuel as [|fuel]; [lia|]. cbn [parse_elements].
  destruct elems as [|e2 elems].
  - cbn [map join_comma].
    rewrite (He _ fuel) by (simpl; lia || (right; by left)).
    cbn [skip_ws]. change (is_ws "]") with false. cbn iota.
    change (Ascii.eqb "]" ",") with false. change (Ascii.eqb "]" "]") with true.
    done.
  - change (join_comma (map print_compact (e :: e2 :: elems)))
      with (print_compact e ++
            ","%char :: join_comma (map print_compact (e2 :: elems))).
    rewrite <- app_assoc. cbn [app].
    rewrite (He _ fuel) by (simpl; lia || by left).
    cbn [skip_ws]. change (is_ws ",") with false.
    change (Ascii.eqb "," ",") with true. cbn iota.
    rewrite (IH ltac:(done) Hall rest (acc ++ [e]) fuel) by (simpl in *; lia).
    by rewrite <- app_assoc.
Qed.

Lemma parse_members_compact props :
  props ≠ [] → Forall (λ kv, reads_back_compact kv.2) props →
  ∀ rest acc fuel,
    NoDup (acc ++ props).*1 →
    Forall (λ kv, array_index kv.1 = None) props →
    (foldr (λ kv r, match kv with (_, e) => S (Nat.max (need e) r) end) 0 props
       ≤ fuel)%nat →
    parse_members fuel
      (join_comma (member_texts props) ++ "}"%char :: rest) acc =
    Some (JObj (acc ++ props), rest).
Proof.
  induction props as [|[k e] props IH]; [done|].
  intros _ Hall rest acc fuel Hnd Hidx Hfuel.
  apply Forall_cons in Hall as [He Hall]. apply Forall_cons in Hidx as [Hk Hidx].
  cbn [foldr] in Hfuel. simpl in He, Hk.
  assert (k ∉ acc.*1) as Hfresh.
  { rewrite fmap_app in Hnd. apply NoDup_app in Hnd as (_ & Hdisj & _).
    intros Hin. apply (Hdisj k Hin). apply list_elem_of_here. }
  assert (NoDup ((acc ++ [(k, e)]) ++ props).*1) as Hnd'
    by (by rewrite <- app_assoc).
  destruct fuel as [|fuel]; [lia|]. cbn [parse_members].
  destruct props as [|kv2 props].
  - cbn [member_texts map join_comma].
    unfold quote. cbn [app skip_ws]. change (is_ws dquote) with false.
    change (Ascii.eqb dquote dquote) with true. cbn iota.
    rewrite <- !app_assoc. cbn [app]. rewrite parse_string_quote.
    cbn [skip_ws]. change (is_ws ":") with false.
    change (Ascii.eqb ":" ":") with true. cbn iota.
    rewrite (He _ fuel) by (simpl; lia || (right; by right)).
    cbn [skip_ws]. change (is_ws "}") with false. cbn iota.
    change (Ascii.eqb "}" ",") with false. change (Ascii.eqb "}" "}") with true.
    cbn iota. by rewrite obj_set_fresh.
  - change (join_comma (member_texts ((k, e) :: kv2 :: props)))
      with ((quote k ++ ":"%char :: print_compact e) ++
            ","%char :: join_comma (member_texts (kv2 :: props))).
    unfold quote. cbn [app skip_ws]. change (is_ws dquote) with false.
    change (Ascii.eqb dquote dquote) with true. cbn iota.
    rewrite <- !app_assoc. cbn [app]. rewrite <- ?app_assoc. cbn [app].
    rewrite parse_string_quote.
    cbn [skip_ws]. change (is_ws ":") with false.
    change (Ascii.eqb ":" ":") with true. cbn iota.
    rewrite (He _ fuel) by (simpl; lia || by left).
    cbn [skip_ws]. change (is_ws ",") with false.
    change (Ascii.eqb "," ",") with true. cbn iota.
    rewrite obj_set_fresh by done.
    rewrite (IH ltac:(done) Hall rest (acc ++ [(k, e)]) fuel);
      [by rewrite <- app_assoc|done|done|simpl in *; destruct kv2; lia].
Qed.

Lemma parse_print_compact v : plain v = true → reads_back_compact v.
Proof.
  induction v as [|b|n|s|elems IH|props IH] using jsval_nested_ind;
    intros Hplain rest fuel Hfuel Hrest;
    (destruct fuel as [|fuel]; [simpl in Hfuel; lia|]).
  - reflexivity.
  - by destruct b.
  - cbn [print_compact]. destruct (print_number_head n) as (c & r & Hc & Hs).
    rewrite Hc. cbn [app]. rewrite (parse_value_number fuel c _ Hs).
    change (c :: r ++ rest) with ((c :: r) ++ rest). rewrite <- Hc.
    rewrite (plain_integer n Hplain). by rewrite parse_number_print_closed.
  - cbn [print_compact]. unfold quote. cbn [app]. rewrite <- app_assoc.
    cbn [app]. by rewrite parse_value_string, parse_string_quote.
  - pose proof (plain_elements elems Hplain) as Hall.
    assert (Forall reads_back_compact elems) as Hrb.
    { apply Forall_forall. intros e He. rewrite Forall_forall in IH, Hall.
      auto. }
    destruct elems as [|e elems]; [reflexivity|].
    cbn [print_compact app]. rewrite <- !app_assoc. cbn [app].
    rewrite parse_value_array.
    destruct (join_comma_head (print_compact e) (map print_compact elems))
      as [tail Htail].
    change (join_comma (map print_compact (e :: elems)))
      with (join_comma (print_compact e :: map print_compact elems)) at 1.
    rewrite Htail at 1.
    destruct (print_compact_head e) as (c & r & Hc & Hs). rewrite Hc at 1.
    cbn [app]. rewrite (skip_ws_value_start c _ Hs).
    destruct (value_start_facts c Hs) as (_ & -> & _).
    cbn [need] in Hfuel.
    rewrite (parse_elements_compact (e :: elems)) by (done || lia).
    done.
  - destruct (plain_members props Hplain) as (Hnd & Hidx & Hall).
    assert (Forall (λ kv, reads_back_compact kv.2) props) as Hrb.
    { apply Forall_forall. intros e He. rewrite Forall_forall in IH, Hall.
      auto. }
    destruct props as [|[k e] props]; [reflexivity|].
    change (print_compact (JObj ((k, e) :: props)))
      with ("{"%char :: join_comma (member_texts ((k, e) :: props)) ++
            ["}"%char]).
    cbn [app]. rewrite <- !app_assoc. cbn [app]. rewrite parse_value_object.
    destruct (join_comma_head (quote k ++ ":"%char :: print_compact e)
                (member_texts props)) as [tail Htail].
    change (join_comma (member_texts ((k, e) :: props)))
      with (join_comma ((quote k ++ ":"%char :: print_compact e)
                          :: member_texts props)) at 1.
    rewrite Htail at 1. unfold quote at 1.
    cbn [app skip_ws]. change (is_ws dquote) with false.
    change (Ascii.eqb dquote "}") with false. cbn iota.
    cbn [need] in Hfuel.
    rewrite (parse_members_compact ((k, e) :: props)) by (done || lia).
    done.
Qed.

Lemma join_comma_need {A} (f : A → nat) (g : A → list ascii) (l : list A) :
  Forall (λ x, f x ≤ length (g x))%nat l →
  (foldr (λ x r, S (Nat.max (f x) r)) 0 l
   ≤ S (length (join_comma (map g l))))%nat.
Proof.
  induction 1 as [|x l Hx _ IH]; [simpl; lia|].
  cbn [foldr map]. destruct l as [|y l].
  - cbn [foldr map join_comma]. lia.
  - change (join_comma (g x :: map g (y :: l)))
      with (g x ++ ","%char :: join_comma (map g (y :: l))).
    rewrite length_app. cbn [length]. lia.
Qed.

Lemma need_le_length_compact v : (need v ≤ length (print_compact v))%nat.
Proof.
  induction v as [|b|n|s|elems IH|props IH] using jsval_nested_ind.
  - simpl. lia.
  - destruct b; simpl; lia.
  - destruct (print_compact_head (JNum n)) as (c & r & -> & _). simpl. lia.
  - destruct (print_compact_head (JStr s)) as (c & r & -> & _). simpl. lia.
  - cbn [print_compact need length]. rewrite length_app.
    pose proof (join_comma_need need print_compact elems IH).
    cbn [length]. lia.
  - change (print_compact (JObj props))
      with ("{"%char :: join_comma (member_texts props) ++ ["}"%char]).
    cbn [need length]. rewrite length_app.
    assert (foldr (λ kv r, match kv with
                           | (_, e) => S (Nat.max (need e) r)
                           end) 0 props
            ≤ S (length (join_comma (member_texts props))))%nat;
      [|cbn [length]; lia].
    etransitivity;
      [|apply (join_comma_need
                 (λ kv : string * jsval, need kv.2)
                 (λ kv, match kv with
                        | (k, e) => quote k ++ ":"%char :: print_compact e
                        end))].
    + apply Nat.eq_le_incl. clear. induction props as [|[k e] l IHl]; [done|].
      cbn [foldr snd]. by rewrite IHl.
    + eapply Forall_impl; [exact IH|]. intros [k e] He. cbn [snd] in *.
      rewrite length_app. cbn [length]. lia.
Qed.

(** [JSON.parse] undoes [JSON.stringify] without a gap on plain values. *)
Lemma JSON_parse_stringify_compact v :
  plain v = true → JSON_parse (JSON_stringify_compact v) = Some v.
Proof.
  intros Hplain. unfold JSON_parse, JSON_stringify_compact.
  rewrite chars_string_of_list.
  rewrite <- (app_nil_r (print_compact v)) at 2.
  rewrite (parse_print_compact v Hplain []); [done| |done].
  pose proof (need_le_length_compact v). lia.
Qed.

Lemma JSON_stringify_compact_nonempty v : JSON_stringify_compact v ≠ "".
Proof.
  unfold JSON_stringify_compact.
  destruct (print_compact_head v) as (c & r & -> & _). done.
Qed.


Lemma plain_members_intro props :
  NoDup props.*1 → Forall (λ kv, array_index kv.1 = None) props →
  Forall (λ kv, plain kv.2 = true) props → plain (JObj props) = true.
Proof.
  intros Hnd Hidx Hall. cbn [plain]. rewrite (bool_decide_eq_true_2 _ Hnd).
  cbn [andb]. apply forallb_forall. intros [k e] Hin%list_elem_of_In.
  rewrite Forall_forall in Hidx, Hall.
  specialize (Hidx _ Hin). specialize (Hall _ Hin). simpl in *.
  by rewrite (bool_decide_eq_true_2 _ Hidx), Hall.
Qed.

Lemma obj_replace_keys k v props : (obj_replace k v props).*1 = props.*1.
Proof.
  induction props as [|[k' v'] props IH]; [done|]. cbn [obj_replace].
  case_decide; [done|]. by rewrite !fmap_cons, IH.
Qed.

Lemma obj_replace_Forall (P : string * jsval → Prop) k v props :
  P (k, v) → Forall P props → Forall P (obj_replace k v props).
Proof.
  intros Hkv. induction 1 as [|[k' v'] props Hx Hall IH]; [constructor|].
  cbn [obj_replace]. case_decide as Hk.
  - subst k'. by constructor.
  - by constructor.
Qed.

(** Setting a property whose name is not an array index to a plain value
    keeps an object plain. *)
Lemma plain_obj_set k v props :
  plain (JObj props) = true → array_index k = None → plain v = true →
  plain (JObj (obj_set k v props)) = true.
Proof.
  intros (Hnd & Hidx & Hall)%plain_members Hk Hv. apply plain_members_intro;
    unfold obj_set; case_decide as Hin; rewrite ?Hk.
  - by rewrite obj_replace_keys.
  - rewrite fmap_app. apply NoDup_app. split_and!; [done| |apply NoDup_singleton].
    intros x Hx Hx'%list_elem_of_singleton. by subst.
  - by apply obj_replace_Forall.
  - apply Forall_app. split; [done|]. by constructor.
  - by apply obj_replace_Forall.
  - apply Forall_app. split; [done|]. by constructor.
Qed.

(** X28. What [saveDomainColors] writes for a cache with distinct names,
    none of them an array index, and with plain values, [loadDomainColors]
    reads back as the same cache, in the same order; so the text that
    [getDomainColor] saves when it gives a colour to a domain, whose name is
    not an array index, reads back as the cache after the call. Nothing
    stored, an empty text or a blank text gives the default cache, which
    holds the colour of [Unassigned] only. *)
Theorem domainColors_roundtrip (cache : list (string * jsval)) :
  plain (JObj cache) = true →
  loadDomainColors (Some (saveDomainColors cache)) = JObj cache ∧
  (∀ d text, array_index d = None →
             saved_text (getDomainColor d cache) = Some text →
             loadDomainColors (Some text) =
               JObj (cache_after (getDomainColor d cache))) ∧
  loadDomainColors None = JObj [("Unassigned", JStr "#94a3b8")] ∧
  ∀ text, is_blank text = true →
          loadDomainColors (Some text) = JObj [("Unassigned", JStr "#94a3b8")].
Proof.
  intros Hplain.
  assert (∀ o, plain (JObj o) = true →
               loadDomainColors (Some (saveDomainColors o)) = JObj o) as Hload.
  { intros o Ho. unfold loadDomainColors, saveDomainColors.
    rewrite decide_False by apply JSON_stringify_compact_nonempty.
    by rewrite JSON_parse_stringify_compact. }
  split_and!.
  - by apply Hload.
  - intros d text Hd.
    destruct (getDomainColor_cases d cache)
      as [(v & _ & _ & _ & ->)|[(_ & _ & _ & ->)|(_ & _ & ->)]];
      cbn [saved_text cache_after]; intros [= <-].
    by apply Hload, plain_obj_set.
  - done.
  - intros text Hblank. unfold loadDomainColors. case_decide; [done|].
    by rewrite JSON_parse_blank.
Qed.

(** ** Witnesses *)

(** Dropping the staged item "a" on the committed item "d" of [sample_data]
    is a cross-group move to which C2 applies. *)
Lemma cross_group_move_invariant_witness :
  let item := dd_item (active_data (active sample_drop)) in
  let next := handleDragEnd sample_drop sample_data in
  NoDup (all_ids (items sample_data)) ∧
  item ∈ group_items (items sample_data) staging ∧
  cross_group_drop sample_drop staging committed ∧
  (∀ g, (∃ it, it ∈ group_items (items next) g ∧ item_id it = item_id item)
        ↔ g = committed) ∧
  NoDup (all_ids (items next)) ∧
  (∀ x, x ∈ all_ids (items next) ↔ x ∈ all_ids (items sample_data)) ∧
  all_items (items next) ≡ₚ all_items (items sample_data).
Proof.
  assert (NoDup (all_ids (items sample_data))) as Hnd
    by (apply (bool_decide_unpack (NoDup (all_ids (items sample_data))));
        vm_compute; exact I).
  assert (dd_item (active_data (active sample_drop))
            ∈ group_items (items sample_data) staging) as Hin
    by (simpl; apply list_elem_of_here).
  assert (cross_group_drop sample_drop staging committed) as Hdrop
    by (eapply drop_on_item; [reflexivity|discriminate|reflexivity
                             |reflexivity|reflexivity|reflexivity|discriminate]).
  split; [exact Hnd|]. split; [exact Hin|]. split; [exact Hdrop|].
  exact (cross_group_move_invariant sample_drop sample_data staging committed
           Hnd Hin Hdrop).
Defined.


(** ** Witnesses of the further properties *)

(** Duplicating the staged item "a" of [sample_data] with the fresh id
    "copy-1". *)
Lemma duplicateItem_keeps_ids_unique_witness :
  NoDup (all_ids (items sample_data)) ∧
  ("copy-1" ∉ all_ids (items sample_data)) ∧
  NoDup (all_ids (items (handleDuplicateItem (λ _, "copy-1") staging
                           (sample_item "a" (Some "api") (Some (JNum 3))
                              (Some (JStr "")))
                           sample_data))).
Proof.
  assert (NoDup (all_ids (items sample_data))) as Hnd
    by (apply (bool_decide_unpack (NoDup (all_ids (items sample_data))));
        vm_compute; exact I).
  assert ("copy-1" ∉ all_ids (items sample_data)) as Hfresh
    by (apply (bool_decide_unpack ("copy-1" ∉ all_ids (items sample_data)));
        vm_compute; exact I).
  split; [exact Hnd|]. split; [exact Hfresh|].
  exact (duplicateItem_keeps_ids_unique (λ _, "copy-1") staging _ sample_data
           Hnd Hfresh).
Defined.

(** The committed item "c3" of [scenario_drag_data], dropped on the
    committed item "c0". *)
Lemma dragEnd_same_group_moves_witness :
  let its := group_items (items scenario_drag_data) committed in
  let next :=
    handleDragEnd
      (mkDragEndEvent
         (mkActive "c3" (mkDragData (sample_item "c3" None None None) committed))
         (Some (mkOver "c0"
                  (Some (mkDragData (sample_item "c0" None None None)
                           committed)))))
      scenario_drag_data in
  "c3" ≠ "c0" ∧
  as_GroupId "c0" = None ∧
  findIndex "c3" its = Z.of_nat 3 ∧
  findIndex "c0" its = Z.of_nat 0 ∧
  group_items (items next) committed ≡ₚ its ∧
  group_items (items next) committed !! 0%nat = its !! 3%nat ∧
  delete 0%nat (group_items (items next) committed) = delete 3%nat its ∧
  ∀ g', g' ≠ committed →
        group_items (items next) g' = group_items (items scenario_drag_data) g'.
Proof.
  intros its next.
  assert ("c3" ≠ "c0") as Hne by discriminate.
  assert (as_GroupId "c0" = None) as Hzone by reflexivity.
  assert (findIndex "c3" its = Z.of_nat 3) as Hi by reflexivity.
  assert (findIndex "c0" its = Z.of_nat 0) as Hj by reflexivity.
  split; [exact Hne|]. split; [exact Hzone|]. split; [exact Hi|].
  split; [exact Hj|].
  exact (dragEnd_same_group_moves "c3" "c0" (sample_item "c3" None None None)
           committed (sample_item "c0" None None None) scenario_drag_data
           3 0 Hne Hzone Hi Hj).
Defined.

(** The drop [sample_drop] on [sample_data]. *)
Lemma dragEnd_conserves_items_witness :
  NoDup (item_id <$> group_items (items sample_data) staging) ∧
  dd_item (active_data (active sample_drop))
    ∈ group_items (items sample_data) staging ∧
  all_items (items (handleDragEnd sample_drop sample_data))
    ≡ₚ all_items (items sample_data).
Proof.
  assert (NoDup (item_id <$> group_items (items sample_data) staging)) as Hnd
    by (apply (bool_decide_unpack
                 (NoDup (item_id <$> group_items (items sample_data) staging)));
        vm_compute; exact I).
  assert (dd_item (active_data (active sample_drop))
            ∈ group_items (items sample_data) staging) as Hin
    by (simpl; apply list_elem_of_here).
  split; [exact Hnd|]. split; [exact Hin|].
  exact (dragEnd_conserves_items sample_drop sample_data Hnd Hin).
Defined.

(** The domain "api" asks for a colour of the default cache. *)
Lemma getDomainColor_distinct_witness :
  NoDup default_domain_colors.*2 ∧
  obj_get "api" default_domain_colors = None ∧
  "#ef4444" ∈ ROYGBIV_COLORS ∧
  color_used "#ef4444" default_domain_colors = false ∧
  (color (getDomainColor "api" default_domain_colors)
     ∉ Plain <$> default_domain_colors.*2) ∧
  NoDup (cache_after (getDomainColor "api" default_domain_colors)).*2.
Proof.
  assert (NoDup default_domain_colors.*2) as Hnd
    by exact (NoDup_singleton (JStr "#94a3b8")).
  assert (obj_get "api" default_domain_colors = None) as Hnew by reflexivity.
  assert ("#ef4444" ∈ ROYGBIV_COLORS) as Hc by apply list_elem_of_here.
  assert (color_used "#ef4444" default_domain_colors = false) as Hu
    by reflexivity.
  split; [exact Hnd|]. split; [exact Hnew|]. split; [exact Hc|].
  split; [exact Hu|].
  exact (getDomainColor_distinct "api" default_domain_colors "#ef4444"
           Hnd Hnew Hc Hu).
Defined.

(** Shift+Enter in the first sub-item of [sample_edited_item]. *)
Lemma subItem_shift_enter_inserts_after_witness :
  NoDup (sub_id <$> subItems sample_edited_item) ∧
  subItems sample_edited_item !! 0%nat = Some (mkSubItem "s1" "first") ∧
  handleSubItemKeyDown (mkKeyboardEvent "Enter" true) "s1" "s3"
    sample_edited_item "edited" =
  [subItems_update
     [mkSubItem "s1" "edited"; mkSubItem "s3" ""; mkSubItem "s2" ""]].
Proof.
  assert (NoDup (sub_id <$> subItems sample_edited_item)) as Hnd
    by (apply (bool_decide_unpack
                 (NoDup (sub_id <$> subItems sample_edited_item)));
        vm_compute; exact I).
  assert (subItems sample_edited_item !! 0%nat = Some (mkSubItem "s1" "first"))
    as Hk by reflexivity.
  split; [exact Hnd|]. split; [exact Hk|].
  exact (subItem_shift_enter_inserts_after "s1" "s3" sample_edited_item
           "edited" 0 (mkSubItem "s1" "first") Hnd Hk eq_refl).
Defined.

Lemma subItem_backspace_undoes_shift_enter_witness :
  ("s3" ∉ sub_id <$> subItems sample_edited_item) ∧
  ∃ subs,
    handleSubItemKeyDown (mkKeyboardEvent "Enter" true) "s1" "s3"
      sample_edited_item "edited" = [subItems_update subs] ∧
    ∀ newSubId',
      handleSubItemKeyDown (mkKeyboardEvent "Backspace" false) "s3"
        newSubId' (merge_item sample_edited_item (subItems_update subs)) "" =
      handleSubItemSave "s1" sample_edited_item "edited".
Proof.
  assert ("s3" ∉ sub_id <$> subItems sample_edited_item) as Hfresh
    by (apply (bool_decide_unpack
                 ("s3" ∉ sub_id <$> subItems sample_edited_item));
        vm_compute; exact I).
  split; [exact Hfresh|].
  exact (subItem_backspace_undoes_shift_enter "s1" "s3" sample_edited_item
           "edited" false Hfresh).
Defined.

(** Shift+Enter in the text input of the staged item "a" of
    [sample_data]. *)
Lemma inlineText_shift_enter_effect_witness :
  let item := sample_item "a" (Some "api") (Some (JNum 3)) (Some (JStr "")) in
  NoDup (item_id <$> group_items (items sample_data) staging) ∧
  group_items (items sample_data) staging !! 0%nat = Some item ∧
  apply_updates staging item
    (handleInlineTextKeyDown (mkKeyboardEvent "Enter" true) "s1" item
       "renamed") sample_data =
  with_items
    (set_group staging
       (<[0%nat := mkItem "a" "renamed" [mkSubItem "s1" ""] None (Some "api")
                     (Some (JNum 3)) (Some (JStr ""))]>
          (group_items (items sample_data) staging))
       (items sample_data)) sample_data.
Proof.
  intros item.
  assert (NoDup (item_id <$> group_items (items sample_data) staging)) as Hnd
    by (apply (bool_decide_unpack
                 (NoDup (item_id <$> group_items (items sample_data) staging)));
        vm_compute; exact I).
  assert (group_items (items sample_data) staging !! 0%nat = Some item) as Hk
    by reflexivity.
  split; [exact Hnd|]. split; [exact Hk|].
  exact (inlineText_shift_enter_effect staging item "renamed" "s1" sample_data
           0 Hnd Hk).
Defined.

Lemma editForm_remove_added_witness :
  ("s3" ∉ sub_id <$> subItems sample_edited_item) ∧
  removeSubItem "s3" (addSubItem "s3" sample_edited_item)
    = sample_edited_item ∧
  sub_id <$> subItems (updateSubItem "s1" "edited" sample_edited_item)
    = sub_id <$> subItems sample_edited_item.
Proof.
  assert ("s3" ∉ sub_id <$> subItems sample_edited_item) as Hfresh
    by (apply (bool_decide_unpack
                 ("s3" ∉ sub_id <$> subItems sample_edited_item));
        vm_compute; exact I).
  split; [exact Hfresh|].
  exact (editForm_remove_added "s3" "s1" "edited" sample_edited_item Hfresh).
Defined.


(** The default cache, saved and loaded again. *)
Lemma domainColors_roundtrip_witness :
  plain (JObj default_domain_colors) = true ∧
  loadDomainColors (Some (saveDomainColors default_domain_colors))
    = JObj default_domain_colors ∧
  (∀ d text, array_index d = None →
             saved_text (getDomainColor d default_domain_colors) = Some text →
             loadDomainColors (Some text) =
               JObj (cache_after (getDomainColor d default_domain_colors))) ∧
  loadDomainColors None = JObj [("Unassigned", JStr "#94a3b8")] ∧
  ∀ text, is_blank text = true →
          loadDomainColors (Some text) = JObj [("Unassigned", JStr "#94a3b8")].
Proof.
  assert (plain (JObj default_domain_colors) = true) as Hplain
    by (vm_compute; reflexivity).
  split; [exact Hplain|].
  exact (domainColors_roundtrip default_domain_colors Hplain).
Defined.

(** The committed item "d" of [sample_data], the second of three. *)
Lemma reorderItem_up_down_inverse_witness :
  let it := sample_item "d" (Some "") (Some (JStr "5")) (Some JNull) in
  NoDup (item_id <$> group_items (items sample_data) committed) ∧
  group_items (items sample_data) committed !! 1%nat = Some it ∧
  ((0 < 1)%nat →
   handleReorderItem committed "d" down
     (handleReorderItem committed "d" up sample_data) = sample_data) ∧
  ((2 < length (group_items (items sample_data) committed))%nat →
   handleReorderItem committed "d" up
     (handleReorderItem committed "d" down sample_data) = sample_data).
Proof.
  intros it.
  assert (NoDup (item_id <$> group_items (items sample_data) committed)) as Hnd
    by (apply (bool_decide_unpack
                 (NoDup (item_id <$> group_items (items sample_data) committed)));
        vm_compute; exact I).
  assert (group_items (items sample_data) committed !! 1%nat = Some it) as Hk
    by reflexivity.
  split; [exact Hnd|]. split; [exact Hk|].
  exact (reorderItem_up_down_inverse committed sample_data 1 it Hnd Hk).
Defined.

(** ** Scenarios of the further code *)

(** The committed group of [sample_data] holds 8 and 13 required and 2
    optional points; the item "c" is deleted. *)
Lemma deleteItem_stats_witness :
  let l := group_items (items sample_data) committed in
  let next := handleDeleteItem committed "c" sample_data in
  Forall (λ it, whole_points (requiredPoints it) ∧
                whole_points (optionalPoints it)) l ∧
  (total_Z requiredPoints l < 2 ^ 53)%Z ∧
  (total_Z optionalPoints l < 2 ^ 53)%Z ∧
  calcStats committed sample_data = mkStats (Finite 21) (Finite 2) ∧
  calcStats committed next = mkStats (Finite 13) (Finite 0) ∧
  ∀ g', g' ≠ committed → calcStats g' next = calcStats g' sample_data.
Proof.
  intros l next.
  assert (Forall (λ it, whole_points (requiredPoints it) ∧
                        whole_points (optionalPoints it)) l) as Hwhole.
  { repeat constructor; by vm_compute. }
  assert (total_Z requiredPoints l < 2 ^ 53)%Z as Hreq by reflexivity.
  assert (total_Z optionalPoints l < 2 ^ 53)%Z as Hopt by reflexivity.
  split; [exact Hwhole|]. split; [exact Hreq|]. split; [exact Hopt|].
  exact (deleteItem_stats committed "c" sample_data Hwhole Hreq Hopt).
Defined.

(** The committed group of [sample_data]: 8 points under "api", a point
    value that is not a number under no domain, 13 points under "ui". *)
Lemma domainBreakdown_whole_points_witness :
  let l := group_items (items sample_data) committed in
  let total := total_Z requiredPoints l in
  Forall (λ it, whole_points (requiredPoints it)) l ∧
  (total < 2 ^ 53)%Z ∧
  Forall (λ it, (0 < points_Z (requiredPoints it))%Z →
                domain_or_unassigned it ∉ Object_prototype_names) l ∧
  ∃ groups : list (string * Z),
    domainBreakdown sample_data = Some (whole_entry total <$> groups) ∧
    NoDup groups.*1 ∧
    (∀ name, name ∈ groups.*1 ↔
       ∃ it, it ∈ l ∧ (0 < points_Z (requiredPoints it))%Z ∧
             domain_or_unassigned it = name) ∧
    Forall (λ kv, kv.2 = domainPoints kv.1 l ∧ (0 < kv.2)%Z) groups ∧
    Forall (λ kv,
              rounds_to
                (percent_of (Finite (inject_Z kv.2)) (Finite (inject_Z total)))
                (ds_percent (whole_entry total kv))) groups ∧
    StronglySorted (λ a b, (b.2 ≤ a.2)%Z) groups ∧
    table_sum groups = total ∧
    required (calcStats committed sample_data) = Finite (inject_Z total).
Proof.
  intros l total.
  assert (Forall (λ it, whole_points (requiredPoints it)) l) as Hwhole.
  { repeat constructor; by vm_compute. }
  assert (total < 2 ^ 53)%Z as Hlt by reflexivity.
  assert (Forall (λ it, (0 < points_Z (requiredPoints it))%Z →
                        domain_or_unassigned it ∉ Object_prototype_names) l)
    as Hnames.
  { repeat constructor; intros _ Hin;
      repeat (apply elem_of_cons in Hin as [Heq|Hin];
              [by vm_compute in Heq|]);
      by apply elem_of_nil in Hin. }
  split; [exact Hwhole|]. split; [exact Hlt|]. split; [exact Hnames|].
  exact (domainBreakdown_whole_points sample_data Hwhole Hlt Hnames).
Defined.

Example scenario_addSprint :
  (λ s, (sprint_id s, sprint_name s)) <$> addSprint "s6" (sprints DEFAULT_DATA)
    = [("s1", "S1"); ("s2", "S2"); ("s3", "S3"); ("s4", "S4"); ("s5", "S5");
       ("s6", "S6")] ∧
  multiplier <$> last (addSprint "s6" (sprints DEFAULT_DATA)) = Some 60 ∧
  multiplier <$> last (addSprints (λ _, "n") 4 (sprints DEFAULT_DATA))
    = Some 40.
Proof. by vm_compute. Qed.

Example scenario_domain_colors :
  let r1 := getDomainColor "api" default_domain_colors in
  let r2 := getDomainColor "ui" (cache_after r1) in
  color r1 = Plain (JStr "#ef4444") ∧ color r2 = Plain (JStr "#f97316") ∧
  cache_after r2 =
    [("Unassigned", JStr "#94a3b8"); ("api", JStr "#ef4444");
     ("ui", JStr "#f97316")] ∧
  (syncDomainColors sample_data default_domain_colors).1 = cache_after r2 ∧
  color (getDomainColor "Unassigned" default_domain_colors)
    = Plain (JStr "#94a3b8").
Proof. by vm_compute. Qed.

(** A domain named [constructor] gets no colour: the cache answers with the
    function it inherits, and nothing is stored or saved. *)
Example scenario_inherited_domain :
  getDomainColor "constructor" default_domain_colors =
    mkColorLookup (Builtin "constructor") default_domain_colors None ∧
  syncDomainColors (inherited_domain_data "constructor") default_domain_colors
    = (default_domain_colors, None) ∧
  (syncDomainColors (inherited_domain_data "api") default_domain_colors).1
    = [("Unassigned", JStr "#94a3b8"); ("api", JStr "#ef4444")].
Proof. by vm_compute. Qed.

Example scenario_clipboard :
  formatItemsForExport sample_export_items =
    join (String newline "")
      [ "1. [ui] - Login page (PC-12)";
        String tab "a. form";
        String tab "c. tests";
        "2.";
        "3. Cleanup" ] ∧
  formatItemsForExport [] = "".
Proof. by vm_compute. Qed.

Example scenario_storage :
  loadFromStorage (Some (saveToStorage (PlannerData_toJS DEFAULT_DATA)))
    = PlannerData_toJS DEFAULT_DATA ∧
  chars (saveDomainColors []) = ["{"; "}"]%char ∧
  loadFromStorage (Some "") = PlannerData_toJS DEFAULT_DATA.
Proof. by vm_compute. Qed.

(** ** Scenarios of the specification *)

Example scenario_addItem :
  group_items (items (handleAddItem "id-1" staging DEFAULT_DATA)) staging =
  [mkItem "id-1" "" [] (Some "") (Some "") (Some (JStr "")) (Some (JStr ""))].
Proof. reflexivity. Qed.

Example scenario_stats :
  calcStats committed scenario_stats_data = mkStats (Finite 30) (Finite 5) ∧
  totalPlanningPoints scenario_stats_data = Finite 100 ∧
  committedPercent scenario_stats_data = Finite 30 ∧
  committedRemaining scenario_stats_data = Finite 70.
Proof. by vm_compute. Qed.

(** The numbers are doubles: 0.1 + 0.2 is 0.30000000000000004, the default
    schedule at a velocity of 34 has a capacity of 147.9 (the double nearest
    to it), and 23 points committed out of a capacity of 40 are
    57.49999999999999 percent, shown as 57. *)
Example scenario_doubles :
  fl (1 # 10) = Finite (3602879701896397 # 36028797018963968) ∧
  fadd (fl (1 # 10)) (fl (2 # 10)) = fl (30000000000000004 # 100000000000000000) ∧
  fadd (fl (1 # 10)) (fl (2 # 10)) ≠ fl (3 # 10) ∧
  totalPlanningPoints DEFAULT_DATA = fl (1479 # 10) ∧
  totalPlanningPoints half_percent_data = Finite 40 ∧
  fmul (fdiv (Finite 23) (Finite 40)) (Finite 100) =
    fl (5749999999999999 # 100000000000000) ∧
  committedPercent half_percent_data = Finite 57 ∧
  committedPercent overcommitted_data = Finite 135 ∧
  fl (2 ^ 1024) = PosInf ∧
  fdiv (Finite 0) (Finite 0) = NaN.
Proof. by vm_compute. Qed.

(** The breakdown of [sample_data]: 13 of the 21 committed points under
    "ui", 8 under "api". *)
Example scenario_domainBreakdown :
  domainBreakdown sample_data =
    Some [mkDomainStat "ui" (Finite 13) (Finite 62);
          mkDomainStat "api" (Finite 8) (Finite 38)].
Proof. by vm_compute. Qed.

Example scenario_drag :
  let next := handleDragEnd scenario_drop scenario_drag_data in
  group_items (items next) staging = [] ∧
  item_id <$> group_items (items next) committed = ["c0"; "c1"; "A"; "B"; "c3"].
Proof. by vm_compute. Qed.

Example scenario_import_not_json :
  JSON_parse "{not json" = None ∧
  handleImportData "{not json" (PlannerData_toJS sample_data) =
    PlannerData_toJS sample_data.
Proof. by vm_compute. Qed.

Example scenario_reorder :
  item_id <$> group_items
                (items (handleReorderItem committed "d" up sample_data)) committed
    = ["d"; "c"; "e"] ∧
  handleReorderItem committed "c" up sample_data = sample_data ∧
  handleReorderItem committed "e" down sample_data = sample_data ∧
  handleReorderItem committed "zz" down sample_data = sample_data.
Proof. by vm_compute. Qed.

Example scenario_import_partial :
  handleImportData
    (JSON_stringify
       (JObj [("velocity", JNum 21); ("items", JObj [("risks", JArr [])])]))
    (PlannerData_toJS sample_data) =
  PlannerData_toJS
    (mkPlannerData (sprints DEFAULT_DATA) 21 empty_groups).
Proof. by vm_compute. Qed.
